(** * A shallow embedding of github.com/marselester/bloom

    The package [bloom] (file [bloom.go]) is modelled function by function:
    - Go [[]byte] values and Go strings are lists of byte values (Z in [0,256));
    - [uint64], [uint32], [byte] and [int] values are Z, with the wrap-around of
      every conversion written out;
    - [float64] values are Rocq's primitive IEEE-754 binary64 floats;
    - run-time panics (division by zero, index out of range, [make] with a length
      over the allocation limit) are a [go] outcome of their own;
    - methods with a pointer receiver ([*Filter]) pass the filter as explicit state.
    The library code the package calls ([crypto/sha256], [fmt.Sprintf("%x")],
    [strconv.ParseUint], [math.Log], [math.Ceil], the float conversions of the gc
    compiler on linux/amd64) is modelled from its own definition. *)

From Stdlib Require Import ZArith List Bool Lia Permutation.
From Stdlib Require String Ascii.
Import String.StringSyntax.
From Stdlib Require Import Floats.
From Stdlib Require Import Reals Lra.
Import ListNotations.

Open Scope list_scope.
Open Scope Z_scope.

(** ** Go run-time outcomes *)

Inductive panic_kind : Type :=
| DivideByZero       (* integer divide by zero *)
| IndexOutOfRange    (* index out of range *)
| SliceOutOfRange    (* slice bounds out of range *)
| MakeSliceLen.      (* makeslice: len out of range *)

Inductive go (A : Type) : Type :=
| Done (a : A)
| Panic (k : panic_kind).
Arguments Done {A} a.
Arguments Panic {A} k.

(** Errors returned as values. [strconv.ParseUint] returns a [*NumError]
    wrapping [ErrSyntax] or [ErrRange]. *)
Inductive num_error : Type := ErrSyntax | ErrRange.

Inductive error : Type :=
| ErrZeroElements                 (* "number of elements must be positive" *)
| ErrProbability                  (* "probability must be positive" *)
| ErrNum (e : num_error).

(** ** Machine integers *)

Definition two64 : Z := 2 ^ 64.

(** Conversion [int(x)] of a [uint64] on a 64-bit platform. *)
Definition int_of_uint64 (x : Z) : Z := if x <? 2 ^ 63 then x else x - two64.

(** [x << s] on [uint64]: bits shifted past bit 63 are lost (and [s >= 64] gives 0). *)
Definition shl64 (x s : Z) : Z := Z.shiftl x s mod two64.

(** ** Go byte strings *)

Fixpoint bytes_of_string (s : String.string) : list Z :=
  match s with
  | String.EmptyString => []
  | String.String c s' => Z.of_nat (Ascii.nat_of_ascii c) :: bytes_of_string s'
  end.

(** Update of a slice element [s[i] = v]; the callers check the bounds. *)
Fixpoint list_set (s : list Z) (i : nat) (v : Z) : list Z :=
  match s, i with
  | [], _ => []
  | _ :: s', O => v :: s'
  | x :: s', S i' => x :: list_set s' i' v
  end.

(** ** crypto/sha256 (FIPS 180-4), on 32-bit words held in Z *)

Module SHA256.

Definition mask32 : Z := 2 ^ 32 - 1.
Definition add32 (x y : Z) : Z := (x + y) mod 2 ^ 32.
Definition rotr (k x : Z) : Z := Z.lor (Z.shiftr x k) (Z.land (Z.shiftl x (32 - k)) mask32).

Definition big_sigma0 (x : Z) := Z.lxor (Z.lxor (rotr 2 x) (rotr 13 x)) (rotr 22 x).
Definition big_sigma1 (x : Z) := Z.lxor (Z.lxor (rotr 6 x) (rotr 11 x)) (rotr 25 x).
Definition small_sigma0 (x : Z) := Z.lxor (Z.lxor (rotr 7 x) (rotr 18 x)) (Z.shiftr x 3).
Definition small_sigma1 (x : Z) := Z.lxor (Z.lxor (rotr 17 x) (rotr 19 x)) (Z.shiftr x 10).
Definition choose (x y z : Z) := Z.lxor (Z.land x y) (Z.land (Z.lxor x mask32) z).
Definition majority (x y z : Z) := Z.lxor (Z.lxor (Z.land x y) (Z.land x z)) (Z.land y z).

Definition round_constants : list Z :=
  [1116352408; 1899447441; 3049323471; 3921009573; 961987163; 1508970993;
   2453635748; 2870763221; 3624381080; 310598401; 607225278; 1426881987;
   1925078388; 2162078206; 2614888103; 3248222580; 3835390401; 4022224774;
   264347078; 604807628; 770255983; 1249150122; 1555081692; 1996064986;
   2554220882; 2821834349; 2952996808; 3210313671; 3336571891; 3584528711;
   113926993; 338241895; 666307205; 773529912; 1294757372; 1396182291;
   1695183700; 1986661051; 2177026350; 2456956037; 2730485921; 2820302411;
   3259730800; 3345764771; 3516065817; 3600352804; 4094571909; 275423344;
   430227734; 506948616; 659060556; 883997877; 958139571; 1322822218;
   1537002063; 1747873779; 1955562222; 2024104815; 2227730452; 2361852424;
   2428436474; 2756734187; 3204031479; 3329325298].

Definition init_state : list Z :=
  [1779033703; 3144134277; 1013904242; 2773480762; 1359893119; 2600822924;
   528734635; 1541459225].

(** Big-endian words of a block and bytes of a word. *)
Fixpoint be_value (bs : list Z) (acc : Z) : Z :=
  match bs with
  | [] => acc
  | b :: bs' => be_value bs' (acc * 256 + b)
  end.

Fixpoint be_bytes (k : nat) (x : Z) : list Z :=
  match k with
  | O => []
  | S k' => be_bytes k' (Z.shiftr x 8) ++ [Z.land x 255]
  end.

Fixpoint words_of_block (fuel : nat) (bs : list Z) : list Z :=
  match fuel with
  | O => []
  | S fuel' => be_value (firstn 4 bs) 0 :: words_of_block fuel' (skipn 4 bs)
  end.

(** Message schedule: [w] holds [W(t-16) .. W(t-1)] when [W(t)] is computed. *)
Fixpoint schedule (k : nat) (w : list Z) : list Z :=
  match k with
  | O => []
  | S k' =>
    let wt := add32 (add32 (small_sigma1 (nth 14 w 0)) (nth 9 w 0))
                    (add32 (small_sigma0 (nth 1 w 0)) (nth 0 w 0)) in
    wt :: schedule k' (tl w ++ [wt])
  end.

Definition message_schedule (blk : list Z) : list Z :=
  let w16 := words_of_block 16 blk in w16 ++ schedule 48 w16.

Definition round (st : list Z) (kw : Z * Z) : list Z :=
  match st with
  | [a; b; c; d; e; f; g; h] =>
    let t1 := add32 (add32 (add32 h (big_sigma1 e)) (add32 (choose e f g) (fst kw))) (snd kw) in
    let t2 := add32 (big_sigma0 a) (majority a b c) in
    [add32 t1 t2; a; b; c; add32 d t1; e; f; g]
  | _ => st
  end.

Definition compress (hs : list Z) (blk : list Z) : list Z :=
  let st := fold_left round (combine round_constants (message_schedule blk)) hs in
  map (fun p => add32 (fst p) (snd p)) (combine hs st).

(** Padding: [0x80], zeros up to 56 mod 64, then the bit length (big-endian). *)
Definition pad (msg : list Z) : list Z :=
  let len := Z.of_nat (length msg) in
  msg ++ [0x80] ++ repeat 0 (Z.to_nat ((55 - len) mod 64)) ++ be_bytes 8 (len * 8).

Fixpoint blocks (fuel : nat) (bs : list Z) : list (list Z) :=
  match fuel with
  | O => []
  | S fuel' =>
    match bs with
    | [] => []
    | _ => firstn 64 bs :: blocks fuel' (skipn 64 bs)
    end
  end.

(** [sha256.New()], [h.Write(b)] and [h.Sum(nil)]: the 32-byte digest of [b].
    [Write] on a SHA-256 digest never returns an error. *)
Definition sum (msg : list Z) : list Z :=
  let p := pad msg in
  let hs := fold_left compress (blocks (length p) p) init_state in
  flat_map (be_bytes 4) hs.

End SHA256.

(** ** fmt.Sprintf("%x", b) for a byte slice: two lower-case hex digits per byte *)

Definition hex_char (d : Z) : Z := if d <? 10 then 48 + d else 87 + d.

Definition sprintf_x (bs : list Z) : list Z :=
  flat_map (fun b => [hex_char (b / 16); hex_char (b mod 16)]) bs.

(** ** strconv.ParseUint(s, 16, 64)

    The package calls it with base 16 and bit size 64 only, so the base and bit size
    checks and the underscore handling of base 0 are not reached. *)

Module ParseUint.

Definition cutoff : Z := (two64 - 1) / 16 + 1.
Definition maxVal : Z := two64 - 1.

(** [lower(c) = c | ('x' - 'X')] *)
Definition lower (c : Z) : Z := Z.lor c 32.

Definition digit (c : Z) : option Z :=
  if (48 <=? c) && (c <=? 57) then Some (c - 48)
  else if (97 <=? lower c) && (lower c <=? 122) then Some (lower c - 97 + 10)
  else None.

Fixpoint loop (cs : list Z) (n : Z) : Z * option num_error :=
  match cs with
  | [] => (n, None)
  | c :: cs' =>
    match digit c with
    | None => (0, Some ErrSyntax)
    | Some d =>
      if 16 <=? d then (0, Some ErrSyntax)
      else if cutoff <=? n then (maxVal, Some ErrRange)
      else
        let n' := (n * 16) mod two64 in
        let n1 := (n' + d) mod two64 in
        if (n1 <? n') || (maxVal <? n1) then (maxVal, Some ErrRange)
        else loop cs' n1
    end
  end.

Definition parse (s : list Z) : Z * option num_error :=
  match s with
  | [] => (0, Some ErrSyntax)
  | _ => loop s 0
  end.

End ParseUint.

(** ** hash, bitpositions, bitlocation *)

(** [hash(b, bitlen)]: the first 16 characters of the hex digest, parsed as a
    base-16 [uint64], reduced [% bitlen] (a run-time panic when [bitlen] is 0). *)
Definition hash (b : list Z) (bitlen : Z) : go (Z * option error) :=
  let hexdigest := sprintf_x (SHA256.sum b) in
  if Z.of_nat (length hexdigest) <? 16 then Panic SliceOutOfRange
  else
    match ParseUint.parse (firstn 16 hexdigest) with
    | (_, Some e) => Done (0, Some (ErrNum e))
    | (i, None) => if bitlen =? 0 then Panic DivideByZero else Done (i mod bitlen, None)
    end.

(** The loop of [bitpositions] from index [i] on, [cnt] iterations left: it sets
    the trailing byte of the buffer to [i], stores [hash] in [pos[i]] and breaks
    on an error. *)
Fixpoint positions_loop (element : list Z) (bitlen : Z) (i : Z) (cnt : nat)
    (pos : list Z) : go (list Z * option error) :=
  match cnt with
  | O => Done (pos, None)
  | S cnt' =>
    match hash (element ++ [i]) bitlen with
    | Panic k => Panic k
    | Done (h, err) =>
      let pos' := list_set pos (Z.to_nat i) h in
      match err with
      | Some e => Done (pos', Some e)
      | None => positions_loop element bitlen (i + 1) cnt' pos'
      end
    end
  end.

(** [bitpositions(element, hashqty, bitlen)]: [pos := make([]uint64, hashqty)], then
    [for i := byte(0); i < hashqty; i++]. *)
Definition bitpositions (element : list Z) (hashqty bitlen : Z) : go (list Z * option error) :=
  positions_loop element bitlen 0 (Z.to_nat hashqty) (repeat 0 (Z.to_nat hashqty)).

(** [bitlocation(p uint64, bitsize byte) (int, byte)] *)
Definition bitlocation (p bitsize : Z) : Z * Z :=
  let bitsize := if bitsize =? 0 then 8 else bitsize in
  let index := p / bitsize in
  let offset := (p - (index * bitsize) mod two64) mod two64 in
  (int_of_uint64 index, offset mod 256).

(** ** float64: math.Log, math.Ceil and the conversions to integers *)

Module F64.

Local Open Scope float_scope.

(** [float64(x)] for an integer [x] with [|x| < 2^63] (round to nearest). *)
Definition of_Z (x : Z) : float :=
  if (x <? 0)%Z then - of_uint63 (Uint63.of_Z (- x)) else of_uint63 (Uint63.of_Z x).

(** Truncation toward zero of a finite float, [None] for infinities and NaN. *)
Definition trunc (x : float) : option Z :=
  match Prim2SF x with
  | S754_zero _ => Some 0%Z
  | S754_finite s m e =>
    let a := if (0 <=? e)%Z then (Z.pos m * 2 ^ e)%Z else (Z.pos m / 2 ^ (- e))%Z in
    Some (if s then (- a)%Z else a)
  | _ => None
  end.

(** CVTTSD2SI with a [bits]-bit destination: the truncated value, or the
    "integer indefinite" [-2^(bits-1)] when it is out of range or not finite. *)
Definition cvttsd2si (bits : Z) (x : float) : Z :=
  match trunc x with
  | Some z => if ((- 2 ^ (bits - 1) <=? z) && (z <? 2 ^ (bits - 1)))%Z then z
              else (- 2 ^ (bits - 1))%Z
  | None => (- 2 ^ (bits - 1))%Z
  end.

Definition two63 : float := 0x1p63.

(** [uint64(x)] as the gc compiler emits it on amd64:
    [if x < 2^63 { uintY(x) } else { uintY(x - 2^63) | 1<<63 }]. *)
Definition to_uint64 (x : float) : Z :=
  if x <? two63 then (cvttsd2si 64 x mod two64)%Z
  else Z.lor (cvttsd2si 64 (x - two63) mod two64) (2 ^ 63).

(** [byte(x)] on amd64: a conversion to int32 (CVTTSD2SL) truncated to 8 bits. *)
Definition to_uint8 (x : float) : Z := (cvttsd2si 32 x mod 256)%Z.

(** [math.Ceil]: the least integer not below [x], keeping the sign of zero;
    infinities and NaN are returned as they are. *)
Definition Ceil (x : float) : float :=
  match Prim2SF x with
  | S754_finite s m e =>
    if (0 <=? e)%Z then x
    else
      let d := (2 ^ (- e))%Z in
      let c := if s then (- (Z.pos m / d))%Z else ((Z.pos m + d - 1) / d)%Z in
      if (c =? 0)%Z then (if s then neg_zero else zero) else of_Z c
  | _ => x
  end.

(** [math.Log] (log.go, after FreeBSD's e_log.c); the constants are written with
    the bit patterns given in the Go source comments. *)
Definition Ln2Hi := 0x1.62e42feep-1.
Definition Ln2Lo := 0x1.a39ef35793c76p-33.
Definition L1 := 0x1.5555555555593p-1.
Definition L2 := 0x1.999999997fa04p-2.
Definition L3 := 0x1.2492494229359p-2.
Definition L4 := 0x1.c71c51d8e78afp-3.
Definition L5 := 0x1.7466496cb03dep-3.
Definition L6 := 0x1.39a09d078c69fp-3.
Definition L7 := 0x1.2f112df3e5244p-3.
(** The constant [Sqrt2/2] rounded to float64. *)
Definition HalfSqrt2 := 0x1.6a09e667f3bcdp-1.

Definition Log (x : float) : float :=
  if is_nan x || (x =? infinity) then x
  else if x <? 0 then nan
  else if x =? 0 then neg_infinity
  else
    let '(f1, ki) := Z.frexp x in
    let '(f1, ki) := if f1 <? HalfSqrt2 then (f1 * 2, (ki - 1)%Z) else (f1, ki) in
    let f := f1 - 1 in
    let k := of_Z ki in
    let s := f / (2 + f) in
    let s2 := s * s in
    let s4 := s2 * s2 in
    let t1 := s2 * (L1 + s4 * (L3 + s4 * (L5 + s4 * L7))) in
    let t2 := s4 * (L2 + s4 * (L4 + s4 * L6)) in
    let R := t1 + t2 in
    let hfsq := 0.5 * f * f in
    k * Ln2Hi - ((hfsq - (s * (hfsq + R) + k * Ln2Lo)) - f).

End F64.

(** ** The Filter *)

Record Filter : Type := mkFilter {
  prob : float;          (* desired probability of false positives *)
  bitlen : Z;            (* uint64: how many bits are needed to store n elements *)
  hashqty : Z;           (* byte: number of hash functions *)
  n : Z;                 (* uint32: number of elements a client intends to store *)
  bitstore : list Z      (* []uint64 bit buckets *)
}.

Definition with_bitstore (bf : Filter) (s : list Z) : Filter :=
  mkFilter bf.(prob) bf.(bitlen) bf.(hashqty) bf.(n) s.

(** [optimalBitLen(n, prob)] *)
Definition optimalBitLen (n : Z) (prob : float) : Z :=
  let ln2 := F64.Log 2 in
  let optLen := ((- F64.of_Z n) * F64.Log prob / (ln2 * ln2))%float in
  F64.to_uint64 (F64.Ceil optLen).

(** [optimalHashQty(prob)] *)
Definition optimalHashQty (prob : float) : Z :=
  let optQty := (- F64.Log prob / F64.Log 2)%float in
  F64.to_uint8 (F64.Ceil optQty).

(** [make([]uint64, k)]: on linux/amd64 [makeslice] panics when [8 * k] exceeds
    [maxAlloc = 2^48]; smaller allocations are taken to succeed. *)
Definition maxAlloc : Z := 2 ^ 48.

Definition make_uint64s (k : Z) : go (list Z) :=
  if maxAlloc <? 8 * k then Panic MakeSliceLen else Done (repeat 0 (Z.to_nat k)).

(** [buckets := bf.bitlen / 64; if bf.bitlen%64 != 0 { buckets++ }] *)
Definition buckets_of (bl : Z) : Z :=
  let buckets := bl / 64 in
  if negb (bl mod 64 =? 0) then buckets + 1 else buckets.

(** [New(n, prob)]: a filter pointer (or nil) and an error (or nil). *)
Definition New (n : Z) (prob : float) : go (option Filter * option error) :=
  if n =? 0 then Done (None, Some ErrZeroElements)
  else if (prob <=? 0)%float then Done (None, Some ErrProbability)
  else
    let hq := optimalHashQty prob in
    let bl := optimalBitLen n prob in
    match make_uint64s (buckets_of bl) with
    | Panic k => Panic k
    | Done store => Done (Some (mkFilter prob bl hq n store), None)
    end.

(** ** Methods on [*Filter]

    The receiver is the state; a panic keeps the state reached so far. *)

Definition M (A : Type) : Type := Filter -> Filter * go A.

Definition in_bounds (index : Z) (s : list Z) : bool :=
  (0 <=? index) && (index <? Z.of_nat (length s)).

(** [bf.bitstore[index] |= mask] *)
Definition or_word (index mask : Z) : M unit := fun bf =>
  if in_bounds index bf.(bitstore) then
    let w := nth (Z.to_nat index) bf.(bitstore) 0 in
    (with_bitstore bf (list_set bf.(bitstore) (Z.to_nat index) (Z.lor w mask)), Done tt)
  else (bf, Panic IndexOutOfRange).

(** [bf.bitstore[index]] as a value *)
Definition load_word (index : Z) : M Z := fun bf =>
  if in_bounds index bf.(bitstore) then (bf, Done (nth (Z.to_nat index) bf.(bitstore) 0))
  else (bf, Panic IndexOutOfRange).

(** [for _, p := range pos { index, offset := bitlocation(p, 64); mask = 1 << offset;
    bf.bitstore[index] |= mask }; return nil] *)
Fixpoint add_loop (pos : list Z) : M (option error) := fun bf =>
  match pos with
  | [] => (bf, Done None)
  | p :: ps =>
    let '(index, offset) := bitlocation p 64 in
    let mask := shl64 1 offset in
    match or_word index mask bf with
    | (bf', Panic k) => (bf', Panic k)
    | (bf', Done _) => add_loop ps bf'
    end
  end.

(** [Add(element) error] *)
Definition Add (element : list Z) : M (option error) := fun bf =>
  match bitpositions element bf.(hashqty) bf.(bitlen) with
  | Panic k => (bf, Panic k)
  | Done (_, Some err) => (bf, Done (Some err))
  | Done (pos, None) => add_loop pos bf
  end.

(** [for _, p := range pos { ...; if (bf.bitstore[index] & mask) == 0 { return false, nil } };
    return true, nil] *)
Fixpoint has_loop (pos : list Z) : M (bool * option error) := fun bf =>
  match pos with
  | [] => (bf, Done (true, None))
  | p :: ps =>
    let '(index, offset) := bitlocation p 64 in
    let mask := shl64 1 offset in
    match load_word index bf with
    | (bf', Panic k) => (bf', Panic k)
    | (bf', Done w) => if Z.land w mask =? 0 then (bf', Done (false, None)) else has_loop ps bf'
    end
  end.

(** [Has(element) (bool, error)] *)
Definition Has (element : list Z) : M (bool * option error) := fun bf =>
  match bitpositions element bf.(hashqty) bf.(bitlen) with
  | Panic k => (bf, Panic k)
  | Done (_, Some err) => (bf, Done (false, Some err))
  | Done (pos, None) => has_loop pos bf
  end.

(** A client calling [bf.Add(e)] for each [e] of [es] in turn (the returned errors
    do not stop it; a panic does). *)
Fixpoint run_adds (es : list (list Z)) : M unit := fun bf =>
  match es with
  | [] => (bf, Done tt)
  | e :: es' =>
    match Add e bf with
    | (bf', Panic k) => (bf', Panic k)
    | (bf', Done _) => run_adds es' bf'
    end
  end.

(** Outcome of [MustAdd] and [MustHave]: a return, a run-time panic of [Add] or
    [Has], or the [panic(err)] of the method itself. *)
Inductive must (A : Type) : Type :=
| Returned (a : A)
| RuntimePanic (k : panic_kind)
| ErrorPanic (e : error).
Arguments Returned {A} a.
Arguments RuntimePanic {A} k.
Arguments ErrorPanic {A} e.

(** [(bf *Filter) MustAdd(element []byte)] *)
Definition MustAdd (element : list Z) : Filter -> Filter * must unit := fun bf =>
  match Add element bf with
  | (bf', Panic k) => (bf', RuntimePanic k)
  | (bf', Done (Some err)) => (bf', ErrorPanic err)
  | (bf', Done None) => (bf', Returned tt)
  end.

(** [(bf *Filter) MustHave(element []byte) bool] *)
Definition MustHave (element : list Z) : Filter -> Filter * must bool := fun bf =>
  match Has element bf with
  | (bf', Panic k) => (bf', RuntimePanic k)
  | (bf', Done (_, Some err)) => (bf', ErrorPanic err)
  | (bf', Done (isIn, None)) => (bf', Returned isIn)
  end.

(** ** Reading of the specification

    The definitions below follow the words of the specification, to be compared
    with the embedding above. *)

(** The value of a lower-case hex digit and of a string of them, read base 16. *)
Definition spec_hex_digit (c : Z) : Z := if c <=? 57 then c - 48 else c - 87.

Definition spec_hex_value (cs : list Z) : Z :=
  fold_left (fun acc c => acc * 16 + spec_hex_digit c) cs 0.

(** Position [i] of an element: the element followed by the byte [i], hashed with
    SHA-256, the first 16 hex characters of the digest read base 16, mod [m]. *)
Definition spec_position (element : list Z) (m i : Z) : Z :=
  spec_hex_value (firstn 16 (sprintf_x (SHA256.sum (element ++ [i])))) mod m.

Definition spec_positions (element : list Z) (k m : Z) : list Z :=
  map (fun i => spec_position element m (Z.of_nat i)) (seq 0 (Z.to_nat k)).

(** Bit [p] of the flat bit array held in 64-bit words, [None] past its end. *)
Definition bit_at (store : list Z) (p : Z) : option bool :=
  if (0 <=? p) && (p / 64 <? Z.of_nat (length store))
  then Some (Z.testbit (nth (Z.to_nat (p / 64)) store 0) (p mod 64))
  else None.

(** Every 1-bit of [s1] is a 1-bit of [s2], and the word count is the same. *)
Definition bits_subset (s1 s2 : list Z) : Prop :=
  length s1 = length s2 /\
  forall i b, Z.testbit (nth i s1 0) b = true -> Z.testbit (nth i s2 0) b = true.

(** A [uint64] bit array word. *)
Definition is_word (w : Z) : Prop := 0 <= w < two64.

(** A character produced by [%x]. *)
Definition hex_digit_char (c : Z) : Prop := exists d, 0 <= d < 16 /\ c = hex_char d.

(** The bitstore after [Add] sets position [p] (word [p / 64], bit [p mod 64]). *)
Definition set_bit (store : list Z) (p : Z) : list Z :=
  list_set store (Z.to_nat (p / 64)) (Z.lor (nth (Z.to_nat (p / 64)) store 0) (2 ^ (p mod 64))).

(** The ranges of the Go field types: [bitlen uint64], [hashqty byte]. *)
Definition filter_wf (bf : Filter) : Prop :=
  0 <= bf.(bitlen) < two64 /\ 0 <= bf.(hashqty) < 256.

(** The shape of a filter returned by [New]. *)
Definition new_filter_ok (f : Filter) : Prop :=
  0 <= f.(bitlen) < two64 /\ 0 <= f.(hashqty) < 256 /\
  Z.of_nat (length f.(bitstore)) = buckets_of f.(bitlen).

(** ** Inputs of the package's tests and examples *)

(** The float64 nearest to [0.01]. *)
Definition prob_001 : float := 0x1.47ae147ae147bp-7.

(** [2^-29], a probability whose exact [-log2] is the integer 29. *)
Definition pow2_m29 : float := 0x1p-29.

Local Open Scope string_scope.
Definition s_test : list Z := bytes_of_string "test".
Definition s_bob : list Z := bytes_of_string "bob@example.com".
Local Close Scope string_scope.

(** ** fuzz.go *)

(** The float64 nearest to [0.0001]. *)
Definition prob_00001 : float := 0x1.a36e2eb1c432dp-14.

(** Outcome of [Fuzz]: its result, a run-time panic, or the nil dereference of
    [bf.Add] when [New] returns a nil filter. *)
Inductive fuzz_outcome : Type :=
| FuzzReturn (r : Z)
| FuzzPanic (k : panic_kind)
| FuzzNilDeref.

(** [Fuzz(data []byte) int]: [bf, _ := New(4294967295, 0.0001)], then [bf.Add(data)]. *)
Definition Fuzz (data : list Z) : fuzz_outcome :=
  match New 4294967295 prob_00001 with
  | Panic k => FuzzPanic k
  | Done (None, _) => FuzzNilDeref
  | Done (Some bf, _) =>
    match Add data bf with
    | (_, Panic k) => FuzzPanic k
    | (_, Done (Some _)) => FuzzReturn 0
    | (_, Done None) => FuzzReturn 1
    end
  end.

(** The bitstore after setting the positions [ps] one after another. *)
Definition set_bits (store : list Z) (ps : list Z) : list Z := fold_left set_bit ps store.

(** ** Readings of the specification's sentences *)

(** The constructor contract as the specification words it, for [n : uint32]. *)
Definition C2_claim : Prop :=
  forall (n : Z) (prob : float), 0 <= n < 2 ^ 32 ->
    (n = 0 -> New n prob = Done (None, Some ErrZeroElements)) /\
    (0 < n -> (prob <=? 0)%float = true -> New n prob = Done (None, Some ErrProbability)) /\
    (0 < n -> (0 <? prob)%float = true -> exists f, New n prob = Done (Some f, None)).

(** The real number denoted by a finite float64 (0 for infinities and NaN). *)
Definition float_to_R (x : float) : R :=
  match Prim2SF x with
  | S754_finite s m e => ((if s then (-1) else 1) * IZR (Zpos m) * powerRZ 2 e)%R
  | _ => 0%R
  end.

(** [q] is the least integer not below the real [r]. *)
Definition real_ceil_is (q : Z) (r : R) : Prop := (IZR q - 1 < r <= IZR q)%R.

(** The sizing formulas read over the reals. *)
Definition C7_claim : Prop :=
  (forall (n : Z) (prob : float), 0 <= n < 2 ^ 32 -> (0 < float_to_R prob < 1)%R ->
     real_ceil_is (optimalBitLen n prob)
       (- IZR n * ln (float_to_R prob) / (ln 2 * ln 2))) /\
  (forall prob : float, (0 < float_to_R prob < 1)%R ->
     real_ceil_is (optimalHashQty prob) (- ln (float_to_R prob) / ln 2)).

(** Bit addressing as the specification words it, for [p : uint64] and [w : byte]. *)
Definition C8_claim : Prop :=
  forall p w : Z, 0 <= p < two64 -> 0 <= w < 256 ->
    let w' := if w =? 0 then 8 else w in
    bitlocation p w = (p / w', p - p / w' * w').

(** Positive bit length of every filter [New] returns. *)
Definition C9_claim : Prop :=
  forall (n : Z) (prob : float) (f : Filter),
    New n prob = Done (Some f, None) -> 0 < f.(bitlen).

(** A lower-case hex digit, a character [%x] produces: ['0'-'9'] or ['a'-'f']. *)
Definition is_hex_lower (c : Z) : bool :=
  ((48 <=? c) && (c <=? 57)) || ((97 <=? c) && (c <=? 102)).

(** ** Real values and accuracy of float64 results *)

(** [2^e] over the reals. *)
Definition bpow (e : Z) : R := powerRZ 2 e.

(** The real value of a [spec_float] (0 for infinities and NaN). *)
Definition sf_to_R (x : spec_float) : R :=
  match x with
  | S754_finite s m e => ((if s then (-1) else 1) * IZR (Zpos m) * bpow e)%R
  | _ => 0%R
  end.

(** The error allowance of one rounding: [max(V * 2^-52, 2^-1074)]. *)
Definition Eb (V : R) : R := Rmax (V * bpow (-52)) (bpow (-1074)).

(** What the result of a rounding may be, for a nonnegative real [V]. *)
Definition rnd_ok (sx : bool) (r : spec_float) (V : R) : Prop :=
  match r with
  | S754_zero s => s = sx /\ (V <= 2 * Eb V)%R
  | S754_finite s m e => s = sx /\ (Rabs (IZR (Zpos m) * bpow e - V) <= 2 * Eb V)%R
  | _ => False
  end.

(** Zeros and finite numbers. *)
Definition sf_fin (x : spec_float) : Prop :=
  match x with S754_zero _ | S754_finite _ _ _ => True | _ => False end.

(** Relative and absolute error bounds of one operation. *)
Definition eps : R := bpow (-51).

Definition eta : R := bpow (-1073).

(** [r] is a finite result within [eps * |X| + eta] of the exact value [X],
    with the sign of [X]. *)
Definition sf_good (r : spec_float) (X : R) : Prop :=
  sf_fin r /\ (Rabs (sf_to_R r - X) <= eps * Rabs X + eta)%R /\
  ((0 <= X)%R -> (0 <= sf_to_R r)%R) /\ ((X <= 0)%R -> (sf_to_R r <= 0)%R).

(** The same notions on primitive floats. *)
Definition fv (x : float) : R := sf_to_R (Prim2SF x).

Definition ffin (x : float) : Prop := sf_fin (Prim2SF x).

Definition fgood (r : float) (X : R) : Prop := sf_good (Prim2SF r) X.

(** [x] is finite with value in [[lo, hi]]. *)
Definition iv (x : float) (lo hi : R) : Prop := ffin x /\ (lo <= fv x <= hi)%R.

(** The margin an interval step keeps for the rounding of its result. *)
Definition slack : R := / 100000000000.

(** The four corner values of [op] on [[la, ha] x [lb, hb]] lie in
    [[lo + slack, hi - slack]], a range within [[-1000, 1000]]. *)
Definition corners (op : R -> R -> R) (la ha lb hb lo hi : R) : Prop :=
  (lo + slack <= op la lb <= hi - slack /\ lo + slack <= op la hb <= hi - slack /\
   lo + slack <= op ha lb <= hi - slack /\ lo + slack <= op ha hb <= hi - slack /\
   -1000 <= lo /\ hi <= 1000)%R.

(** The body of [F64.Log] after its argument reduction, for the reduced
    fraction [f1] and [k = float64(ki)]. *)
Definition Log_tail (f1 k : float) : float :=
  let f := (f1 - 1)%float in
  let s := (f / (2 + f))%float in
  let s2 := (s * s)%float in
  let s4 := (s2 * s2)%float in
  let t1 := (s2 * (F64.L1 + s4 * (F64.L3 + s4 * (F64.L5 + s4 * F64.L7))))%float in
  let t2 := (s4 * (F64.L2 + s4 * (F64.L4 + s4 * F64.L6)))%float in
  let R := (t1 + t2)%float in
  let hfsq := (0.5 * f * f)%float in
  (k * F64.Ln2Hi - ((hfsq - (s * (hfsq + R) + k * F64.Ln2Lo)) - f))%float.

(** * Properties *)

(** ** Bit addressing *)

Lemma bitlocation_eq (p w : Z) :
  0 <= p < two64 -> 0 <= w < 256 ->
  p / (if w =? 0 then 8 else w) < 2 ^ 63 ->
  bitlocation p w = (p / (if w =? 0 then 8 else w),
                     p - p / (if w =? 0 then 8 else w) * (if w =? 0 then 8 else w)).
Proof.
  intros Hp Hw Hi. unfold bitlocation, int_of_uint64.
  set (w' := if w =? 0 then 8 else w) in *.
  assert (Hw' : 0 < w' < 256) by (subst w'; destruct (Z.eqb_spec w 0); lia).
  assert (Hq : 0 <= p / w' * w' <= p).
  { split; [apply Z.mul_nonneg_nonneg; [apply Z.div_pos|]; lia|].
    rewrite Z.mul_comm. apply Z.mul_div_le. lia. }
  assert (Hr : p - p / w' * w' < w').
  { pose proof (Z.mod_pos_bound p w'). rewrite Z.mod_eq in H by lia. lia. }
  rewrite (Z.mod_small (p / w' * w')) by (unfold two64 in *; lia).
  rewrite (Z.mod_small (p - p / w' * w')) by (unfold two64 in *; lia).
  rewrite (Z.mod_small (p - p / w' * w')) by lia.
  destruct (Z.ltb_spec (p / w') (2 ^ 63)); [reflexivity | lia].
Qed.

Lemma bitlocation_64 (p : Z) :
  0 <= p < two64 -> bitlocation p 64 = (p / 64, p mod 64).
Proof.
  intros Hp. rewrite bitlocation_eq by (unfold two64 in *; simpl; try lia;
    apply Z.div_lt_upper_bound; lia).
  simpl. f_equal. rewrite Z.mod_eq by lia. lia.
Qed.

Lemma shl64_1 (o : Z) : 0 <= o < 64 -> shl64 1 o = 2 ^ o.
Proof.
  intros Ho. unfold shl64, two64. rewrite Z.shiftl_1_l.
  apply Z.mod_small. split; [apply Z.pow_nonneg; lia|]. apply Z.pow_lt_mono_r; lia.
Qed.

(** ** SHA-256 digests, their hex encoding and ParseUint *)

Lemma be_bytes_length (k : nat) (x : Z) : length (SHA256.be_bytes k x) = k.
Proof.
  revert x; induction k as [|k IH]; intros x; simpl; [reflexivity|].
  rewrite length_app, IH. simpl. lia.
Qed.

Lemma be_bytes_range (k : nat) (x : Z) : Forall (fun b => 0 <= b < 256) (SHA256.be_bytes k x).
Proof.
  revert x; induction k as [|k IH]; intros x; simpl; [constructor|].
  apply Forall_app; split; [apply IH|]. constructor; [|constructor].
  change 255 with (Z.ones 8). rewrite Z.land_ones by lia.
  apply Z.mod_pos_bound. lia.
Qed.

Lemma round_length (st : list Z) (kw : Z * Z) : length (SHA256.round st kw) = length st.
Proof.
  unfold SHA256.round.
  destruct st as [|a [|b [|c [|d [|e [|f [|g [|h [|x st]]]]]]]]]; reflexivity.
Qed.

Lemma compress_length (hs blk : list Z) :
  length hs = 8%nat -> length (SHA256.compress hs blk) = 8%nat.
Proof.
  intros H. unfold SHA256.compress. rewrite length_map, length_combine.
  assert (Hst : forall l st, length st = 8%nat -> length (fold_left SHA256.round l st) = 8%nat).
  { induction l as [|kw l IH]; intros st Hl; simpl; [exact Hl|].
    apply IH. rewrite round_length. exact Hl. }
  rewrite Hst by exact H. rewrite H. reflexivity.
Qed.

Lemma sum_length (msg : list Z) : length (SHA256.sum msg) = 32%nat.
Proof.
  unfold SHA256.sum.
  assert (Hf : forall bl hs, length hs = 8%nat -> length (fold_left SHA256.compress bl hs) = 8%nat).
  { induction bl as [|b bl IH]; intros hs Hl; simpl; [exact Hl|].
    apply IH, compress_length, Hl. }
  generalize (Hf (SHA256.blocks (length (SHA256.pad msg)) (SHA256.pad msg))
                 SHA256.init_state eq_refl).
  generalize (fold_left SHA256.compress (SHA256.blocks (length (SHA256.pad msg)) (SHA256.pad msg))
                 SHA256.init_state).
  intros hs Hl.
  assert (Hfm : forall l : list Z, length (flat_map (SHA256.be_bytes 4) l) = (4 * length l)%nat).
  { induction l as [|x l IH]; cbn [flat_map]; [reflexivity|].
    rewrite length_app, be_bytes_length, IH. cbn [length]. lia. }
  rewrite Hfm, Hl. reflexivity.
Qed.

Lemma sum_range (msg : list Z) : Forall (fun b => 0 <= b < 256) (SHA256.sum msg).
Proof.
  unfold SHA256.sum. generalize (fold_left SHA256.compress
    (SHA256.blocks (length (SHA256.pad msg)) (SHA256.pad msg)) SHA256.init_state).
  induction l as [|x l IH]; cbn [flat_map]; [constructor|].
  apply Forall_app; split; [apply be_bytes_range | exact IH].
Qed.

Lemma sprintf_x_length (bs : list Z) : length (sprintf_x bs) = (2 * length bs)%nat.
Proof. induction bs as [|b bs IH]; simpl; [reflexivity|]. rewrite IH. lia. Qed.

Lemma sprintf_x_chars (bs : list Z) :
  Forall (fun b => 0 <= b < 256) bs -> Forall hex_digit_char (sprintf_x bs).
Proof.
  induction 1 as [|b bs Hb _ IH]; simpl; [constructor|].
  constructor; [exists (b / 16); split; [split; [apply Z.div_pos|apply Z.div_lt_upper_bound]; lia|reflexivity]|].
  constructor; [exists (b mod 16); split; [apply Z.mod_pos_bound; lia|reflexivity]|].
  exact IH.
Qed.

Lemma digit_hex_char (d : Z) :
  0 <= d < 16 -> ParseUint.digit (hex_char d) = Some d /\ spec_hex_digit (hex_char d) = d.
Proof.
  intros Hd.
  assert (d = 0 \/ d = 1 \/ d = 2 \/ d = 3 \/ d = 4 \/ d = 5 \/ d = 6 \/ d = 7 \/
          d = 8 \/ d = 9 \/ d = 10 \/ d = 11 \/ d = 12 \/ d = 13 \/ d = 14 \/ d = 15) as Hc by lia.
  repeat destruct Hc as [Hc|Hc]; subst d; split; reflexivity.
Qed.

Lemma parse_loop_hex (cs : list Z) (acc : Z) :
  Forall hex_digit_char cs -> 0 <= acc ->
  (acc + 1) * 16 ^ Z.of_nat (length cs) <= two64 ->
  ParseUint.loop cs acc = (fold_left (fun a c => a * 16 + spec_hex_digit c) cs acc, None).
Proof.
  intros Hcs. revert acc. induction Hcs as [|c cs [d [Hd ->]] _ IH]; intros acc Ha Hb.
  - reflexivity.
  - simpl. destruct (digit_hex_char d Hd) as [Hdig Hspec]. rewrite Hdig, Hspec.
    simpl length in Hb. rewrite Nat2Z.inj_succ, Z.pow_succ_r in Hb by lia.
    assert (Hp : 0 < 16 ^ Z.of_nat (length cs)) by (apply Z.pow_pos_nonneg; lia).
    assert (Hacc : (acc + 1) * 16 <= two64) by nia.
    unfold two64 in *.
    destruct (Z.leb_spec 16 d); [lia|].
    destruct (Z.leb_spec ParseUint.cutoff acc) as [Hc|_];
      [unfold ParseUint.cutoff, two64 in Hc; simpl in Hc; lia|].
    rewrite (Z.mod_small (acc * 16)) by lia.
    rewrite (Z.mod_small (acc * 16 + d)) by lia.
    destruct (Z.ltb_spec (acc * 16 + d) (acc * 16)); [lia|].
    destruct (Z.ltb_spec ParseUint.maxVal (acc * 16 + d)) as [Hm|_];
      [unfold ParseUint.maxVal, two64 in Hm; lia|].
    simpl. apply IH; [lia|]. unfold two64. nia.
Qed.

Lemma Forall_firstn_Z (P : Z -> Prop) (k : nat) (l : list Z) :
  Forall P l -> Forall P (firstn k l).
Proof.
  intros H. revert k. induction H as [|x l Hx _ IH]; intros [|k]; simpl;
    try constructor; auto.
Qed.

Lemma hash_eq (b : list Z) (m : Z) :
  hash b m = if m =? 0 then Panic DivideByZero
             else Done (spec_hex_value (firstn 16 (sprintf_x (SHA256.sum b))) mod m, None).
Proof.
  unfold hash.
  rewrite sprintf_x_length, sum_length. simpl (Z.of_nat _ <? 16). cbv iota.
  assert (Hch : Forall hex_digit_char (firstn 16 (sprintf_x (SHA256.sum b))))
    by (apply Forall_firstn_Z, sprintf_x_chars, sum_range).
  assert (Hlen : length (firstn 16 (sprintf_x (SHA256.sum b))) = 16%nat)
    by (rewrite length_firstn, sprintf_x_length, sum_length; reflexivity).
  unfold ParseUint.parse.
  destruct (firstn 16 (sprintf_x (SHA256.sum b))) as [|c cs] eqn:Hf; [discriminate|].
  rewrite <- Hf in *.
  rewrite parse_loop_hex; [| exact Hch | lia | rewrite Hlen; reflexivity].
  reflexivity.
Qed.

Lemma hash_spec (b : list Z) (m : Z) :
  0 < m ->
  hash b m = Done (spec_hex_value (firstn 16 (sprintf_x (SHA256.sum b))) mod m, None).
Proof.
  intros Hm. rewrite hash_eq. destruct (Z.eqb_spec m 0); [lia|]. reflexivity.
Qed.

(** ** Derived positions *)

Lemma list_set_middle (l1 l2 : list Z) (x v : Z) :
  list_set (l1 ++ x :: l2) (length l1) v = l1 ++ v :: l2.
Proof. induction l1 as [|y l1 IH]; simpl; [reflexivity|]. rewrite IH. reflexivity. Qed.

Lemma hash_position (element : list Z) (m i : Z) :
  0 < m -> hash (element ++ [i]) m = Done (spec_position element m i, None).
Proof. intros Hm. rewrite hash_spec by exact Hm. reflexivity. Qed.

Lemma positions_loop_spec (element : list Z) (m : Z) (cnt i : nat) :
  0 < m ->
  positions_loop element m (Z.of_nat i) cnt
    (map (fun j => spec_position element m (Z.of_nat j)) (seq 0 i) ++ repeat 0 cnt)
  = Done (map (fun j => spec_position element m (Z.of_nat j)) (seq 0 (i + cnt)), None).
Proof.
  intros Hm. revert i. induction cnt as [|cnt IH]; intros i.
  - simpl. rewrite app_nil_r, Nat.add_0_r. reflexivity.
  - cbn [positions_loop]. rewrite hash_position by exact Hm. cbv beta iota.
    rewrite Nat2Z.id. cbn [repeat].
    set (f := fun j => spec_position element m (Z.of_nat j)).
    assert (Hl : Z.to_nat (Z.of_nat i) = length (map f (seq 0 i)))
      by (rewrite Nat2Z.id, length_map, length_seq; reflexivity).
    rewrite <- (Nat2Z.id i) at 3. rewrite Hl, list_set_middle.
    replace (Z.of_nat i + 1) with (Z.of_nat (S i)) by lia.
    replace (map f (seq 0 i) ++ spec_position element m (Z.of_nat i) :: repeat 0 cnt)
      with (map f (seq 0 (S i)) ++ repeat 0 cnt).
    + rewrite IH. replace (S i + cnt)%nat with (i + S cnt)%nat by lia. reflexivity.
    + rewrite seq_S, map_app, <- app_assoc. reflexivity.
Qed.

Lemma bitpositions_pos (element : list Z) (k m : Z) :
  0 < m ->
  bitpositions element k m = Done (spec_positions element k m, None).
Proof.
  intros Hm. unfold bitpositions, spec_positions.
  pose proof (positions_loop_spec element m (Z.to_nat k) 0 Hm) as H.
  simpl in H. exact H.
Qed.

Lemma spec_positions_length (element : list Z) (k m : Z) :
  length (spec_positions element k m) = Z.to_nat k.
Proof. unfold spec_positions. rewrite length_map, length_seq. reflexivity. Qed.

Lemma spec_positions_range (element : list Z) (k m : Z) :
  0 < m -> Forall (fun p => 0 <= p < m) (spec_positions element k m).
Proof.
  intros Hm. unfold spec_positions. apply Forall_forall. intros p Hp.
  apply in_map_iff in Hp. destruct Hp as [j [<- _]].
  unfold spec_position. apply Z.mod_pos_bound. exact Hm.
Qed.

Lemma bitpositions_zero (element : list Z) (k : Z) :
  bitpositions element k 0 = Panic DivideByZero \/
  bitpositions element k 0 = Done (spec_positions element k 0, None).
Proof.
  unfold bitpositions, spec_positions. destruct (Z.to_nat k) as [|k'].
  - right. reflexivity.
  - left. cbn [positions_loop]. rewrite hash_eq. reflexivity.
Qed.

(** For a non-negative [bitlen], [bitpositions] either panics (on a zero [bitlen]) or
    returns the positions of the specification, all below [bitlen]. *)
Lemma bitpositions_cases (element : list Z) (k m : Z) :
  0 <= m ->
  bitpositions element k m = Panic DivideByZero \/
  (bitpositions element k m = Done (spec_positions element k m, None) /\
   Forall (fun p => 0 <= p < m) (spec_positions element k m)).
Proof.
  intros Hm. destruct (Z.eq_dec m 0) as [->|Hm0].
  - unfold bitpositions, spec_positions. destruct (Z.to_nat k) as [|k'].
    + right. split; [reflexivity | constructor].
    + left. cbn [positions_loop]. rewrite hash_eq. reflexivity.
  - right. split; [apply bitpositions_pos; lia | apply spec_positions_range; lia].
Qed.

(** ** Words of the bitstore *)

Lemma list_set_length (s : list Z) (i : nat) (v : Z) : length (list_set s i v) = length s.
Proof. revert i; induction s as [|x s IH]; intros [|i]; simpl; auto. Qed.

Lemma nth_list_set_same (s : list Z) (i : nat) (v : Z) :
  (i < length s)%nat -> nth i (list_set s i v) 0 = v.
Proof.
  revert i; induction s as [|x s IH]; intros [|i] Hi; simpl in *; try lia; auto.
  apply IH. lia.
Qed.

Lemma nth_list_set_other (s : list Z) (i j : nat) (v : Z) :
  i <> j -> nth i (list_set s j v) 0 = nth i s 0.
Proof.
  revert i j; induction s as [|x s IH]; intros [|i] [|j] Hij; simpl; auto; try lia.
  all: apply IH; lia.
Qed.

Lemma list_set_beyond (s : list Z) (i : nat) (v : Z) :
  (length s <= i)%nat -> list_set s i v = s.
Proof.
  revert i; induction s as [|x s IH]; intros [|i] Hi; simpl in *; auto; try lia.
  rewrite IH; [reflexivity | lia].
Qed.

Lemma list_set_nth (s : list Z) (i : nat) : list_set s i (nth i s 0) = s.
Proof. revert i; induction s as [|x s IH]; intros [|i]; simpl; auto. rewrite IH. reflexivity. Qed.

Lemma land_pow2 (w k : Z) :
  0 <= k -> Z.land w (2 ^ k) = if Z.testbit w k then 2 ^ k else 0.
Proof.
  intros Hk. apply Z.bits_inj'. intros j Hj.
  rewrite Z.land_spec, Z.pow2_bits_eqb by exact Hk.
  destruct (Z.eqb_spec k j) as [<-|Hkj].
  - destruct (Z.testbit w k); [rewrite Z.pow2_bits_true by lia; reflexivity|].
    rewrite Z.bits_0. reflexivity.
  - rewrite andb_false_r. destruct (Z.testbit w k); [|rewrite Z.bits_0; reflexivity].
    rewrite Z.pow2_bits_false by lia. reflexivity.
Qed.

Lemma land_pow2_zero (w k : Z) :
  0 <= k -> (Z.land w (2 ^ k) =? 0) = negb (Z.testbit w k).
Proof.
  intros Hk. rewrite land_pow2 by exact Hk.
  destruct (Z.testbit w k); [|reflexivity].
  pose proof (Z.pow_pos_nonneg 2 k ltac:(lia) Hk). destruct (Z.eqb_spec (2 ^ k) 0); [lia|reflexivity].
Qed.

Lemma lor_pow2_bits (w k j : Z) :
  0 <= k -> 0 <= j -> Z.testbit (Z.lor w (2 ^ k)) j = Z.testbit w j || (k =? j).
Proof. intros Hk Hj. rewrite Z.lor_spec, Z.pow2_bits_eqb by exact Hk. reflexivity. Qed.

Lemma bit_at_in (s : list Z) (p : Z) :
  0 <= p ->
  bit_at s p = if in_bounds (p / 64) s
               then Some (Z.testbit (nth (Z.to_nat (p / 64)) s 0) (p mod 64)) else None.
Proof.
  intros Hp. unfold bit_at, in_bounds.
  assert (0 <= p / 64) by (apply Z.div_pos; lia).
  destruct (Z.leb_spec 0 p); [|lia]. destruct (Z.leb_spec 0 (p / 64)); [|lia]. reflexivity.
Qed.

Lemma bits_subset_refl (s : list Z) : bits_subset s s.
Proof. split; auto. Qed.

Lemma bits_subset_trans (s1 s2 s3 : list Z) :
  bits_subset s1 s2 -> bits_subset s2 s3 -> bits_subset s1 s3.
Proof. intros [L1 H1] [L2 H2]. split; [congruence | auto]. Qed.

Lemma bits_subset_bit_at (s1 s2 : list Z) (q : Z) :
  bits_subset s1 s2 -> bit_at s1 q = Some true -> bit_at s2 q = Some true.
Proof.
  intros [L H]. unfold bit_at. rewrite L.
  destruct (_ && _); [|discriminate]. intros E; injection E as E. rewrite (H _ _ E). reflexivity.
Qed.

Lemma set_bit_subset (s : list Z) (p : Z) : bits_subset s (set_bit s p).
Proof.
  unfold set_bit. split; [rewrite list_set_length; reflexivity|].
  intros i b Hb. set (j := Z.to_nat (p / 64)).
  destruct (Nat.eq_dec i j) as [->|Hij].
  - destruct (Nat.lt_ge_cases j (length s)) as [Hj|Hj].
    + rewrite nth_list_set_same by exact Hj.
      destruct (Z.lt_ge_cases b 0) as [Hb0|Hb0]; [rewrite Z.testbit_neg_r in Hb; [discriminate|lia]|].
      rewrite lor_pow2_bits by (try apply Z.mod_pos_bound; lia). rewrite Hb. reflexivity.
    + rewrite list_set_beyond by exact Hj. exact Hb.
  - rewrite nth_list_set_other by exact Hij. exact Hb.
Qed.

Lemma set_bit_set (s : list Z) (p : Z) :
  bit_at s p <> None -> bit_at (set_bit s p) p = Some true.
Proof.
  unfold bit_at, set_bit. rewrite list_set_length.
  destruct ((0 <=? p) && (p / 64 <? Z.of_nat (length s))) eqn:E; [|congruence].
  intros _. apply andb_prop in E as [E1 E2]. apply Z.leb_le in E1. apply Z.ltb_lt in E2.
  assert (0 <= p / 64) by (apply Z.div_pos; lia).
  rewrite nth_list_set_same by (apply Nat2Z.inj_lt; rewrite Z2Nat.id; lia).
  rewrite lor_pow2_bits by (apply Z.mod_pos_bound; lia). rewrite Z.eqb_refl, orb_true_r.
  reflexivity.
Qed.

Lemma set_bit_already (s : list Z) (p : Z) :
  bit_at s p = Some true -> set_bit s p = s.
Proof.
  unfold bit_at, set_bit.
  destruct ((0 <=? p) && (p / 64 <? Z.of_nat (length s))) eqn:E; [|discriminate].
  intros H; injection H as H. apply andb_prop in E as [E1 E2].
  apply Z.leb_le in E1. apply Z.ltb_lt in E2.
  assert (0 <= p mod 64 < 64) by (apply Z.mod_pos_bound; lia).
  replace (Z.lor (nth (Z.to_nat (p / 64)) s 0) (2 ^ (p mod 64)))
    with (nth (Z.to_nat (p / 64)) s 0); [apply list_set_nth|].
  apply Z.bits_inj'. intros j Hj. rewrite lor_pow2_bits by lia.
  destruct (Z.eqb_spec (p mod 64) j) as [<-|_]; [rewrite H; reflexivity | rewrite orb_false_r; reflexivity].
Qed.

(** ** The loops of [Add] and [Has] *)

Lemma with_bitstore_same (bf : Filter) : with_bitstore bf bf.(bitstore) = bf.
Proof. destruct bf; reflexivity. Qed.

Lemma add_loop_cons (p : Z) (ps : list Z) (bf : Filter) :
  0 <= p < two64 ->
  add_loop (p :: ps) bf =
    match bit_at bf.(bitstore) p with
    | None => (bf, Panic IndexOutOfRange)
    | Some _ => add_loop ps (with_bitstore bf (set_bit bf.(bitstore) p))
    end.
Proof.
  intros Hp. cbn [add_loop]. rewrite bitlocation_64 by exact Hp.
  rewrite shl64_1 by (apply Z.mod_pos_bound; lia).
  unfold or_word. rewrite bit_at_in by lia. unfold set_bit.
  destruct (in_bounds (p / 64) (bitstore bf)); reflexivity.
Qed.

Lemma has_loop_cons (p : Z) (ps : list Z) (bf : Filter) :
  0 <= p < two64 ->
  has_loop (p :: ps) bf =
    match bit_at bf.(bitstore) p with
    | None => (bf, Panic IndexOutOfRange)
    | Some false => (bf, Done (false, None))
    | Some true => has_loop ps bf
    end.
Proof.
  intros Hp. cbn [has_loop]. rewrite bitlocation_64 by exact Hp.
  assert (Ho : 0 <= p mod 64 < 64) by (apply Z.mod_pos_bound; lia).
  rewrite shl64_1 by exact Ho.
  unfold load_word. rewrite bit_at_in by lia.
  destruct (in_bounds (p / 64) (bitstore bf)); [|reflexivity].
  rewrite land_pow2_zero by lia.
  destruct (Z.testbit _ _); reflexivity.
Qed.

Lemma add_loop_shape (ps : list Z) (bf : Filter) :
  exists s, fst (add_loop ps bf) = with_bitstore bf s.
Proof.
  revert bf; induction ps as [|p ps IH]; intros bf; cbn [add_loop].
  - exists bf.(bitstore). rewrite with_bitstore_same. reflexivity.
  - destruct (bitlocation p 64) as [index offset]. unfold or_word.
    destruct (in_bounds index (bitstore bf)).
    + destruct (IH (with_bitstore bf (list_set (bitstore bf) (Z.to_nat index)
          (Z.lor (nth (Z.to_nat index) (bitstore bf) 0) (shl64 1 offset))))) as [s Hs].
      destruct (add_loop ps _) as [bf' r] eqn:E. simpl in Hs |- *.
      destruct r; simpl; exists s; exact Hs.
    + exists bf.(bitstore). rewrite with_bitstore_same. reflexivity.
Qed.

Lemma add_loop_subset (ps : list Z) (bf : Filter) :
  Forall (fun p => 0 <= p < two64) ps ->
  bits_subset bf.(bitstore) (fst (add_loop ps bf)).(bitstore).
Proof.
  intros Hps. revert bf; induction Hps as [|p ps Hp _ IH]; intros bf.
  - apply bits_subset_refl.
  - rewrite add_loop_cons by exact Hp.
    destruct (bit_at (bitstore bf) p); [|apply bits_subset_refl].
    eapply bits_subset_trans;
      [apply (set_bit_subset _ p) | exact (IH (with_bitstore bf (set_bit (bitstore bf) p)))].
Qed.

Lemma add_loop_sets (ps : list Z) (bf bf' : Filter) (r : option error) :
  Forall (fun p => 0 <= p < two64) ps ->
  add_loop ps bf = (bf', Done r) ->
  Forall (fun p => bit_at bf'.(bitstore) p = Some true) ps.
Proof.
  intros Hps. revert bf; induction Hps as [|p ps Hp Hps IH]; intros bf E; [constructor|].
  rewrite add_loop_cons in E by exact Hp.
  destruct (bit_at (bitstore bf) p) as [b|] eqn:Hb; [|discriminate].
  constructor; [|eapply IH; exact E].
  replace bf' with (fst (add_loop ps (with_bitstore bf (set_bit (bitstore bf) p))))
    by (rewrite E; reflexivity).
  eapply bits_subset_bit_at; [apply add_loop_subset, Hps|].
  apply set_bit_set. congruence.
Qed.

Lemma add_loop_idem (ps : list Z) (bf : Filter) :
  Forall (fun p => 0 <= p < two64) ps ->
  fst (add_loop ps (fst (add_loop ps bf))) = fst (add_loop ps bf).
Proof.
  intros Hps. revert bf; induction Hps as [|p ps Hp Hps IH]; intros bf; [reflexivity|].
  rewrite (add_loop_cons p ps bf Hp).
  destruct (bit_at (bitstore bf) p) as [b|] eqn:Hb.
  - set (bf0 := with_bitstore bf (set_bit (bitstore bf) p)).
    assert (Hset : bit_at (fst (add_loop ps bf0)).(bitstore) p = Some true).
    { eapply bits_subset_bit_at; [apply add_loop_subset, Hps|].
      apply set_bit_set. congruence. }
    rewrite add_loop_cons by exact Hp. rewrite Hset.
    rewrite set_bit_already by exact Hset. rewrite with_bitstore_same.
    apply IH.
  - rewrite add_loop_cons by exact Hp. simpl. rewrite Hb. reflexivity.
Qed.

Lemma has_loop_state (ps : list Z) (bf : Filter) : fst (has_loop ps bf) = bf.
Proof.
  revert bf; induction ps as [|p ps IH]; intros bf; cbn [has_loop]; [reflexivity|].
  destruct (bitlocation p 64) as [index offset]. unfold load_word.
  destruct (in_bounds index (bitstore bf)); [|reflexivity].
  destruct (_ =? 0); [reflexivity | apply IH].
Qed.

Lemma has_loop_true (ps : list Z) (bf : Filter) :
  Forall (fun p => 0 <= p < two64) ps ->
  snd (has_loop ps bf) = Done (true, None) <->
  Forall (fun p => bit_at bf.(bitstore) p = Some true) ps.
Proof.
  intros Hps. induction Hps as [|p ps Hp _ IH]; [split; [constructor | reflexivity]|].
  rewrite has_loop_cons by exact Hp. split.
  - destruct (bit_at (bitstore bf) p) as [[|]|] eqn:Hb; simpl; try discriminate.
    intros H. constructor; [exact Hb | apply IH, H].
  - intros H. inversion H as [|? ? Hb Hr]; subst. rewrite Hb. apply IH, Hr.
Qed.

Lemma has_loop_false (ps : list Z) (bf : Filter) :
  Forall (fun p => 0 <= p < two64) ps ->
  snd (has_loop ps bf) = Done (false, None) <->
  exists ps1 p ps2, ps = ps1 ++ p :: ps2 /\
    Forall (fun q => bit_at bf.(bitstore) q = Some true) ps1 /\
    bit_at bf.(bitstore) p = Some false.
Proof.
  intros Hps. induction Hps as [|p ps Hp _ IH].
  - simpl. split; [discriminate|]. intros (ps1 & p & ps2 & E & _). destruct ps1; discriminate.
  - rewrite has_loop_cons by exact Hp. split.
    + destruct (bit_at (bitstore bf) p) as [[|]|] eqn:Hb; simpl; try discriminate.
      * intros H. apply IH in H as (ps1 & q & ps2 & -> & H1 & H2).
        exists (p :: ps1), q, ps2. repeat split; [constructor|]; assumption.
      * intros _. exists [], p, ps. repeat split; [constructor | exact Hb].
    + intros ([|q ps1] & r & ps2 & E & H1 & H2); simpl in E; injection E as E1 E2; subst.
      * rewrite H2. reflexivity.
      * inversion H1 as [|? ? Hq Hr]; subst. rewrite Hq. apply IH.
        exists ps1, r, ps2. repeat split; assumption.
Qed.

(** ** [Add], [Has] and [New] *)

Lemma Add_cases (element : list Z) (bf : Filter) :
  0 <= bf.(bitlen) ->
  Add element bf = (bf, Panic DivideByZero) \/
  (Add element bf = add_loop (spec_positions element bf.(hashqty) bf.(bitlen)) bf /\
   Forall (fun p => 0 <= p < bf.(bitlen)) (spec_positions element bf.(hashqty) bf.(bitlen))).
Proof.
  intros Hm. unfold Add.
  destruct (bitpositions_cases element bf.(hashqty) bf.(bitlen) Hm) as [E|[E R]];
    rewrite E; [left | right]; auto.
Qed.

Lemma Has_cases (element : list Z) (bf : Filter) :
  0 <= bf.(bitlen) ->
  Has element bf = (bf, Panic DivideByZero) \/
  (Has element bf = has_loop (spec_positions element bf.(hashqty) bf.(bitlen)) bf /\
   Forall (fun p => 0 <= p < bf.(bitlen)) (spec_positions element bf.(hashqty) bf.(bitlen))).
Proof.
  intros Hm. unfold Has.
  destruct (bitpositions_cases element bf.(hashqty) bf.(bitlen) Hm) as [E|[E R]];
    rewrite E; [left | right]; auto.
Qed.

Lemma Forall_below_two64 (ps : list Z) (m : Z) :
  m < two64 -> Forall (fun p => 0 <= p < m) ps -> Forall (fun p => 0 <= p < two64) ps.
Proof. intros Hm. apply Forall_impl. intros p Hp. lia. Qed.

Lemma Add_shape (element : list Z) (bf : Filter) :
  exists s, fst (Add element bf) = with_bitstore bf s.
Proof.
  unfold Add. destruct (bitpositions _ _ _) as [[ps [err|]]|k].
  - exists bf.(bitstore). rewrite with_bitstore_same. reflexivity.
  - apply add_loop_shape.
  - exists bf.(bitstore). rewrite with_bitstore_same. reflexivity.
Qed.

Lemma Has_state (element : list Z) (bf : Filter) : fst (Has element bf) = bf.
Proof.
  unfold Has. destruct (bitpositions _ _ _) as [[ps [err|]]|k]; try reflexivity.
  apply has_loop_state.
Qed.

Lemma Add_subset (element : list Z) (bf : Filter) :
  0 <= bf.(bitlen) < two64 ->
  bits_subset bf.(bitstore) (fst (Add element bf)).(bitstore).
Proof.
  intros Hm. destruct (Add_cases element bf ltac:(lia)) as [E|[E R]]; rewrite E.
  - apply bits_subset_refl.
  - apply add_loop_subset. eapply Forall_below_two64; [|exact R]. lia.
Qed.

Lemma run_adds_app (es1 es2 : list (list Z)) (bf : Filter) :
  run_adds (es1 ++ es2) bf =
    match run_adds es1 bf with
    | (bf', Panic k) => (bf', Panic k)
    | (bf', Done _) => run_adds es2 bf'
    end.
Proof.
  revert bf; induction es1 as [|e es1 IH]; intros bf; cbn [run_adds app].
  - reflexivity.
  - destruct (Add e bf) as [bf' [r|k]]; [apply IH | reflexivity].
Qed.

Lemma run_adds_shape (es : list (list Z)) (bf : Filter) :
  exists s, fst (run_adds es bf) = with_bitstore bf s.
Proof.
  revert bf; induction es as [|e es IH]; intros bf; cbn [run_adds].
  - exists bf.(bitstore). rewrite with_bitstore_same. reflexivity.
  - destruct (Add_shape e bf) as [s Hs].
    destruct (Add e bf) as [bf' [r|k]] eqn:E; simpl in Hs; subst bf'.
    + destruct (IH (with_bitstore bf s)) as [s' Hs']. exists s'. exact Hs'.
    + exists s. reflexivity.
Qed.

Lemma run_adds_subset (es : list (list Z)) (bf : Filter) :
  0 <= bf.(bitlen) < two64 ->
  bits_subset bf.(bitstore) (fst (run_adds es bf)).(bitstore).
Proof.
  revert bf; induction es as [|e es IH]; intros bf Hm; cbn [run_adds].
  - apply bits_subset_refl.
  - pose proof (Add_subset e bf Hm) as Hsub. destruct (Add_shape e bf) as [s Hs].
    destruct (Add e bf) as [bf' [r|k]] eqn:E; simpl in Hs, Hsub |- *; subst bf'.
    + eapply bits_subset_trans; [exact Hsub | apply IH; exact Hm].
    + exact Hsub.
Qed.

Lemma lor_below (a b k : Z) :
  0 <= k -> 0 <= a < 2 ^ k -> 0 <= b < 2 ^ k -> 0 <= Z.lor a b < 2 ^ k.
Proof.
  intros Hk Ha Hb. split; [apply Z.lor_nonneg; lia|].
  replace (Z.lor a b) with (Z.lor a b mod 2 ^ k); [apply Z.mod_pos_bound; lia|].
  apply Z.bits_inj'. intros j Hj. destruct (Z.lt_ge_cases j k) as [Hjk|Hjk].
  - apply Z.mod_pow2_bits_low. exact Hjk.
  - rewrite Z.mod_pow2_bits_high by lia. rewrite Z.lor_spec.
    rewrite <- (Z.mod_small a (2 ^ k)), <- (Z.mod_small b (2 ^ k)) by lia.
    rewrite !Z.mod_pow2_bits_high by lia. reflexivity.
Qed.

Lemma to_uint64_range (x : float) : 0 <= F64.to_uint64 x < two64.
Proof.
  unfold F64.to_uint64. destruct (x <? F64.two63)%float.
  - apply Z.mod_pos_bound. reflexivity.
  - apply (lor_below _ _ 64); [lia | apply Z.mod_pos_bound; reflexivity | ].
    split; [lia | reflexivity].
Qed.

Lemma to_uint8_range (x : float) : 0 <= F64.to_uint8 x < 256.
Proof. unfold F64.to_uint8. apply Z.mod_pos_bound. lia. Qed.

Lemma buckets_of_nonneg (bl : Z) : 0 <= bl -> 0 <= buckets_of bl.
Proof.
  intros H. unfold buckets_of. assert (0 <= bl / 64) by (apply Z.div_pos; lia).
  destruct (negb _); lia.
Qed.

Lemma position_bucket (p bl : Z) : 0 <= p < bl -> p / 64 < buckets_of bl.
Proof.
  intros Hp. unfold buckets_of. destruct (Z.eqb_spec (bl mod 64) 0) as [H0|H0]; simpl.
  - apply Z.div_lt_upper_bound; [lia|].
    pose proof (Z.div_mod bl 64 ltac:(lia)). lia.
  - pose proof (Z.div_le_mono p bl 64 ltac:(lia) ltac:(lia)). lia.
Qed.


Lemma New_ok (n : Z) (prob : float) (f : Filter) :
  New n prob = Done (Some f, None) -> new_filter_ok f.
Proof.
  unfold New. destruct (n =? 0); [discriminate|]. destruct (prob <=? 0)%float; [discriminate|].
  unfold make_uint64s. destruct (maxAlloc <? 8 * _); [discriminate|].
  intros E; injection E as <-. unfold new_filter_ok; simpl.
  pose proof (to_uint64_range (F64.Ceil
    (- F64.of_Z n * F64.Log prob / (F64.Log 2 * F64.Log 2))%float)) as Hb.
  unfold optimalBitLen. repeat split; try lia; try apply to_uint8_range.
  rewrite repeat_length, Z2Nat.id; [reflexivity|]. apply buckets_of_nonneg. lia.
Qed.

Lemma new_filter_ok_Add (element : list Z) (f : Filter) :
  new_filter_ok f -> new_filter_ok (fst (Add element f)).
Proof.
  intros Hf. pose proof (Add_subset element f ltac:(unfold new_filter_ok in Hf; lia)) as [L _].
  destruct (Add_shape element f) as [s Hs]. rewrite Hs in L |- *.
  unfold new_filter_ok in *; simpl in *. rewrite <- L. exact Hf.
Qed.

Lemma new_filter_ok_run_adds (es : list (list Z)) (f : Filter) :
  new_filter_ok f -> new_filter_ok (fst (run_adds es f)).
Proof.
  revert f; induction es as [|e es IH]; intros f Hf; cbn [run_adds]; [exact Hf|].
  pose proof (new_filter_ok_Add e f Hf) as Hf'.
  destruct (Add e f) as [f' [r|k]]; simpl in *; [apply IH|]; exact Hf'.
Qed.

Lemma add_loop_done (ps : list Z) (bf : Filter) :
  Forall (fun p => 0 <= p < two64 /\ p / 64 < Z.of_nat (length bf.(bitstore))) ps ->
  snd (add_loop ps bf) = Done None.
Proof.
  revert bf; induction ps as [|p ps IH]; intros bf Hps; [reflexivity|].
  inversion Hps as [|? ? [Hp Hi] Hr]; subst.
  rewrite add_loop_cons by exact Hp. rewrite bit_at_in by lia.
  unfold in_bounds. assert (0 <= p / 64) by (apply Z.div_pos; lia).
  destruct (Z.leb_spec 0 (p / 64)); [|lia]. destruct (Z.ltb_spec (p / 64) (Z.of_nat (length (bitstore bf)))); [|lia].
  apply IH. simpl. unfold set_bit. rewrite list_set_length. exact Hr.
Qed.

Lemma has_loop_done (ps : list Z) (bf : Filter) :
  Forall (fun p => 0 <= p < two64 /\ p / 64 < Z.of_nat (length bf.(bitstore))) ps ->
  exists b, snd (has_loop ps bf) = Done (b, None).
Proof.
  induction ps as [|p ps IH]; intros Hps; [exists true; reflexivity|].
  inversion Hps as [|? ? [Hp Hi] Hr]; subst.
  rewrite has_loop_cons by exact Hp. rewrite bit_at_in by lia.
  unfold in_bounds. assert (0 <= p / 64) by (apply Z.div_pos; lia).
  destruct (Z.leb_spec 0 (p / 64)); [|lia]. destruct (Z.ltb_spec (p / 64) (Z.of_nat (length (bitstore bf)))); [|lia].
  destruct (Z.testbit _ _); [apply IH, Hr | exists false; reflexivity].
Qed.

Lemma positions_in_store (ps : list Z) (f : Filter) :
  new_filter_ok f -> Forall (fun p => 0 <= p < f.(bitlen)) ps ->
  Forall (fun p => 0 <= p < two64 /\ p / 64 < Z.of_nat (length f.(bitstore))) ps.
Proof.
  intros (Hb & _ & L) Hps. apply (Forall_impl _ (P := fun p => 0 <= p < f.(bitlen))); [|exact Hps].
  intros p Hp. rewrite L. split; [lia | apply position_bucket; exact Hp].
Qed.

Lemma Add_no_index_panic (element : list Z) (f : Filter) :
  new_filter_ok f -> snd (Add element f) <> Panic IndexOutOfRange.
Proof.
  intros Hok. pose proof Hok as (Hb & _ & _).
  destruct (Add_cases element f ltac:(lia)) as [E|[E R]]; rewrite E; [discriminate|].
  rewrite add_loop_done; [discriminate|]. apply positions_in_store; assumption.
Qed.

Lemma Has_no_index_panic (element : list Z) (f : Filter) :
  new_filter_ok f -> snd (Has element f) <> Panic IndexOutOfRange.
Proof.
  intros Hok. pose proof Hok as (Hb & _ & _).
  destruct (Has_cases element f ltac:(lia)) as [E|[E R]]; rewrite E; [discriminate|].
  destruct (has_loop_done (spec_positions element f.(hashqty) f.(bitlen)) f) as [b ->];
    [apply positions_in_store; assumption | discriminate].
Qed.

Lemma run_adds_no_index_panic (es : list (list Z)) (f : Filter) :
  new_filter_ok f -> snd (run_adds es f) <> Panic IndexOutOfRange.
Proof.
  revert f; induction es as [|e es IH]; intros f Hok; cbn [run_adds]; [discriminate|].
  pose proof (Add_no_index_panic e f Hok) as H. pose proof (new_filter_ok_Add e f Hok) as Hok'.
  destruct (Add e f) as [f' [r|k]]; simpl in *; [apply IH, Hok'|].
  intros E. injection E as ->. apply H. reflexivity.
Qed.

Lemma prob_pos_not_le (prob : float) : (0 <? prob)%float = true -> (prob <=? 0)%float = false.
Proof.
  rewrite ltb_spec, leb_spec. change (Prim2SF 0) with (S754_zero false).
  unfold SFltb, SFleb.
  destruct (Prim2SF prob) as [[|]|[|]| |[|] m e]; simpl; try reflexivity; discriminate.
Qed.

(** * The claims *)

(** ** C1 *)

(** C1: no false negatives. For every filter [f] that [New] returns and every
    element, if [Add] on [f] returns no error (and does not panic), leaving the
    filter [f1], then [Has] of the same element on [f1] returns [true] with no
    error and leaves [f1] as it is. *)
Theorem C1_no_false_negatives (n : Z) (prob : float) (f f1 : Filter) (element : list Z) :
  New n prob = Done (Some f, None) ->
  Add element f = (f1, Done None) ->
  Has element f1 = (f1, Done (true, None)).
Proof.
  intros HN HA. destruct (New_ok _ _ _ HN) as (Hb & _ & _).
  assert (Hf1 : exists s, f1 = with_bitstore f s).
  { destruct (Add_shape element f) as [s Hs]. rewrite HA in Hs. exists s. exact Hs. }
  destruct Hf1 as [s ->].
  unfold Add in HA. unfold Has.
  change (hashqty (with_bitstore f s)) with (hashqty f).
  change (bitlen (with_bitstore f s)) with (bitlen f).
  destruct (bitpositions_cases element f.(hashqty) f.(bitlen) ltac:(lia)) as [E|[E R]];
    rewrite E in HA |- *; [discriminate|].
  set (ps := spec_positions element f.(hashqty) f.(bitlen)) in *.
  assert (Hr : Forall (fun p => 0 <= p < two64) ps) by (eapply Forall_below_two64; [|exact R]; lia).
  pose proof (add_loop_sets ps f _ None Hr HA) as Hset.
  apply (has_loop_true ps (with_bitstore f s) Hr) in Hset.
  pose proof (has_loop_state ps (with_bitstore f s)) as Hst.
  destruct (has_loop ps (with_bitstore f s)) as [bf' r]. simpl in Hst, Hset. subst. reflexivity.
Qed.

Lemma C1_witness :
  Has s_bob (fst (Add s_bob (mkFilter prob_001 959 7 100 (repeat 0 15))))
  = (fst (Add s_bob (mkFilter prob_001 959 7 100 (repeat 0 15))), Done (true, None)).
Proof.
  apply (C1_no_false_negatives 100 prob_001 (mkFilter prob_001 959 7 100 (repeat 0 15))).
  - vm_compute. reflexivity.
  - vm_compute. reflexivity.
Defined.

(** ** C3 *)

(** C3: position derivation. For [hashqty] k (a byte) and [bitlen] m in (0, 2^64),
    [bitpositions] returns, without error, the list whose entry i (for i < k) is the
    value of the first 16 hex characters of the SHA-256 digest of the element with the
    byte i appended, reduced mod m; the list has k entries, all in [0, m). For the
    element "test", k = 4 and m = 48 it is [7; 36; 32; 37]. *)
Theorem C3_bitpositions (element : list Z) (k m : Z) :
  0 <= k < 256 -> 0 < m < two64 ->
  bitpositions element k m = Done (spec_positions element k m, None) /\
  length (spec_positions element k m) = Z.to_nat k /\
  Forall (fun p => 0 <= p < m) (spec_positions element k m) /\
  bitpositions s_test 4 48 = Done ([7; 36; 32; 37], None).
Proof.
  intros Hk Hm. split; [apply bitpositions_pos; lia|].
  split; [apply spec_positions_length|].
  split; [apply spec_positions_range; lia|].
  vm_compute. reflexivity.
Qed.

Lemma C3_witness :
  bitpositions s_bob 7 959 = Done (spec_positions s_bob 7 959, None) /\
  length (spec_positions s_bob 7 959) = 7%nat.
Proof.
  destruct (C3_bitpositions s_bob 7 959) as (H1 & H2 & _);
    [lia | unfold two64; lia | split; [exact H1 | exact H2]].
Defined.

(** ** C4 *)

(** C4: idempotence of [Add]. For every filter whose [bitlen] is in the [uint64]
    range and every element, adding the element twice leaves the filter, hence its
    bitstore, exactly as adding it once does. *)
Theorem C4_add_idempotent (bf : Filter) (element : list Z) :
  0 <= bf.(bitlen) < two64 ->
  fst (Add element (fst (Add element bf))) = fst (Add element bf) /\
  (fst (Add element (fst (Add element bf)))).(bitstore) = (fst (Add element bf)).(bitstore).
Proof.
  intros Hb.
  assert (H : fst (Add element (fst (Add element bf))) = fst (Add element bf)).
  { destruct (bitpositions_cases element bf.(hashqty) bf.(bitlen) ltac:(lia)) as [E|[E R]].
    - assert (HA : Add element bf = (bf, Panic DivideByZero)) by (unfold Add; rewrite E; reflexivity).
      rewrite HA. simpl. rewrite HA. reflexivity.
    - set (ps := spec_positions element bf.(hashqty) bf.(bitlen)) in *.
      assert (HA : Add element bf = add_loop ps bf) by (unfold Add; rewrite E; reflexivity).
      rewrite HA. destruct (add_loop_shape ps bf) as [s Hs]. rewrite Hs.
      assert (HA' : Add element (with_bitstore bf s) = add_loop ps (with_bitstore bf s)).
      { unfold Add. change (hashqty (with_bitstore bf s)) with (hashqty bf).
        change (bitlen (with_bitstore bf s)) with (bitlen bf). rewrite E. reflexivity. }
      rewrite HA', <- Hs. apply add_loop_idem.
      eapply Forall_below_two64; [|exact R]. lia. }
  split; [exact H | rewrite H; reflexivity].
Qed.

Lemma C4_witness :
  fst (Add s_bob (fst (Add s_bob (mkFilter prob_001 959 7 100 (repeat 0 15)))))
  = fst (Add s_bob (mkFilter prob_001 959 7 100 (repeat 0 15))).
Proof.
  apply (C4_add_idempotent (mkFilter prob_001 959 7 100 (repeat 0 15)) s_bob).
  simpl. unfold two64. lia.
Defined.

(** ** C5 *)

(** C5: monotonicity. For every filter whose [bitlen] is in the [uint64] range:
    [Add] only sets bits (every bit set before is set after, and the bitstore keeps
    its length); after any sequence of adds run one after another (stopping at a
    panic), every bit set after a prefix of the sequence is still set after the
    whole sequence; and [Has] leaves the filter unchanged. *)
Theorem C5_monotone (bf : Filter) :
  0 <= bf.(bitlen) < two64 ->
  (forall element, bits_subset bf.(bitstore) (fst (Add element bf)).(bitstore)) /\
  (forall es1 es2, bits_subset (fst (run_adds es1 bf)).(bitstore)
                               (fst (run_adds (es1 ++ es2) bf)).(bitstore)) /\
  (forall element, fst (Has element bf) = bf).
Proof.
  intros Hb. split; [|split].
  - intros element. apply Add_subset. exact Hb.
  - intros es1 es2. rewrite run_adds_app.
    destruct (run_adds_shape es1 bf) as [s Hs].
    destruct (run_adds es1 bf) as [bf1 [u|k]]; simpl in Hs |- *; [|apply bits_subset_refl].
    apply run_adds_subset. subst bf1. exact Hb.
  - intros element. apply Has_state.
Qed.

Lemma C5_witness :
  bits_subset (fst (run_adds [s_test] (mkFilter prob_001 959 7 100 (repeat 0 15)))).(bitstore)
              (fst (run_adds ([s_test] ++ [s_bob]) (mkFilter prob_001 959 7 100 (repeat 0 15)))).(bitstore).
Proof.
  destruct (C5_monotone (mkFilter prob_001 959 7 100 (repeat 0 15))) as (_ & H & _);
    [simpl; unfold two64; lia | apply H].
Defined.

(** ** C6 *)

(** C6: query semantics. [Has] never changes the filter. For a [bitlen] in
    (0, 2^64), [Has] and [Add] both use the positions [ps] that [bitpositions]
    derives (the [spec_positions]); after [Add] succeeds every one of them is set;
    [Has] returns [true] (no error) exactly when the bit of every position in [ps]
    is 1, and returns [false] (no error) exactly when, scanning [ps] in order, a
    position whose bit is 0 is met while all the positions before it are 1,
    whatever the positions after it are. *)
Theorem C6_has_semantics (bf : Filter) (element : list Z) :
  fst (Has element bf) = bf /\
  (0 < bf.(bitlen) < two64 ->
   let ps := spec_positions element bf.(hashqty) bf.(bitlen) in
   bitpositions element bf.(hashqty) bf.(bitlen) = Done (ps, None) /\
   (forall bf' r, Add element bf = (bf', Done r) ->
      Forall (fun p => bit_at bf'.(bitstore) p = Some true) ps) /\
   (snd (Has element bf) = Done (true, None) <->
      Forall (fun p => bit_at bf.(bitstore) p = Some true) ps) /\
   (snd (Has element bf) = Done (false, None) <->
      exists ps1 p ps2, ps = ps1 ++ p :: ps2 /\
        Forall (fun q => bit_at bf.(bitstore) q = Some true) ps1 /\
        bit_at bf.(bitstore) p = Some false)).
Proof.
  split; [apply Has_state|]. intros Hb ps.
  assert (E : bitpositions element bf.(hashqty) bf.(bitlen) = Done (ps, None))
    by (apply bitpositions_pos; lia).
  assert (Hr : Forall (fun p => 0 <= p < two64) ps).
  { eapply Forall_below_two64; [|apply spec_positions_range]; lia. }
  assert (HH : Has element bf = has_loop ps bf) by (unfold Has; rewrite E; reflexivity).
  split; [exact E|]. split; [|split].
  - intros bf' r HA. unfold Add in HA. rewrite E in HA. eapply add_loop_sets; eassumption.
  - rewrite HH. apply has_loop_true. exact Hr.
  - rewrite HH. apply has_loop_false. exact Hr.
Qed.

Lemma C6_witness :
  Forall (fun p => bit_at [210453397632] p = Some true)
    (spec_positions s_test 4 48).
Proof.
  destruct (C6_has_semantics (mkFilter prob_001 48 4 0 [210453397632]) s_test) as [_ H].
  destruct H as (_ & _ & Ht & _); [unfold two64; simpl; lia|].
  apply Ht. vm_compute. reflexivity.
Defined.

(** ** C10 *)

(** C10: in-bounds access. For every filter [f] that [New] returns (of any
    probability), after any sequence of adds, the bitstore has [ceil(bitlen / 64)]
    words, every position derived for any element lies below [bitlen] and in a word
    of the bitstore, and neither [Add] nor [Has] (nor the sequence of adds) panics
    with an index out of range. *)
Theorem C10_in_bounds (n : Z) (prob : float) (f : Filter) :
  New n prob = Done (Some f, None) ->
  forall (es : list (list Z)) (element : list Z),
    let f' := fst (run_adds es f) in
    Z.of_nat (length f'.(bitstore)) = buckets_of f'.(bitlen) /\
    (forall ps, bitpositions element f'.(hashqty) f'.(bitlen) = Done (ps, None) ->
       Forall (fun p => 0 <= p < f'.(bitlen) /\ p / 64 < Z.of_nat (length f'.(bitstore))) ps) /\
    snd (run_adds es f) <> Panic IndexOutOfRange /\
    snd (Add element f') <> Panic IndexOutOfRange /\
    snd (Has element f') <> Panic IndexOutOfRange.
Proof.
  intros HN es element f'. pose proof (New_ok _ _ _ HN) as Hok0.
  assert (Hok : new_filter_ok f') by (apply new_filter_ok_run_adds; exact Hok0).
  pose proof Hok as (Hb & _ & L).
  split; [exact L|]. split; [|split; [|split]].
  - intros ps E.
    destruct (bitpositions_cases element f'.(hashqty) f'.(bitlen) ltac:(lia)) as [E'|[E' R]];
      rewrite E' in E; [discriminate|]. injection E as <-.
    apply Forall_forall. intros p Hp. pose proof (proj1 (Forall_forall _ _) R p Hp) as Hp'.
    split; [exact Hp'|]. rewrite L. apply position_bucket. exact Hp'.
  - apply run_adds_no_index_panic. exact Hok0.
  - apply Add_no_index_panic. exact Hok.
  - apply Has_no_index_panic. exact Hok.
Qed.

Lemma C10_witness :
  snd (Add s_test (fst (run_adds [s_bob] (mkFilter prob_001 959 7 100 (repeat 0 15)))))
  <> Panic IndexOutOfRange.
Proof.
  destruct (C10_in_bounds 100 prob_001 (mkFilter prob_001 959 7 100 (repeat 0 15)))
    with (es := [s_bob]) (element := s_test) as (_ & _ & _ & H & _);
    [vm_compute; reflexivity | exact H].
Defined.

(** ** C2 *)

(** C2, as worded: for [New(1, 2.0)] the specification promises a filter, but the
    bit length [ceil(-ln 2 / ln(2)^2)] is negative and wraps around in the
    conversion to [uint64] (to [2^64 - 1]), so [make] panics. *)
Lemma C2_counterexample : ~ C2_claim.
Proof.
  intros H. destruct (H 1 2%float) as (_ & _ & H3); [lia|].
  destruct (H3 ltac:(lia) eq_refl) as [f Hf]. vm_compute in Hf. discriminate.
Qed.

(** C2, corrected. [New] returns [ErrZeroElements] when [n = 0] and
    [ErrProbability] when [n > 0] and [prob <= 0]. When [n > 0] and [prob > 0] it
    never returns an error: it returns a filter with [bitlen = optimalBitLen n prob],
    [hashqty = optimalHashQty prob] and a zeroed bitstore of [ceil(bitlen / 64)]
    words when these words fit in [2^48] bytes, and panics in [make] otherwise, as
    for [New(1, 2.0)]; [New(100, 0.01)] returns a filter. *)
Theorem C2_new_outcomes (n : Z) (prob : float) :
  (n = 0 -> New n prob = Done (None, Some ErrZeroElements)) /\
  (0 < n -> (prob <=? 0)%float = true -> New n prob = Done (None, Some ErrProbability)) /\
  (0 < n -> (0 <? prob)%float = true ->
     let bl := optimalBitLen n prob in
     New n prob =
       if maxAlloc <? 8 * buckets_of bl then Panic MakeSliceLen
       else Done (Some (mkFilter prob bl (optimalHashQty prob) n
                          (repeat 0 (Z.to_nat (buckets_of bl)))), None)) /\
  New 1 2%float = Panic MakeSliceLen /\
  (exists f, New 100 prob_001 = Done (Some f, None)).
Proof.
  split; [|split; [|split; [|split]]].
  - intros ->. reflexivity.
  - intros Hn Hp. unfold New. destruct (Z.eqb_spec n 0); [lia|]. rewrite Hp. reflexivity.
  - intros Hn Hp bl. unfold New. destruct (Z.eqb_spec n 0); [lia|].
    rewrite (prob_pos_not_le prob Hp). unfold make_uint64s. fold bl.
    destruct (maxAlloc <? 8 * buckets_of bl); reflexivity.
  - vm_compute. reflexivity.
  - eexists. vm_compute. reflexivity.
Qed.

Lemma C2_witness :
  New 0 prob_001 = Done (None, Some ErrZeroElements) /\
  New 100 0%float = Done (None, Some ErrProbability).
Proof.
  destruct (C2_new_outcomes 0 prob_001) as (H1 & _).
  destruct (C2_new_outcomes 100 0%float) as (_ & H2 & _).
  split; [apply H1; reflexivity | apply H2; [lia | vm_compute; reflexivity]].
Defined.

(** ** C8 *)

(** C8, as worded: [bitlocation(2^63, 1)] converts the word index [2^63] to [int],
    where it wraps to [-2^63]. *)
Lemma C8_counterexample : ~ C8_claim.
Proof.
  intros H. specialize (H (2 ^ 63) 1 ltac:(unfold two64; lia) ltac:(lia)).
  vm_compute in H. discriminate.
Qed.

(** C8, corrected. For [p : uint64] and [w : byte] with [w' = 8] if [w = 0] and
    [w' = w] otherwise, [bitlocation p w = (p / w', p - (p / w') * w')] whenever
    [w <> 1] or [p < 2^63]; for [w = 1] and [p >= 2^63] the word index wraps to
    [p - 2^64]. [bitlocation(63, 64) = (0, 63)] and [bitlocation(64, 64) = (1, 0)]. *)
Theorem C8_bitlocation (p w : Z) :
  0 <= p < two64 -> 0 <= w < 256 ->
  let w' := if w =? 0 then 8 else w in
  ((w <> 1 \/ p < 2 ^ 63) -> bitlocation p w = (p / w', p - p / w' * w')) /\
  (w = 1 -> 2 ^ 63 <= p -> bitlocation p w = (p - two64, 0)) /\
  bitlocation 63 64 = (0, 63) /\ bitlocation 64 64 = (1, 0).
Proof.
  intros Hp Hw w'. split; [|split; [|split; reflexivity]].
  - intros Hc. apply bitlocation_eq; [exact Hp | exact Hw |].
    fold w'. assert (Hw' : w' = 1 \/ 2 <= w') by (subst w'; destruct (Z.eqb_spec w 0); lia).
    destruct Hw' as [E|Hge].
    + assert (w = 1) by (subst w'; destruct (Z.eqb_spec w 0); lia).
      destruct Hc as [Hc|Hc]; [lia|]. rewrite E, Z.div_1_r. exact Hc.
    + apply Z.div_lt_upper_bound; [lia|]. unfold two64 in Hp. nia.
  - intros -> Hge. unfold bitlocation, int_of_uint64. change (1 =? 0) with false. cbv iota.
    rewrite Z.div_1_r, Z.mul_1_r.
    rewrite (Z.mod_small p two64) by lia.
    rewrite Z.sub_diag. destruct (Z.ltb_spec p (2 ^ 63)); [lia|]. reflexivity.
Qed.

Lemma C8_witness : bitlocation 200 64 = (200 / 64, 200 - 200 / 64 * 64).
Proof.
  apply (C8_bitlocation 200 64); [unfold two64; lia | lia | left; lia].
Defined.

(** ** C7 *)

Lemma float_to_R_pow2_m29 : float_to_R pow2_m29 = (/ 2 ^ 29)%R.
Proof.
  unfold float_to_R. vm_compute Prim2SF. cbv iota.
  rewrite Rmult_1_l.
  change (IZR (Z.pos 4503599627370496)) with (IZR (2 ^ Z.of_nat 52)).
  rewrite <- pow_IZR. change (powerRZ 2 (-81)) with (/ 2 ^ (52 + 29))%R.
  rewrite pow_add. field.
Qed.

Lemma log2_pow2_m29 : (- ln (float_to_R pow2_m29) / ln 2 = 29)%R.
Proof.
  rewrite float_to_R_pow2_m29, ln_Rinv by (apply pow_lt; lra). rewrite ln_pow by lra.
  assert (0 < ln 2)%R by (rewrite <- ln_1; apply ln_increasing; lra).
  replace (INR 29) with 29%R by (simpl; lra). field. lra.
Qed.

(** C7, as worded: over the reals [-ln(2^-29) / ln 2 = 29], whose ceiling is 29,
    while [optimalHashQty(2^-29)] is 30. *)
Lemma C7_counterexample : ~ C7_claim.
Proof.
  intros [_ H]. specialize (H pow2_m29).
  rewrite log2_pow2_m29, float_to_R_pow2_m29 in H.
  unfold real_ceil_is in H.
  replace (optimalHashQty pow2_m29) with 30 in H by (vm_compute; reflexivity).
  assert (E : (2 ^ 29 = 536870912)%R) by (simpl; lra). rewrite E in H.
  destruct H as [H _]; [split; [apply Rinv_0_lt_compat; lra |] |].
  - rewrite <- Rinv_1. apply Rinv_lt_contravar; lra.
  - lra.
Qed.

(** C7, corrected. [optimalBitLen] and [optimalHashQty] evaluate the formulas in
    float64 arithmetic with [math.Log] and [math.Ceil], so a result can exceed the
    exact ceiling by one: for [prob = 2^-29] the exact [-ln(p) / ln 2] is 29 and
    [optimalHashQty] is 30. The package's values hold:
    [optimalBitLen(1000000, 0.01) = 9585059], [optimalHashQty(0.01) = 7],
    [optimalBitLen(0, 0.01) = 0]. *)
Theorem C7_sizing :
  optimalBitLen 1000000 prob_001 = 9585059 /\
  optimalHashQty prob_001 = 7 /\
  optimalBitLen 0 prob_001 = 0 /\
  optimalHashQty pow2_m29 = 30 /\
  (- ln (float_to_R pow2_m29) / ln 2 = 29)%R.
Proof.
  split; [vm_compute; reflexivity|]. split; [vm_compute; reflexivity|].
  split; [vm_compute; reflexivity|]. split; [vm_compute; reflexivity|].
  exact log2_pow2_m29.
Qed.

(** ** float64 arithmetic over the reals

    The value of a [spec_float] is [sf_to_R]. The lemmas below bound the result of one
    rounded operation of [FloatAxioms] against the exact real result. *)

Lemma digits2_pos_size (p : positive) : digits2_pos p = Pos.size p.
Proof. induction p as [p IH|p IH|]; simpl; rewrite ?IH; reflexivity. Qed.

Lemma size_log2 (p : positive) : Z.pos (Pos.size p) = Z.log2 (Z.pos p) + 1.
Proof. destruct p as [q|q|]; cbn [Pos.size Z.log2]; rewrite ?Pos2Z.inj_succ; lia. Qed.

Lemma size_bounds (p : positive) :
  2 ^ (Z.pos (Pos.size p) - 1) <= Z.pos p < 2 ^ Z.pos (Pos.size p).
Proof.
  rewrite size_log2. replace (Z.log2 (Z.pos p) + 1 - 1) with (Z.log2 (Z.pos p)) by lia.
  pose proof (Z.log2_spec (Z.pos p) ltac:(lia)) as H. rewrite <- Z.add_1_r in H. exact H.
Qed.

Lemma Zdigits2_bounds (M : Z) : 0 <= M ->
  0 <= Zdigits2 M /\ M < 2 ^ Zdigits2 M /\ (0 < M -> 2 ^ (Zdigits2 M - 1) <= M).
Proof.
  intros H. destruct M as [|p|p]; [simpl; lia| |lia].
  cbn [Zdigits2]. rewrite digits2_pos_size. pose proof (size_bounds p). lia.
Qed.

Lemma Zdigits2_le (M k : Z) : 0 <= M -> 0 <= k -> M < 2 ^ k -> Zdigits2 M <= k.
Proof.
  intros H0 Hk H. destruct (Zdigits2_bounds M H0) as (H1 & H2 & H3).
  destruct (Z.eq_dec M 0) as [->|HM]; [simpl; lia|].
  specialize (H3 ltac:(lia)). destruct (Z_le_gt_dec (Zdigits2 M) k) as [|Hgt]; [assumption|].
  assert (2 ^ k <= 2 ^ (Zdigits2 M - 1)) by (apply Z.pow_le_mono_r; lia). lia.
Qed.

Lemma bpow_add (a b : Z) : bpow (a + b) = (bpow a * bpow b)%R.
Proof. unfold bpow. apply powerRZ_add. lra. Qed.

Lemma bpow_pos (e : Z) : (0 < bpow e)%R.
Proof. unfold bpow. apply powerRZ_lt. lra. Qed.

Lemma bpow_IZR (e : Z) : 0 <= e -> bpow e = IZR (2 ^ e).
Proof.
  intros H. unfold bpow. rewrite <- (Z2Nat.id e H).
  rewrite <- pow_powerRZ, pow_IZR. reflexivity.
Qed.

Lemma bpow_le (a b : Z) : a <= b -> (bpow a <= bpow b)%R.
Proof.
  intros H. replace b with (a + (b - a)) by lia. rewrite bpow_add, (bpow_IZR (b - a)) by lia.
  pose proof (bpow_pos a) as Ha.
  assert (H1 : 1 <= 2 ^ (b - a)) by (pose proof (Z.pow_pos_nonneg 2 (b - a)); lia).
  apply IZR_le in H1. nra.
Qed.

Lemma bpow_lt (a b : Z) : a < b -> (bpow a < bpow b)%R.
Proof.
  intros H. replace b with (a + (b - a)) by lia. rewrite bpow_add, (bpow_IZR (b - a)) by lia.
  pose proof (bpow_pos a) as Ha.
  assert (H1 : 2 <= 2 ^ (b - a)).
  { replace (b - a) with (1 + (b - a - 1)) by lia. rewrite Z.pow_add_r by lia.
    pose proof (Z.pow_pos_nonneg 2 (b - a - 1)); lia. }
  apply IZR_le in H1. nra.
Qed.

Lemma bpow_opp (e : Z) : bpow (- e) = (/ bpow e)%R.
Proof. unfold bpow. apply powerRZ_neg'. Qed.

Lemma bpow_1 : bpow 1 = 2%R.
Proof. unfold bpow. simpl. ring. Qed.

(** Shifting right. *)
Lemma shr_1_m (r : shr_record) : 0 <= shr_m r ->
  shr_m (shr_1 r) = shr_m r / 2 /\ 0 <= shr_m (shr_1 r).
Proof.
  destruct r as [m r s]. cbn [shr_m]. intros H.
  destruct m as [|[p|p|]|p]; cbn [shr_1 shr_m].
  - split; reflexivity.
  - rewrite (Pos2Z.inj_xI p). split; [|lia]. apply Z.div_unique with 1; lia.
  - rewrite (Pos2Z.inj_xO p). split; [|lia]. apply Z.div_unique with 0; lia.
  - split; reflexivity.
  - exfalso. pose proof (Pos2Z.neg_is_neg p). lia.
Qed.

Lemma iter_shr_1 (p : positive) : forall r, 0 <= shr_m r ->
  shr_m (SpecFloat.iter_pos shr_1 p r) = shr_m r / 2 ^ Zpos p /\ 0 <= shr_m (SpecFloat.iter_pos shr_1 p r).
Proof.
  induction p as [p IH|p IH|]; intros r H; cbn [SpecFloat.iter_pos].
  - destruct (shr_1_m r H) as [E1 P1].
    destruct (IH _ P1) as [E2 P2]. destruct (IH _ P2) as [E3 P3].
    split; [|exact P3]. rewrite E3, E2, E1.
    rewrite !Z.div_div by (try apply Z.pow_pos_nonneg; lia).
    f_equal. replace (Z.pos p~1) with (Z.pos p + Z.pos p + 1) by lia. rewrite !Z.pow_add_r by lia. ring.
  - destruct (IH _ H) as [E2 P2]. destruct (IH _ P2) as [E3 P3].
    split; [|exact P3]. rewrite E3, E2.
    rewrite !Z.div_div by (try apply Z.pow_pos_nonneg; lia).
    f_equal. replace (Z.pos p~0) with (Z.pos p + Z.pos p) by lia. rewrite !Z.pow_add_r by lia. ring.
  - destruct (shr_1_m r H) as [E1 P1]. split; [rewrite E1; reflexivity|exact P1].
Qed.

Lemma rne_cases (m : Z) (l : location) :
  round_nearest_even m l = m \/ round_nearest_even m l = m + 1.
Proof.
  destruct l as [|[| |]]; cbn [round_nearest_even]; auto.
  destruct (Z.even m); auto.
Qed.

Lemma Rabs_le_between (x a : R) : (- a <= x <= a)%R -> (Rabs x <= a)%R.
Proof. intros H. unfold Rabs. destruct (Rcase_abs x); lra. Qed.

Lemma Rabs_le_inv (x a : R) : (Rabs x <= a)%R -> (- a <= x <= a)%R.
Proof. unfold Rabs. destruct (Rcase_abs x); intros; lra. Qed.

Lemma fexp_eq (x : Z) : fexp prec emax x = Z.max (x - 53) (-1074).
Proof. reflexivity. Qed.

Lemma Eb_ge (V : R) : (V * bpow (-52) <= Eb V /\ bpow (-1074) <= Eb V)%R.
Proof. unfold Eb. split; [apply Rmax_l | apply Rmax_r]. Qed.

Lemma Eb_le (V : R) : (0 <= V)%R -> (Eb V <= V * bpow (-52) + bpow (-1074))%R.
Proof.
  intros H. pose proof (bpow_pos (-52)). pose proof (bpow_pos (-1074)).
  unfold Eb, Rmax. destruct (Rle_dec _ _); nra.
Qed.

Lemma IZR_bpow_le (a b e : Z) : a <= b -> (IZR a * bpow e <= IZR b * bpow e)%R.
Proof. intros H. apply Rmult_le_compat_r; [left; apply bpow_pos | apply IZR_le; exact H]. Qed.

Lemma IZR_bpow_shift (q d e : Z) : 0 <= d -> (IZR q * bpow (e + d) = IZR (q * 2 ^ d) * bpow e)%R.
Proof. intros H. rewrite bpow_add, (bpow_IZR d H), mult_IZR. ring. Qed.

Lemma shr_record_of_loc_m (m : Z) (l : location) : shr_m (shr_record_of_loc m l) = m.
Proof. destruct l as [|[| |]]; reflexivity. Qed.

(** Rounding a mantissa and an exponent: [binary_round_aux]. *)

Lemma stage1 (M e : Z) (lx : location) (V : R) :
  0 <= M ->
  (IZR M * bpow e <= V < IZR (M + 1) * bpow e)%R ->
  (lx <> loc_Exact -> bpow e <= Eb V)%R ->
  let '(mrs', e') := shr (shr_record_of_loc M lx) e (Z.max (Zdigits2 M + e - 53) (-1074) - e) in
  -1074 <= e' /\ 0 <= shr_m mrs' < 2 ^ 53 /\
  (IZR (shr_m mrs') * bpow e' <= V < IZR (shr_m mrs' + 1) * bpow e')%R /\
  ((lx = loc_Exact /\ e' = e /\ shr_m mrs' = M /\ loc_of_shr_record mrs' = loc_Exact /\
    Z.max (Zdigits2 M + e - 53) (-1074) - e <= 0) \/ (bpow e' <= Eb V)%R).
Proof.
  intros HM HV Hinex.
  destruct (Zdigits2_bounds M HM) as (HD0 & HD1 & HD2).
  set (D := Zdigits2 M) in *.
  set (d := Z.max (D + e - 53) (-1074) - e).
  destruct d as [|p|p] eqn:Ed.
  - (* no shift *)
    cbn [shr]. rewrite shr_record_of_loc_m.
    assert (D <= 53) by lia.
    assert (M < 2 ^ 53) by (pose proof (Z.pow_le_mono_r 2 D 53 ltac:(lia) ltac:(lia)); lia).
    split; [lia|]. split; [lia|]. split; [exact HV|].
    destruct lx as [|c]; [left; repeat split; lia | right; apply Hinex; discriminate].
  - (* shift right by p *)
    cbn [shr]. destruct (iter_shr_1 p (shr_record_of_loc M lx)) as [E1 P1];
      [rewrite shr_record_of_loc_m; exact HM|].
    rewrite shr_record_of_loc_m in E1. rewrite E1.
    assert (Hp : 0 < 2 ^ Zpos p) by (apply Z.pow_pos_nonneg; lia).
    pose proof (Z.div_mod M (2 ^ Zpos p) ltac:(lia)) as HQ.
    pose proof (Z.mod_pos_bound M (2 ^ Zpos p) Hp) as HR.
    set (q := M / 2 ^ Zpos p) in *. set (r := M mod 2 ^ Zpos p) in *.
    assert (Hq0 : 0 <= q) by (apply Z.div_pos; lia).
    split; [lia|]. split.
    { split; [exact Hq0|]. apply Z.div_lt_upper_bound; [lia|].
      assert (2 ^ D <= 2 ^ Zpos p * 2 ^ 53).
      { rewrite <- Z.pow_add_r by lia. apply Z.pow_le_mono_r; lia. }
      lia. }
    split.
    { rewrite !IZR_bpow_shift by lia. split.
      - apply Rle_trans with (IZR M * bpow e)%R; [apply IZR_bpow_le; nia | apply HV].
      - apply Rlt_le_trans with (IZR (M + 1) * bpow e)%R; [apply HV | apply IZR_bpow_le; nia]. }
    right. pose proof (Eb_ge V) as [G1 G2].
    destruct (Z_le_gt_dec (D + e - 53) (-1074)) as [Hlo|Hhi].
    + replace (e + Z.pos p) with (-1074) by lia. exact G2.
    + replace (e + Z.pos p) with (D + e - 53) by lia.
      assert (HM0 : 0 < M).
      { destruct (Z.eq_dec M 0) as [E0|]; [|lia]. exfalso.
        assert (D = 0) by (unfold D; rewrite E0; reflexivity). lia. }
      specialize (HD2 HM0).
      assert (HV2 : (bpow (D - 1 + e) <= V)%R).
      { apply Rle_trans with (IZR M * bpow e)%R; [|apply HV].
        rewrite bpow_add, bpow_IZR by lia. apply Rmult_le_compat_r; [left; apply bpow_pos|].
        apply IZR_le; exact HD2. }
      replace (D + e - 53) with (D - 1 + e + (-52)) by lia. rewrite bpow_add.
      apply Rle_trans with (V * bpow (-52))%R; [|exact G1].
      apply Rmult_le_compat_r; [left; apply bpow_pos | exact HV2].
  - cbn [shr]. rewrite shr_record_of_loc_m.
    assert (D <= 53) by lia.
    assert (M < 2 ^ 53) by (pose proof (Z.pow_le_mono_r 2 D 53 ltac:(lia) ltac:(lia)); lia).
    split; [lia|]. split; [lia|]. split; [exact HV|].
    destruct lx as [|c]; [left; repeat split; lia | right; apply Hinex; discriminate].
Qed.

Lemma stage2 (mr e' : Z) : 0 <= mr <= 2 ^ 53 -> -1074 <= e' ->
  let '(mrs'', e'') := shr (shr_record_of_loc mr loc_Exact) e' (Z.max (Zdigits2 mr + e' - 53) (-1074) - e') in
  0 <= shr_m mrs'' /\ e' <= e'' /\
  (Rabs (IZR (shr_m mrs'') * bpow e'' - IZR mr * bpow e') <= bpow e')%R /\
  (Z.max (Zdigits2 mr + e' - 53) (-1074) - e' <= 0 -> shr_m mrs'' = mr /\ e'' = e').
Proof.
  intros Hm He.
  assert (HD : Zdigits2 mr <= 54).
  { apply Zdigits2_le; [lia | lia |]. change (2 ^ 54) with (2 * 2 ^ 53). lia. }
  pose proof (bpow_pos e') as Hb.
  assert (Hd : Z.max (Zdigits2 mr + e' - 53) (-1074) - e' <= 1) by lia.
  set (d := Z.max (Zdigits2 mr + e' - 53) (-1074) - e') in *.
  destruct d as [|p|p] eqn:Ed.
  - cbn [shr]. rewrite shr_record_of_loc_m. split; [lia|]. split; [lia|].
    split; [|tauto]. rewrite Rminus_diag, Rabs_R0. lra.
  - assert (p = 1%positive) by lia. subst p.
    cbn [shr SpecFloat.iter_pos].
    destruct (shr_1_m (shr_record_of_loc mr loc_Exact)) as [E1 P1];
      [rewrite shr_record_of_loc_m; lia|].
    rewrite shr_record_of_loc_m in E1. rewrite E1 in *.
    split; [exact P1|]. split; [lia|]. split; [|lia].
    rewrite (IZR_bpow_shift (mr / 2) 1 e') by lia.
    apply Rabs_le_between.
    assert (H1 : mr - 1 <= mr / 2 * 2 ^ 1 <= mr) by (pose proof (Z.div_mod mr 2 ltac:(lia)); pose proof (Z.mod_pos_bound mr 2 ltac:(lia)); change (2 ^ 1) with 2; lia).
    destruct H1 as [H1 H2]. apply IZR_le in H1. apply IZR_le in H2.
    rewrite minus_IZR in H1. nra.
  - cbn [shr]. rewrite shr_record_of_loc_m. split; [lia|]. split; [lia|].
    split; [|tauto]. rewrite Rminus_diag, Rabs_R0. lra.
Qed.

Lemma bpow_0 : bpow 0 = 1%R.
Proof. reflexivity. Qed.

Lemma round_aux_ok (sx : bool) (M e : Z) (lx : location) (V : R) :
  0 <= M ->
  (IZR M * bpow e <= V < IZR (M + 1) * bpow e)%R ->
  (lx = loc_Exact -> V = (IZR M * bpow e)%R) ->
  (lx <> loc_Exact -> bpow e <= Eb V)%R ->
  (V < bpow 900)%R ->
  rnd_ok sx (binary_round_aux prec emax sx M e lx) V.
Proof.
  intros HM HV Hex Hinex Hbig.
  assert (HV0 : (0 <= V)%R).
  { apply Rle_trans with (IZR M * bpow e)%R; [|apply HV].
    apply Rmult_le_pos; [apply IZR_le; exact HM | left; apply bpow_pos]. }
  pose proof (Eb_ge V) as [G1 G2]. pose proof (bpow_pos (-1074)) as Gp.
  pose proof (stage1 M e lx V HM HV Hinex) as S1.
  unfold binary_round_aux, shr_fexp. rewrite fexp_eq.
  revert S1. destruct (shr (shr_record_of_loc M lx) e (Z.max (Zdigits2 M + e - 53) (-1074) - e))
    as [mrs' e']. intros (He' & Hm' & HV' & Hcase).
  set (mr := round_nearest_even (shr_m mrs') (loc_of_shr_record mrs')).
  assert (Hmr : 0 <= mr <= 2 ^ 53) by (destruct (rne_cases (shr_m mrs') (loc_of_shr_record mrs')) as [Er|Er]; unfold mr; rewrite Er; lia).
  pose proof (stage2 mr e' Hmr He') as S2.
  rewrite fexp_eq.
  revert S2. destruct (shr (shr_record_of_loc mr loc_Exact) e' (Z.max (Zdigits2 mr + e' - 53) (-1074) - e'))
    as [mrs'' e'']. intros (Hm'' & He'' & Herr2 & Hnoshift).
  assert (Herr : (Rabs (IZR (shr_m mrs'') * bpow e'' - V) <= 2 * Eb V)%R).
  { destruct Hcase as [(Hlx & Ee & Em & Eloc & Hd) | Hb].
    - assert (Emr : mr = M) by (unfold mr; rewrite Em, Eloc; reflexivity).
      rewrite Emr, Ee in Hnoshift. destruct (Hnoshift Hd) as [Em'' Ee''].
      rewrite Em'', Ee'', <- (Hex Hlx), Rminus_diag, Rabs_R0. lra.
    - assert (H1 : (Rabs (IZR mr * bpow e' - V) <= bpow e')%R).
      { apply Rabs_le_between. pose proof (bpow_pos e').
        destruct (rne_cases (shr_m mrs') (loc_of_shr_record mrs')) as [Er|Er];
          unfold mr; rewrite Er; rewrite ?plus_IZR in *; lra. }
      apply Rabs_le_between. apply Rabs_le_inv in H1. apply Rabs_le_inv in Herr2. lra. }
  destruct (shr_m mrs'') as [|m|m] eqn:Em2.
  - cbn [rnd_ok]. split; [reflexivity|]. apply Rabs_le_inv in Herr. rewrite Rmult_0_l in Herr. lra.
  - change (Z.sub emax prec) with 971.
    destruct (Z.leb_spec e'' 971) as [Hle|Hgt].
    + cbn [rnd_ok]. split; [reflexivity | exact Herr].
    + exfalso. apply Rabs_le_inv in Herr. pose proof (Eb_le V HV0) as G3.
      pose proof (bpow_le (-52) 0 ltac:(lia)) as G4. rewrite bpow_0 in G4.
      pose proof (bpow_le (-1074) 900 ltac:(lia)) as G5.
      pose proof (bpow_le 903 e'' ltac:(lia)) as G6.
      replace 903 with (900 + 3) in G6 by lia. rewrite bpow_add, (bpow_IZR 3) in G6 by lia.
      change (IZR (2 ^ 3)) with 8%R in G6.
      assert (G7 : (1 * bpow e'' <= IZR (Z.pos m) * bpow e'')%R).
      { apply Rmult_le_compat_r; [left; apply bpow_pos | apply IZR_le; lia]. }
      nra.
  - lia.
Qed.

Lemma eps_eta_pos : (0 < eps /\ 0 < eta)%R.
Proof. split; apply bpow_pos. Qed.

Lemma sf_good_exact (r : spec_float) : sf_fin r -> sf_good r (sf_to_R r).
Proof.
  intros H. pose proof eps_eta_pos. split; [exact H|].
  rewrite Rminus_diag, Rabs_R0. pose proof (Rabs_pos (sf_to_R r)).
  split; [nra | split; intros; assumption].
Qed.

Lemma sf_good_zero (s : bool) (X : R) : X = 0%R -> sf_good (S754_zero s) X.
Proof. intros ->. apply sf_good_exact. exact I. Qed.

Lemma rnd_ok_good (sx : bool) (r : spec_float) (V : R) : (0 < V)%R -> rnd_ok sx r V ->
  sf_good r ((if sx then (-1) else 1) * V)%R.
Proof.
  intros HV H. pose proof (Eb_le V (Rlt_le _ _ HV)) as G.
  assert (G2 : (2 * Eb V <= eps * V + eta)%R).
  { unfold eps, eta. replace (-51) with (-52 + 1) by lia. replace (-1073) with (-1074 + 1) by lia.
    rewrite !bpow_add, bpow_1. lra. }
  assert (HX : Rabs ((if sx then (-1) else 1) * V) = V).
  { destruct sx; [replace (-1 * V)%R with (- V)%R by ring; rewrite Rabs_Ropp
                 | replace (1 * V)%R with V by ring]; apply Rabs_pos_eq; lra. }
  unfold sf_good. rewrite HX.
  destruct r as [s|s| |s m e]; cbn [rnd_ok] in H; try contradiction.
  - destruct H as [-> H]. split; [exact I|]. cbn [sf_to_R].
    split; [apply Rabs_le_between; destruct sx; lra|].
    split; intros; lra.
  - destruct H as [-> H]. split; [exact I|]. cbn [sf_to_R].
    pose proof (bpow_pos e) as Hb. assert (Hm : (1 <= IZR (Zpos m))%R) by (apply IZR_le; lia).
    apply Rabs_le_inv in H.
    split; [apply Rabs_le_between; destruct sx; lra|].
    destruct sx; split; intros; nra.
Qed.

Lemma Pos_iter_xO (m d : positive) : Zpos (Pos.iter xO m d) = Zpos m * 2 ^ Zpos d.
Proof.
  induction d as [|d IH] using Pos.peano_ind.
  - cbn [Pos.iter]. rewrite Pos2Z.inj_xO. change (2 ^ 1) with 2. ring.
  - rewrite Pos.iter_succ, Pos2Z.inj_xO, IH, Pos2Z.inj_succ, Z.pow_succ_r by lia. ring.
Qed.

Lemma shl_align_val (mx : positive) (ex ez : Z) : ez <= ex ->
  snd (shl_align mx ex ez) = ez /\
  (IZR (Zpos (fst (shl_align mx ex ez))) * bpow ez = IZR (Zpos mx) * bpow ex)%R.
Proof.
  intros H. unfold shl_align. destruct (ez - ex) as [|d|d] eqn:E; cbn [fst snd].
  - replace ez with ex by lia. split; reflexivity.
  - lia.
  - split; [reflexivity|]. rewrite Pos_iter_xO. replace ex with (ez + Zpos d) by lia.
    rewrite IZR_bpow_shift by lia. reflexivity.
Qed.

Lemma binary_round_ok (sx : bool) (p : positive) (e : Z) :
  (IZR (Zpos p) * bpow e < bpow 900)%R ->
  rnd_ok sx (binary_round prec emax sx p e) (IZR (Zpos p) * bpow e).
Proof.
  intros Hb. unfold binary_round.
  set (ez := fexp prec emax (Zpos (digits2_pos p) + e)).
  assert (HV : forall mz ez', (IZR (Zpos mz) * bpow ez' = IZR (Zpos p) * bpow e)%R ->
    rnd_ok sx (binary_round_aux prec emax sx (Zpos mz) ez' loc_Exact) (IZR (Zpos p) * bpow e)).
  { intros mz ez' E. apply round_aux_ok; [lia| |intros; exact (eq_sym E)|intros C; contradiction|exact Hb].
    rewrite <- E, plus_IZR. pose proof (bpow_pos ez'). lra. }
  unfold shl_align. destruct (ez - e) as [|d|d] eqn:E.
  - apply HV. reflexivity.
  - apply HV. reflexivity.
  - apply HV. rewrite Pos_iter_xO. replace (bpow e) with (bpow (ez + Zpos d)) by (f_equal; lia).
    rewrite IZR_bpow_shift by lia. reflexivity.
Qed.

Lemma binary_normalize_ok (m e : Z) :
  (Rabs (IZR m * bpow e) < bpow 900)%R ->
  sf_good (binary_normalize prec emax m e false) (IZR m * bpow e).
Proof.
  intros Hb. pose proof (bpow_pos e) as He.
  destruct m as [|p|p]; cbn [binary_normalize].
  - apply sf_good_zero. ring.
  - assert (HP : (0 < IZR (Zpos p) * bpow e)%R) by (apply Rmult_lt_0_compat; [apply IZR_lt; lia | exact He]).
    rewrite Rabs_pos_eq in Hb by lra.
    pose proof (rnd_ok_good false _ _ HP (binary_round_ok false p e Hb)) as G.
    rewrite Rmult_1_l in G. exact G.
  - assert (HP : (0 < IZR (Zpos p) * bpow e)%R) by (apply Rmult_lt_0_compat; [apply IZR_lt; lia | exact He]).
    assert (En : IZR (Zneg p) = (- IZR (Zpos p))%R) by (rewrite <- opp_IZR; reflexivity).
    rewrite En in Hb |- *. rewrite Ropp_mult_distr_l_reverse, Rabs_Ropp, Rabs_pos_eq in Hb by lra.
    pose proof (rnd_ok_good true _ _ HP (binary_round_ok true p e Hb)) as G.
    replace (- IZR (Z.pos p) * bpow e)%R with (-1 * (IZR (Zpos p) * bpow e))%R by ring. exact G.
Qed.

Lemma sign_abs (s : bool) (V : R) : (0 <= V)%R -> Rabs ((if s then (-1) else 1) * V) = V.
Proof.
  intros H. destruct s; [replace (-1 * V)%R with (- V)%R by ring; rewrite Rabs_Ropp
                        | replace (1 * V)%R with V by ring]; apply Rabs_pos_eq; lra.
Qed.

Lemma IZR_pos_bpow (m : positive) (e : Z) : (0 < IZR (Zpos m) * bpow e)%R.
Proof. apply Rmult_lt_0_compat; [apply IZR_lt; lia | apply bpow_pos]. Qed.

Lemma sf_mul_good (x y : spec_float) : sf_fin x -> sf_fin y ->
  (Rabs (sf_to_R x * sf_to_R y) < bpow 900)%R ->
  sf_good (SFmul prec emax x y) (sf_to_R x * sf_to_R y).
Proof.
  destruct x as [sx| | |sx mx ex]; try contradiction; destruct y as [sy| | |sy my ey]; try contradiction;
    intros _ _ Hb; cbn [SFmul sf_to_R].
  - apply sf_good_zero. ring.
  - apply sf_good_zero. ring.
  - apply sf_good_zero. ring.
  - set (V := (IZR (Zpos (mx * my)) * bpow (ex + ey))%R).
    assert (EV : ((if sx then -1 else 1) * IZR (Zpos mx) * bpow ex * ((if sy then -1 else 1) * IZR (Zpos my) * bpow ey)
                  = (if xorb sx sy then -1 else 1) * V)%R).
    { unfold V. rewrite Pos2Z.inj_mul, mult_IZR, bpow_add. destruct sx, sy; cbn [xorb]; ring. }
    assert (HV : (0 < V)%R) by apply IZR_pos_bpow.
    cbn [sf_to_R] in Hb. rewrite EV in Hb |- *. rewrite sign_abs in Hb by lra.
    apply rnd_ok_good; [exact HV|]. apply round_aux_ok; [lia| |reflexivity|intros C; contradiction C; reflexivity|exact Hb].
    unfold V. rewrite plus_IZR. pose proof (bpow_pos (ex + ey)). lra.
Qed.

Lemma cond_Zopp_IZR (s : bool) (m : Z) : IZR (cond_Zopp s m) = ((if s then -1 else 1) * IZR m)%R.
Proof. destruct s; cbn [cond_Zopp]; [rewrite opp_IZR|]; ring. Qed.

Lemma add_core_val (sx sy : bool) (mx my : positive) (ex ey : Z) (op : Z -> Z -> Z) (rop : R -> R -> R) :
  (forall a b, IZR (op a b) = rop (IZR a) (IZR b)) ->
  (forall a b c, (rop a b * c = rop (a * c) (b * c))%R) ->
  (IZR (op (cond_Zopp sx (Zpos (fst (shl_align mx ex (Z.min ex ey)))))
           (cond_Zopp sy (Zpos (fst (shl_align my ey (Z.min ex ey)))))) * bpow (Z.min ex ey)
   = rop ((if sx then -1 else 1) * IZR (Zpos mx) * bpow ex) ((if sy then -1 else 1) * IZR (Zpos my) * bpow ey))%R.
Proof.
  intros Hop Hrop. rewrite Hop, Hrop, !cond_Zopp_IZR, !Rmult_assoc.
  destruct (shl_align_val mx ex (Z.min ex ey) ltac:(lia)) as [_ Ex].
  destruct (shl_align_val my ey (Z.min ex ey) ltac:(lia)) as [_ Ey].
  rewrite Ex, Ey. reflexivity.
Qed.

Lemma sf_add_good (x y : spec_float) : sf_fin x -> sf_fin y ->
  (Rabs (sf_to_R x + sf_to_R y) < bpow 900)%R ->
  sf_good (SFadd prec emax x y) (sf_to_R x + sf_to_R y).
Proof.
  destruct x as [sx| | |sx mx ex]; try contradiction; destruct y as [sy| | |sy my ey]; try contradiction;
    intros Fx Fy Hb; cbn [SFadd sf_to_R].
  - destruct sx, sy; apply sf_good_zero; ring.
  - rewrite Rplus_0_l. apply sf_good_exact. exact I.
  - rewrite Rplus_0_r. apply sf_good_exact. exact I.
  - cbn [sf_to_R] in Hb.
    rewrite <- (add_core_val sx sy mx my ex ey Z.add Rplus plus_IZR ltac:(intros; ring)) in Hb |- *.
    apply binary_normalize_ok. exact Hb.
Qed.

Lemma sf_sub_good (x y : spec_float) : sf_fin x -> sf_fin y ->
  (Rabs (sf_to_R x - sf_to_R y) < bpow 900)%R ->
  sf_good (SFsub prec emax x y) (sf_to_R x - sf_to_R y).
Proof.
  destruct x as [sx| | |sx mx ex]; try contradiction; destruct y as [sy| | |sy my ey]; try contradiction;
    intros Fx Fy Hb; cbn [SFsub sf_to_R].
  - destruct sx, sy; apply sf_good_zero; ring.
  - replace (0 - (if sy then -1 else 1) * IZR (Z.pos my) * bpow ey)%R
      with (sf_to_R (S754_finite (negb sy) my ey)) by (destruct sy; cbn; ring).
    apply sf_good_exact. exact I.
  - rewrite Rminus_0_r. apply sf_good_exact. exact I.
  - cbn [sf_to_R] in Hb.
    rewrite <- (add_core_val sx sy mx my ex ey Z.sub Rminus minus_IZR ltac:(intros; ring)) in Hb |- *.
    apply binary_normalize_ok. exact Hb.
Qed.

Lemma new_location_exact (n r : Z) : new_location n r = loc_Exact -> r = 0.
Proof.
  unfold new_location, new_location_even, new_location_odd.
  destruct (Z.even n); destruct (Z.eqb_spec r 0); congruence.
Qed.

Lemma sf_div_finite_good (sx sy : bool) (mx my : positive) (ex ey : Z) :
  (Rabs (sf_to_R (S754_finite sx mx ex) / sf_to_R (S754_finite sy my ey)) < bpow 900)%R ->
  sf_good (SFdiv prec emax (S754_finite sx mx ex) (S754_finite sy my ey))
    (sf_to_R (S754_finite sx mx ex) / sf_to_R (S754_finite sy my ey)).
Proof.
  intros Hb. cbn [SFdiv sf_to_R] in Hb |- *. unfold SFdiv_core_binary. rewrite fexp_eq.
  destruct (Zdigits2_bounds (Zpos mx) ltac:(lia)) as (Hx0 & Hx1 & Hx2).
  destruct (Zdigits2_bounds (Zpos my) ltac:(lia)) as (Hy0 & Hy1 & _).
  specialize (Hx2 ltac:(lia)).
  set (d1 := Zdigits2 (Zpos mx)) in *. set (d2 := Zdigits2 (Zpos my)) in *.
  set (e' := Z.min (Z.max (d1 + ex - (d2 + ey) - 53) (-1074)) (ex - ey)).
  set (s := ex - ey - e').
  assert (Hs : 0 <= s) by lia.
  set (m' := match s with Zpos _ => Z.shiftl (Zpos mx) s | Z0 => Zpos mx | Zneg _ => 0 end).
  assert (Hm' : m' = Zpos mx * 2 ^ s).
  { unfold m'. destruct s as [|p|p] eqn:Es; [ring | apply Z.shiftl_mul_pow2; lia | lia]. }
  pose proof (Z.div_mod m' (Zpos my) ltac:(lia)) as HQ.
  pose proof (Z.mod_pos_bound m' (Zpos my) ltac:(lia)) as HR.
  unfold Z.div, Z.modulo in HQ, HR.
  destruct (Z.div_eucl m' (Zpos my)) as [q r] eqn:Edq. cbn [fst snd] in HQ, HR.
  set (V := (IZR (Zpos mx) * bpow ex / (IZR (Zpos my) * bpow ey))%R).
  pose proof (IZR_pos_bpow mx ex) as Px. pose proof (IZR_pos_bpow my ey) as Py.
  assert (HV : (0 < V)%R) by (unfold V; apply Rdiv_lt_0_compat; assumption).
  assert (Hmy : (0 < IZR (Zpos my))%R) by (apply IZR_lt; lia).
  pose proof (bpow_pos e') as Pe. pose proof (bpow_pos ey) as Pey.
  assert (EX : ((if sx then -1 else 1) * IZR (Zpos mx) * bpow ex / ((if sy then -1 else 1) * IZR (Zpos my) * bpow ey)
                = (if xorb sx sy then -1 else 1) * V)%R).
  { unfold V. destruct sx, sy; cbn [xorb]; field; repeat split; lra. }
  rewrite EX in Hb |- *. rewrite sign_abs in Hb by lra.
  assert (EV : (V * IZR (Zpos my) = IZR m' * bpow e')%R).
  { unfold V. rewrite Hm', mult_IZR, <- (bpow_IZR s Hs).
    replace ex with (ey + (e' + s)) by lia. rewrite !bpow_add. field. repeat split; lra. }
  assert (Hm'0 : 0 <= m') by (rewrite Hm'; pose proof (Z.pow_pos_nonneg 2 s ltac:(lia) Hs); nia).
  assert (Hq : 0 <= q) by nia.
  apply rnd_ok_good; [exact HV|]. apply round_aux_ok; [exact Hq| | | |exact Hb].
  - rewrite HQ, plus_IZR, mult_IZR in EV.
    assert (Hr : (0 <= IZR r < IZR (Zpos my))%R) by (split; [apply IZR_le | apply IZR_lt]; lia).
    rewrite plus_IZR. split; nra.
  - intros Hl. apply new_location_exact in Hl. subst r.
    rewrite HQ, Z.add_0_r, mult_IZR in EV.
    apply Rmult_eq_reg_r with (IZR (Zpos my)); [|lra]. rewrite EV. ring.
  - intros _. pose proof (Eb_ge V) as [G1 G2].
    destruct (Z_le_gt_dec (d1 + ex - (d2 + ey) - 53) (-1074)) as [Hlo|Hhi].
    + apply Rle_trans with (bpow (-1074)); [apply bpow_le; lia | exact G2].
    + apply Rle_trans with (bpow (d1 + ex - (d2 + ey) - 53)); [apply bpow_le; lia|].
      apply Rle_trans with (V * bpow (-52))%R; [|exact G1].
      replace (d1 + ex - (d2 + ey) - 53) with ((d1 - 1 + ex - d2 - ey) + (-52)) by lia.
      rewrite bpow_add. apply Rmult_le_compat_r; [left; apply bpow_pos|].
      (* V >= 2^(d1-1+ex-d2-ey) *)
      assert (Hd1 : 1 <= d1).
      { destruct (Z.eq_dec d1 0) as [E|]; [rewrite E in Hx1; simpl in Hx1; lia | lia]. }
      assert (Ha : (bpow (d1 - 1) <= IZR (Zpos mx))%R) by (rewrite bpow_IZR by lia; apply IZR_le; exact Hx2).
      assert (Hc : (IZR (Zpos my) <= bpow d2)%R) by (rewrite bpow_IZR by lia; apply IZR_le; apply Z.lt_le_incl; exact Hy1).
      assert (EW : (bpow (d1 - 1 + ex - d2 - ey) * (bpow d2 * bpow ey) = bpow (d1 - 1) * bpow ex)%R).
      { rewrite <- !bpow_add. f_equal. lia. }
      assert (EV2 : (V * (IZR (Zpos my) * bpow ey) = IZR (Zpos mx) * bpow ex)%R) by (unfold V; field; repeat split; lra).
      pose proof (bpow_pos (d1 - 1 + ex - d2 - ey)). pose proof (bpow_pos d2). pose proof (bpow_pos ex).
      pose proof (bpow_pos (d1 - 1)).
      apply Rmult_le_reg_r with (bpow d2 * bpow ey)%R; [nra|].
      rewrite EW. apply Rle_trans with (IZR (Zpos mx) * bpow ex)%R; [nra|].
      rewrite <- EV2. nra.
Qed.

Lemma sf_div_good (x y : spec_float) : sf_fin x -> sf_fin y -> sf_to_R y <> 0%R ->
  (Rabs (sf_to_R x / sf_to_R y) < bpow 900)%R ->
  sf_good (SFdiv prec emax x y) (sf_to_R x / sf_to_R y).
Proof.
  destruct x as [sx| | |sx mx ex]; try contradiction; destruct y as [sy| | |sy my ey]; try contradiction;
    intros Fx Fy Hy Hb.
  all: first [apply sf_div_finite_good; exact Hb
             | cbn [SFdiv sf_to_R] in *; first [exfalso; apply Hy; reflexivity
                                             | apply sf_good_zero; unfold Rdiv; ring]].
Qed.

(** The primitive operations, through [FloatAxioms]. *)

Lemma fmul_good (x y : float) : ffin x -> ffin y -> (Rabs (fv x * fv y) < bpow 900)%R ->
  fgood (x * y) (fv x * fv y).
Proof. unfold fgood, fv, ffin. rewrite FloatAxioms.mul_spec. apply sf_mul_good. Qed.

Lemma fadd_good (x y : float) : ffin x -> ffin y -> (Rabs (fv x + fv y) < bpow 900)%R ->
  fgood (x + y) (fv x + fv y).
Proof. unfold fgood, fv, ffin. rewrite FloatAxioms.add_spec. apply sf_add_good. Qed.

Lemma fsub_good (x y : float) : ffin x -> ffin y -> (Rabs (fv x - fv y) < bpow 900)%R ->
  fgood (x - y) (fv x - fv y).
Proof. unfold fgood, fv, ffin. rewrite FloatAxioms.sub_spec. apply sf_sub_good. Qed.

Lemma fdiv_good (x y : float) : ffin x -> ffin y -> fv y <> 0%R -> (Rabs (fv x / fv y) < bpow 900)%R ->
  fgood (x / y) (fv x / fv y).
Proof. unfold fgood, fv, ffin. rewrite FloatAxioms.div_spec. apply sf_div_good. Qed.

Lemma fopp_val (x : float) : ffin x -> ffin (- x) /\ fv (- x) = (- fv x)%R.
Proof.
  unfold ffin, fv. rewrite FloatAxioms.opp_spec.
  destruct (Prim2SF x) as [s|s| |s m e]; cbn; intros H; try contradiction; split; trivial.
  - ring.
  - destruct s; cbn; ring.
Qed.

Lemma fgood_bounds (r : float) (X : R) : fgood r X ->
  ffin r /\ (X - eps * Rabs X - eta <= fv r <= X + eps * Rabs X + eta)%R /\
  ((0 <= X)%R -> (0 <= fv r)%R) /\ ((X <= 0)%R -> (fv r <= 0)%R).
Proof.
  intros (F & E & S1 & S2). split; [exact F|]. split; [|split; assumption].
  apply Rabs_le_inv in E. unfold fv. lra.
Qed.

Lemma eps_small : (eps <= / 1000000000000000)%R.
Proof.
  unfold eps. change (-51) with (- (51)). rewrite bpow_opp, bpow_IZR by lia.
  apply Rinv_le_contravar; [lra|].
  apply IZR_le. vm_compute. discriminate.
Qed.

Lemma eta_small : (eta <= / 1000000000000000)%R.
Proof.
  unfold eta. apply Rle_trans with (bpow (-51)); [apply bpow_le; lia | exact eps_small].
Qed.

Lemma bpow_900_big : (1000000000 < bpow 900)%R.
Proof.
  apply Rlt_le_trans with (bpow 30); [|apply bpow_le; lia].
  rewrite bpow_IZR by lia. apply IZR_lt. reflexivity.
Qed.

(** Interval steps, with the slack [10^-11] covering one rounding of a value below 1000. *)
Lemma fgood_iv (r : float) (X lo hi : R) : fgood r X ->
  (lo + / 100000000000 <= X <= hi - / 100000000000)%R -> (-1000 <= lo)%R -> (hi <= 1000)%R ->
  iv r lo hi.
Proof.
  intros G HX Hlo Hhi. destruct (fgood_bounds r X G) as (F & B & _).
  pose proof eps_small. pose proof eta_small. pose proof eps_eta_pos.
  split; [exact F|].
  assert (Rabs X <= 1000)%R by (apply Rabs_le_between; lra).
  assert (eps * Rabs X <= eps * 1000)%R by (apply Rmult_le_compat_l; lra).
  lra.
Qed.

Lemma mul_corners (x y a b c d lo hi : R) : (a <= x <= b)%R -> (c <= y <= d)%R ->
  (lo <= a * c)%R -> (lo <= a * d)%R -> (lo <= b * c)%R -> (lo <= b * d)%R ->
  (a * c <= hi)%R -> (a * d <= hi)%R -> (b * c <= hi)%R -> (b * d <= hi)%R -> (lo <= x * y <= hi)%R.
Proof.
  intros Hx Hy H1 H2 H3 H4 H5 H6 H7 H8.
  assert (A : (Rmin (x * c) (x * d) <= x * y <= Rmax (x * c) (x * d))%R).
  { unfold Rmin, Rmax. destruct (Rle_dec (x * c) (x * d)); destruct (Rle_dec 0 x); split; nra. }
  assert (B : (lo <= x * c <= hi)%R) by (destruct (Rle_dec 0 c); split; nra).
  assert (C : (lo <= x * d <= hi)%R) by (destruct (Rle_dec 0 d); split; nra).
  unfold Rmin, Rmax in A. destruct (Rle_dec (x * c) (x * d)); lra.
Qed.

Lemma small_abs (X lo hi : R) : (lo <= X <= hi)%R -> (-1000 <= lo)%R -> (hi <= 1000)%R ->
  (Rabs X < bpow 900)%R.
Proof.
  intros H H1 H2. pose proof bpow_900_big.
  apply Rle_lt_trans with 1000%R; [apply Rabs_le_between; lra | lra].
Qed.

Lemma iv_add (a b : float) (la ha lb hb lo hi : R) : iv a la ha -> iv b lb hb ->
  corners Rplus la ha lb hb lo hi -> iv (a + b) lo hi /\ fgood (a + b) (fv a + fv b).
Proof.
  intros [Fa Ha] [Fb Hb] C. unfold corners, slack in C. pose proof (Rinv_0_lt_compat 100000000000).
  assert (HX : (lo + slack <= fv a + fv b <= hi - slack)%R) by (unfold slack; lra).
  assert (G : fgood (a + b) (fv a + fv b)) by (apply fadd_good; [exact Fa | exact Fb | apply (small_abs _ lo hi); unfold slack in *; lra]).
  split; [apply (fgood_iv _ _ _ _ G); unfold slack in *; lra | exact G].
Qed.

Lemma iv_sub (a b : float) (la ha lb hb lo hi : R) : iv a la ha -> iv b lb hb ->
  corners Rminus la ha lb hb lo hi -> iv (a - b) lo hi /\ fgood (a - b) (fv a - fv b).
Proof.
  intros [Fa Ha] [Fb Hb] C. unfold corners, slack in C. pose proof (Rinv_0_lt_compat 100000000000).
  assert (HX : (lo + slack <= fv a - fv b <= hi - slack)%R) by (unfold slack, Rminus in *; lra).
  assert (G : fgood (a - b) (fv a - fv b)) by (apply fsub_good; [exact Fa | exact Fb | apply (small_abs _ lo hi); unfold slack in *; lra]).
  split; [apply (fgood_iv _ _ _ _ G); unfold slack in *; lra | exact G].
Qed.

Lemma iv_mul (a b : float) (la ha lb hb lo hi : R) : iv a la ha -> iv b lb hb ->
  corners Rmult la ha lb hb lo hi -> iv (a * b) lo hi /\ fgood (a * b) (fv a * fv b).
Proof.
  intros [Fa Ha] [Fb Hb] C. unfold corners in C.
  assert (HX : (lo + slack <= fv a * fv b <= hi - slack)%R)
    by (apply (mul_corners _ _ la ha lb hb); lra).
  unfold slack in *. pose proof (Rinv_0_lt_compat 100000000000).
  assert (G : fgood (a * b) (fv a * fv b)) by (apply fmul_good; [exact Fa | exact Fb | apply (small_abs _ lo hi); lra]).
  split; [apply (fgood_iv _ _ _ _ G); lra | exact G].
Qed.

Lemma iv_div (a b : float) (la ha lb hb lo hi : R) : iv a la ha -> iv b lb hb -> (0 < lb)%R ->
  corners Rdiv la ha lb hb lo hi -> iv (a / b) lo hi /\ fgood (a / b) (fv a / fv b).
Proof.
  intros [Fa Ha] [Fb Hb] Hlb C. unfold corners, Rdiv in C.
  assert (Hi : (/ hb <= / fv b <= / lb)%R) by (split; apply Rinv_le_contravar; lra).
  assert (HX : (lo + slack <= fv a / fv b <= hi - slack)%R)
    by (unfold Rdiv; apply (mul_corners _ _ la ha (/ hb) (/ lb)); lra).
  unfold slack in *. pose proof (Rinv_0_lt_compat 100000000000).
  assert (G : fgood (a / b) (fv a / fv b)) by (apply fdiv_good; [exact Fa | exact Fb | lra | apply (small_abs _ lo hi); lra]).
  split; [apply (fgood_iv _ _ _ _ G); lra | exact G].
Qed.

(** ** [math.Log] on [(0, 1)]

    The constants of [F64.Log] as intervals, then the evaluation of its tail. *)

Lemma bpow_neg_lit (e : positive) : bpow (Zneg e) = (/ IZR (2 ^ Zpos e))%R.
Proof. change (Zneg e) with (- Zpos e). rewrite bpow_opp, bpow_IZR by lia. reflexivity. Qed.

Ltac fconst := split; [unfold ffin; vm_compute; exact I
  | unfold fv; vm_compute Prim2SF; cbn [sf_to_R]; rewrite ?bpow_neg_lit; simpl Z.pow; lra].

Lemma iv_Ln2Hi : iv F64.Ln2Hi 0.6931 0.6932. Proof. fconst. Qed.

Lemma iv_Ln2Lo : iv F64.Ln2Lo 0 (2 / 10000000000). Proof. fconst. Qed.

Lemma iv_L1 : iv F64.L1 0.66 0.67. Proof. fconst. Qed.

Lemma iv_L2 : iv F64.L2 0.39 0.41. Proof. fconst. Qed.

Lemma iv_L3 : iv F64.L3 0.28 0.29. Proof. fconst. Qed.

Lemma iv_L4 : iv F64.L4 0.22 0.23. Proof. fconst. Qed.

Lemma iv_L5 : iv F64.L5 0.18 0.19. Proof. fconst. Qed.

Lemma iv_L6 : iv F64.L6 0.15 0.16. Proof. fconst. Qed.

Lemma iv_L7 : iv F64.L7 0.14 0.15. Proof. fconst. Qed.

Lemma iv_one : iv 1 1 1. Proof. fconst. Qed.

Lemma iv_two : iv 2 2 2. Proof. fconst. Qed.

Lemma iv_half : iv 0.5 0.5 0.5. Proof. fconst. Qed.

Lemma Log_unfold (x : float) : F64.Log x =
  if is_nan x || (x =? infinity)%float then x
  else if (x <? 0)%float then nan
  else if (x =? 0)%float then neg_infinity
  else let '(f1, ki) := Z.frexp x in
       let '(f1, ki) := if (f1 <? F64.HalfSqrt2)%float then ((f1 * 2)%float, (ki - 1)%Z) else (f1, ki) in
       Log_tail f1 (F64.of_Z ki).
Proof. reflexivity. Qed.

Ltac crn := unfold corners, slack; repeat split; lra.

Lemma tail_iv (f1 k : float) (lk hk : R) : iv f1 0.7 1.42 -> iv k lk hk -> (-1100 <= lk)%R -> (hk <= 0)%R ->
  iv (Log_tail f1 k) (-764) (hk * 0.6931 + 0.523).
Proof.
  intros If1 Ik Hlk Hhk.
  assert (Hkk : (lk <= hk)%R) by (destruct Ik as [_ Ik]; lra).
  unfold Log_tail. cbv zeta.
  set (f := (f1 - 1)%float).
  set (s := (f / (2 + f))%float).
  set (s2 := (s * s)%float). set (s4 := (s2 * s2)%float).
  set (a7 := (s4 * F64.L7)%float). set (b5 := (F64.L5 + a7)%float). set (a5 := (s4 * b5)%float).
  set (b3 := (F64.L3 + a5)%float). set (a3 := (s4 * b3)%float). set (b1 := (F64.L1 + a3)%float).
  set (t1 := (s2 * b1)%float).
  set (a6 := (s4 * F64.L6)%float). set (b4 := (F64.L4 + a6)%float). set (a4 := (s4 * b4)%float).
  set (b2 := (F64.L2 + a4)%float). set (t2 := (s4 * b2)%float).
  set (Rt := (t1 + t2)%float). set (h := (0.5 * f)%float). set (hfsq := (h * f)%float).
  set (u := (hfsq + Rt)%float). set (X := (s * u)%float). set (kLo := (k * F64.Ln2Lo)%float).
  set (w := (X + kLo)%float). set (P := (hfsq - w)%float). set (Q := (P - f)%float).
  set (K := (k * F64.Ln2Hi)%float).
  destruct (iv_sub f1 1 _ _ _ _ (-0.301) 0.421 If1 iv_one ltac:(crn)) as [If _].
  destruct (iv_add 2 f _ _ _ _ 1.698 2.422 iv_two If ltac:(crn)) as [I2f _].
  destruct (iv_div f (2 + f) _ _ _ _ (-0.18) 0.25 If I2f ltac:(lra) ltac:(crn)) as [Is _].
  destruct (iv_mul s s _ _ _ _ (-0.046) 0.063 Is Is ltac:(crn)) as [Is2 _].
  destruct (iv_mul s2 s2 _ _ _ _ (-0.003) 0.004 Is2 Is2 ltac:(crn)) as [Is4 _].
  destruct (iv_mul s4 F64.L7 _ _ _ _ (-0.0005) 0.0007 Is4 iv_L7 ltac:(crn)) as [Ia7 _].
  destruct (iv_add F64.L5 a7 _ _ _ _ 0.179 0.191 iv_L5 Ia7 ltac:(crn)) as [Ib5 _].
  destruct (iv_mul s4 b5 _ _ _ _ (-0.0006) 0.0008 Is4 Ib5 ltac:(crn)) as [Ia5 _].
  destruct (iv_add F64.L3 a5 _ _ _ _ 0.279 0.291 iv_L3 Ia5 ltac:(crn)) as [Ib3 _].
  destruct (iv_mul s4 b3 _ _ _ _ (-0.0009) 0.0012 Is4 Ib3 ltac:(crn)) as [Ia3 _].
  destruct (iv_add F64.L1 a3 _ _ _ _ 0.659 0.672 iv_L1 Ia3 ltac:(crn)) as [Ib1 _].
  destruct (iv_mul s2 b1 _ _ _ _ (-0.031) 0.043 Is2 Ib1 ltac:(crn)) as [It1 _].
  destruct (iv_mul s4 F64.L6 _ _ _ _ (-0.0005) 0.0007 Is4 iv_L6 ltac:(crn)) as [Ia6 _].
  destruct (iv_add F64.L4 a6 _ _ _ _ 0.219 0.231 iv_L4 Ia6 ltac:(crn)) as [Ib4 _].
  destruct (iv_mul s4 b4 _ _ _ _ (-0.0007) 0.001 Is4 Ib4 ltac:(crn)) as [Ia4 _].
  destruct (iv_add F64.L2 a4 _ _ _ _ 0.389 0.412 iv_L2 Ia4 ltac:(crn)) as [Ib2 _].
  destruct (iv_mul s4 b2 _ _ _ _ (-0.0013) 0.0017 Is4 Ib2 ltac:(crn)) as [It2 _].
  destruct (iv_add t1 t2 _ _ _ _ (-0.033) 0.045 It1 It2 ltac:(crn)) as [IR _].
  destruct (iv_mul 0.5 f _ _ _ _ (-0.151) 0.211 iv_half If ltac:(crn)) as [Ih _].
  destruct (iv_mul h f _ _ _ _ (-0.064) 0.089 Ih If ltac:(crn)) as [Ihf _].
  destruct (iv_add hfsq Rt _ _ _ _ (-0.098) 0.135 Ihf IR ltac:(crn)) as [Iu _].
  destruct (iv_mul s u _ _ _ _ (-0.025) 0.034 Is Iu ltac:(crn)) as [IX _].
  destruct (iv_mul k F64.Ln2Lo _ _ _ _ (-0.000001) 0.000001 Ik iv_Ln2Lo ltac:(crn)) as [IkLo _].
  destruct (iv_add X kLo _ _ _ _ (-0.026) 0.035 IX IkLo ltac:(crn)) as [Iw _].
  destruct (iv_sub hfsq w _ _ _ _ (-0.1) 0.116 Ihf Iw ltac:(crn)) as [IP _].
  destruct (iv_sub P f _ _ _ _ (-0.522) 0.418 IP If ltac:(crn)) as [IQ _].
  destruct (iv_mul k F64.Ln2Hi _ _ _ _ (-763) (hk * 0.6931 + 0.000001) Ik iv_Ln2Hi ltac:(crn)) as [IK _].
  destruct (iv_sub K Q _ _ _ _ (-764) (hk * 0.6931 + 0.523) IK IQ ltac:(crn)) as [Ires _].
  exact Ires.
Qed.

Lemma eta_tiny : (eta <= / 1267650600228229401496703205376)%R.
Proof.
  unfold eta. eapply Rle_trans; [apply (bpow_le (-1073) (-100)); lia|].
  rewrite bpow_neg_lit. simpl Z.pow. lra.
Qed.

Lemma fgood_neg (r : float) (X : R) : fgood r X -> (X <= 0)%R ->
  (fv r <= X * 0.999 + / 1267650600228229401496703205376)%R.
Proof.
  intros G HX. destruct (fgood_bounds _ _ G) as (_ & [_ B] & _).
  rewrite Rabs_left1 in B by exact HX.
  assert (E : (eps * - X <= / 1000 * - X)%R).
  { apply Rmult_le_compat_r; [lra|]. eapply Rle_trans; [exact eps_small|].
    apply Rinv_le_contravar; lra. }
  pose proof eta_tiny. lra.
Qed.

Lemma fgood_pos (r : float) (X : R) : fgood r X -> (0 <= X)%R ->
  (X * 0.999 - / 1267650600228229401496703205376 <= fv r)%R.
Proof.
  intros G HX. destruct (fgood_bounds _ _ G) as (_ & [B _] & _).
  rewrite Rabs_right in B by lra.
  assert (E : (eps * X <= / 1000 * X)%R).
  { apply Rmult_le_compat_r; [lra|]. eapply Rle_trans; [exact eps_small|].
    apply Rinv_le_contravar; lra. }
  pose proof eta_tiny. lra.
Qed.

Lemma mul_nn_np (a b : R) : (0 <= a -> b <= 0 -> a * b <= 0)%R.
Proof. intros. nra. Qed.

Lemma mul_np_nn (a b : R) : (a <= 0 -> 0 <= b -> a * b <= 0)%R.
Proof. intros. nra. Qed.

Lemma mul_np_np (a b : R) : (a <= 0 -> b <= 0 -> 0 <= a * b)%R.
Proof. intros. nra. Qed.

Lemma div_np_p (a b : R) : (a <= 0 -> 0 < b -> a / b <= 0)%R.
Proof. intros. unfold Rdiv. apply mul_np_nn; [lra|]. apply Rlt_le, Rinv_0_lt_compat; lra. Qed.

Ltac nonneg_by G := let H := fresh in destruct (fgood_bounds _ _ G) as (_ & _ & H & _); apply H; clear H.

Ltac nonpos_by G := let H := fresh in destruct (fgood_bounds _ _ G) as (_ & _ & _ & H); apply H; clear H.

Lemma tail_zero (f1 k : float) : iv f1 0.7 1.42 -> iv k 0 0 ->
  (fv f1 <= 1 - / 9007199254740992)%R -> (fv (Log_tail f1 k) <= - / 72057594037927936)%R.
Proof.
  intros If1 Ik Hf1.
  assert (Hk : fv k = 0%R) by (destruct Ik as [_ Ik]; lra).
  unfold Log_tail. cbv zeta.
  set (f := (f1 - 1)%float).
  set (s := (f / (2 + f))%float).
  set (s2 := (s * s)%float). set (s4 := (s2 * s2)%float).
  set (a7 := (s4 * F64.L7)%float). set (b5 := (F64.L5 + a7)%float). set (a5 := (s4 * b5)%float).
  set (b3 := (F64.L3 + a5)%float). set (a3 := (s4 * b3)%float). set (b1 := (F64.L1 + a3)%float).
  set (t1 := (s2 * b1)%float).
  set (a6 := (s4 * F64.L6)%float). set (b4 := (F64.L4 + a6)%float). set (a4 := (s4 * b4)%float).
  set (b2 := (F64.L2 + a4)%float). set (t2 := (s4 * b2)%float).
  set (Rt := (t1 + t2)%float). set (h := (0.5 * f)%float). set (hfsq := (h * f)%float).
  set (u := (hfsq + Rt)%float). set (X := (s * u)%float). set (kLo := (k * F64.Ln2Lo)%float).
  set (w := (X + kLo)%float). set (P := (hfsq - w)%float). set (Q := (P - f)%float).
  set (K := (k * F64.Ln2Hi)%float).
  pose proof iv_one as I1. pose proof iv_two as I2. pose proof iv_half as Ih5.
  pose proof iv_L1 as IL1. pose proof iv_L2 as IL2. pose proof iv_L3 as IL3. pose proof iv_L4 as IL4.
  pose proof iv_L5 as IL5. pose proof iv_L6 as IL6. pose proof iv_L7 as IL7.
  pose proof iv_Ln2Lo as ILo. pose proof iv_Ln2Hi as IHi.
  destruct (iv_sub f1 1 _ _ _ _ (-0.301) 0.421 If1 I1 ltac:(crn)) as [If Gf].
  destruct (iv_add 2 f _ _ _ _ 1.698 2.422 I2 If ltac:(crn)) as [I2f G2f].
  destruct (iv_div f (2 + f) _ _ _ _ (-0.18) 0.25 If I2f ltac:(lra) ltac:(crn)) as [Is Gs].
  destruct (iv_mul s s _ _ _ _ (-0.046) 0.063 Is Is ltac:(crn)) as [Is2 Gs2].
  destruct (iv_mul s2 s2 _ _ _ _ (-0.003) 0.004 Is2 Is2 ltac:(crn)) as [Is4 Gs4].
  destruct (iv_mul s4 F64.L7 _ _ _ _ (-0.0005) 0.0007 Is4 IL7 ltac:(crn)) as [Ia7 Ga7].
  destruct (iv_add F64.L5 a7 _ _ _ _ 0.179 0.191 IL5 Ia7 ltac:(crn)) as [Ib5 Gb5].
  destruct (iv_mul s4 b5 _ _ _ _ (-0.0006) 0.0008 Is4 Ib5 ltac:(crn)) as [Ia5 Ga5].
  destruct (iv_add F64.L3 a5 _ _ _ _ 0.279 0.291 IL3 Ia5 ltac:(crn)) as [Ib3 Gb3].
  destruct (iv_mul s4 b3 _ _ _ _ (-0.0009) 0.0012 Is4 Ib3 ltac:(crn)) as [Ia3 Ga3].
  destruct (iv_add F64.L1 a3 _ _ _ _ 0.659 0.672 IL1 Ia3 ltac:(crn)) as [Ib1 Gb1].
  destruct (iv_mul s2 b1 _ _ _ _ (-0.031) 0.043 Is2 Ib1 ltac:(crn)) as [It1 Gt1].
  destruct (iv_mul s4 F64.L6 _ _ _ _ (-0.0005) 0.0007 Is4 IL6 ltac:(crn)) as [Ia6 Ga6].
  destruct (iv_add F64.L4 a6 _ _ _ _ 0.219 0.231 IL4 Ia6 ltac:(crn)) as [Ib4 Gb4].
  destruct (iv_mul s4 b4 _ _ _ _ (-0.0007) 0.001 Is4 Ib4 ltac:(crn)) as [Ia4 Ga4].
  destruct (iv_add F64.L2 a4 _ _ _ _ 0.389 0.412 IL2 Ia4 ltac:(crn)) as [Ib2 Gb2].
  destruct (iv_mul s4 b2 _ _ _ _ (-0.0013) 0.0017 Is4 Ib2 ltac:(crn)) as [It2 Gt2].
  destruct (iv_add t1 t2 _ _ _ _ (-0.033) 0.045 It1 It2 ltac:(crn)) as [IR GR].
  destruct (iv_mul 0.5 f _ _ _ _ (-0.151) 0.211 Ih5 If ltac:(crn)) as [Ih Gh].
  destruct (iv_mul h f _ _ _ _ (-0.064) 0.089 Ih If ltac:(crn)) as [Ihf Ghf].
  destruct (iv_add hfsq Rt _ _ _ _ (-0.098) 0.135 Ihf IR ltac:(crn)) as [Iu Gu].
  destruct (iv_mul s u _ _ _ _ (-0.025) 0.034 Is Iu ltac:(crn)) as [IX GX].
  destruct (iv_mul k F64.Ln2Lo _ _ _ _ (-0.000001) 0.000001 Ik ILo ltac:(crn)) as [IkLo GkLo].
  destruct (iv_add X kLo _ _ _ _ (-0.026) 0.035 IX IkLo ltac:(crn)) as [Iw Gw].
  destruct (iv_sub hfsq w _ _ _ _ (-0.1) 0.116 Ihf Iw ltac:(crn)) as [IP GP].
  destruct (iv_sub P f _ _ _ _ (-0.522) 0.418 IP If ltac:(crn)) as [IQ GQ].
  destruct (iv_mul k F64.Ln2Hi _ _ _ _ (-1) 1 Ik IHi ltac:(crn)) as [IK GK].
  destruct (iv_sub K Q _ _ _ _ (-2) 2 IK IQ ltac:(crn)) as [Ires Gres].
  destruct I1 as [_ V1]. destruct I2f as [_ V2f]. destruct Ih5 as [_ V5].
  destruct IL1 as [_ VL1]. destruct IL2 as [_ VL2]. destruct IL3 as [_ VL3]. destruct IL4 as [_ VL4].
  destruct IL5 as [_ VL5]. destruct IL6 as [_ VL6]. destruct IL7 as [_ VL7].
  assert (Sf : (fv f <= - / 18014398509481984)%R).
  { eapply Rle_trans; [apply (fgood_neg _ _ Gf); lra|]. lra. }
  assert (Ss : (fv s <= 0)%R) by (nonpos_by Gs; apply div_np_p; lra).
  assert (Ss2 : (0 <= fv s2)%R) by (nonneg_by Gs2; apply mul_np_np; lra).
  assert (Ss4 : (0 <= fv s4)%R) by (nonneg_by Gs4; apply Rmult_le_pos; lra).
  assert (Sa7 : (0 <= fv a7)%R) by (nonneg_by Ga7; apply Rmult_le_pos; lra).
  assert (Sb5 : (0 <= fv b5)%R) by (nonneg_by Gb5; lra).
  assert (Sa5 : (0 <= fv a5)%R) by (nonneg_by Ga5; apply Rmult_le_pos; lra).
  assert (Sb3 : (0 <= fv b3)%R) by (nonneg_by Gb3; lra).
  assert (Sa3 : (0 <= fv a3)%R) by (nonneg_by Ga3; apply Rmult_le_pos; lra).
  assert (Sb1 : (0 <= fv b1)%R) by (nonneg_by Gb1; lra).
  assert (St1 : (0 <= fv t1)%R) by (nonneg_by Gt1; apply Rmult_le_pos; lra).
  assert (Sa6 : (0 <= fv a6)%R) by (nonneg_by Ga6; apply Rmult_le_pos; lra).
  assert (Sb4 : (0 <= fv b4)%R) by (nonneg_by Gb4; lra).
  assert (Sa4 : (0 <= fv a4)%R) by (nonneg_by Ga4; apply Rmult_le_pos; lra).
  assert (Sb2 : (0 <= fv b2)%R) by (nonneg_by Gb2; lra).
  assert (St2 : (0 <= fv t2)%R) by (nonneg_by Gt2; apply Rmult_le_pos; lra).
  assert (SR : (0 <= fv Rt)%R) by (nonneg_by GR; lra).
  assert (Sh : (fv h <= 0)%R) by (nonpos_by Gh; apply mul_nn_np; lra).
  assert (Shf : (0 <= fv hfsq)%R) by (nonneg_by Ghf; apply mul_np_np; lra).
  assert (Su : (0 <= fv u)%R) by (nonneg_by Gu; lra).
  assert (SX : (fv X <= 0)%R) by (nonpos_by GX; apply mul_np_nn; lra).
  assert (SkLo : fv kLo = 0%R).
  { apply Rle_antisym; [nonpos_by GkLo | nonneg_by GkLo]; rewrite Hk, Rmult_0_l; lra. }
  assert (Sw : (fv w <= 0)%R) by (nonpos_by Gw; lra).
  assert (SP : (0 <= fv P)%R) by (nonneg_by GP; lra).
  assert (SQ : (/ 36028797018963968 <= fv Q)%R).
  { eapply Rle_trans; [|apply (fgood_pos _ _ GQ); lra]. lra. }
  assert (SK : fv K = 0%R).
  { apply Rle_antisym; [nonpos_by GK | nonneg_by GK]; rewrite Hk, Rmult_0_l; lra. }
  eapply Rle_trans; [apply (fgood_neg _ _ Gres); lra|]. lra.
Qed.

(** The argument reduction of [F64.Log] for [0 < x < 1]. *)

Lemma SF_zero : Prim2SF 0 = S754_zero false. Proof. vm_compute. reflexivity. Qed.

Lemma SF_one : Prim2SF 1 = S754_finite false 4503599627370496 (-52). Proof. vm_compute. reflexivity. Qed.

Lemma SF_inf : Prim2SF infinity = S754_infinity false. Proof. vm_compute. reflexivity. Qed.

Lemma frexp_small (x : float) : (x <=? 0)%float = false -> (x <? 1)%float = true ->
  (is_nan x || (x =? infinity))%float = false /\ (x <? 0)%float = false /\ (x =? 0)%float = false /\
  forall f1 ki, Z.frexp x = (f1, ki) -> exists m1, Prim2SF f1 = S754_finite false m1 (-53) /\
    4503599627370496 <= Zpos m1 < 9007199254740992 /\ -1073 <= ki <= 0.
Proof.
  intros Hle Hlt.
  rewrite FloatAxioms.leb_spec, SF_zero in Hle. rewrite FloatAxioms.ltb_spec, SF_one in Hlt.
  pose proof (FloatAxioms.Prim2SF_valid x) as Hv.
  destruct (Prim2SF x) as [[]|[]| |[] mx ex] eqn:Hx;
    unfold SFltb, SFleb, SFcompare in Hle, Hlt; cbv beta iota in Hle, Hlt; try discriminate.
  unfold valid_binary, bounded, canonical_mantissa in Hv.
  apply andb_prop in Hv. destruct Hv as [Hv _]. apply Z.eqb_eq in Hv. rewrite fexp_eq in Hv.
  pose proof (Zdigits2_bounds (Zpos mx) ltac:(lia)) as (HD0 & HD1 & HD2).
  change (Zdigits2 (Zpos mx)) with (Zpos (digits2_pos mx)) in HD0, HD1, HD2.
  specialize (HD2 ltac:(lia)).
  assert (HD3 : 1 <= Zpos (digits2_pos mx)) by lia.
  set (D := Zpos (digits2_pos mx)) in *.
  assert (Hex : ex <= -53).
  { destruct (ex ?= -52) eqn:E; try discriminate.
    - apply Z.compare_eq_iff in E. subst ex. exfalso.
      assert (E3 : D = 53) by (clear - Hv; lia). rewrite E3 in HD2. change (2 ^ (53 - 1)) with 4503599627370496 in HD2.
      destruct (PosDef.Pos.compare_cont Eq mx 4503599627370496) eqn:E2; try discriminate.
      rewrite Pos.compare_cont_spec in E2.
      destruct (Pos.compare_spec mx 4503599627370496); try discriminate.
      pose proof (Pos2Z.pos_lt_pos _ _ H). clear - HD2 H0; lia.
    - change (ex < -52) in E. clear - E; lia. }
  split; [|split; [|split]].
  - unfold is_nan. rewrite !FloatAxioms.eqb_spec, Hx, SF_inf.
    unfold SFeqb, SFcompare. cbv beta iota. rewrite Z.compare_refl, Pos.compare_cont_refl. reflexivity.
  - rewrite FloatAxioms.ltb_spec, Hx, SF_zero. reflexivity.
  - rewrite FloatAxioms.eqb_spec, Hx, SF_zero. reflexivity.
  - intros f1 ki Hf. unfold Z.frexp in Hf.
    pose proof (FloatAxioms.frshiftexp_spec x) as Hs.
    destruct (frshiftexp x) as [m se]. injection Hf as <- <-.
    rewrite Hx in Hs. unfold SFfrexp in Hs. fold D in Hs.
    change prec with 53 in Hs.
    destruct (Z.leb_spec 53 D) as [HL|HL]; injection Hs as Hm Hk.
    + assert (E3 : D = 53) by lia. exists mx. rewrite Hm. split; [reflexivity|].
      rewrite E3 in HD1, HD2. change (2 ^ 53) with 9007199254740992 in HD1.
      change (2 ^ (53 - 1)) with 4503599627370496 in HD2. lia.
    + change (IntDef.Z.pos_sub 53 (digits2_pos mx)) with (53 - D) in Hk, Hm.
      assert (ex = -1074) by lia. subst ex.
      exists (Pos.iter xO mx (Z.to_pos (53 - D))). rewrite Hm. split; [reflexivity|].
      rewrite Pos_iter_xO, Z2Pos.id by lia.
      assert (E1 : 2 ^ (D - 1) * 2 ^ (53 - D) = 4503599627370496)
        by (rewrite <- Z.pow_add_r by lia; replace (D - 1 + (53 - D)) with 52 by lia; reflexivity).
      assert (E2 : 2 ^ D * 2 ^ (53 - D) = 9007199254740992)
        by (rewrite <- Z.pow_add_r by lia; replace (D + (53 - D)) with 53 by lia; reflexivity).
      assert (P : 0 < 2 ^ (53 - D)) by (apply Z.pow_pos_nonneg; lia).
      split; [split|lia].
      * rewrite <- E1. apply Z.mul_le_mono_nonneg_r; lia.
      * rewrite <- E2. apply Z.mul_lt_mono_pos_r; lia.
Qed.

Lemma fgood_rel (r : float) (X : R) : fgood r X ->
  (X - Rabs X / 1000 - / 1267650600228229401496703205376 <= fv r <=
   X + Rabs X / 1000 + / 1267650600228229401496703205376)%R.
Proof.
  intros G. destruct (fgood_bounds _ _ G) as (_ & B & _).
  assert (E : (eps * Rabs X <= / 1000 * Rabs X)%R).
  { apply Rmult_le_compat_r; [apply Rabs_pos|]. eapply Rle_trans; [exact eps_small|].
    apply Rinv_le_contravar; lra. }
  pose proof eta_tiny. lra.
Qed.

Lemma of_uint63_good (z : Z) : 0 < z < 2 ^ 62 ->
  ffin (of_uint63 (Uint63.of_Z z)) /\
  (IZR z * 0.99 <= fv (of_uint63 (Uint63.of_Z z)) <= IZR z * 1.01)%R.
Proof.
  intros Hz.
  assert (G : fgood (of_uint63 (Uint63.of_Z z)) (IZR z)).
  { unfold fgood. rewrite FloatAxioms.of_uint63_spec, Uint63.of_Z_spec, Z.mod_small
      by (change Uint63.wB with (2 ^ 63); lia).
    replace (IZR z) with (IZR z * bpow 0)%R by (rewrite bpow_0; ring).
    apply binary_normalize_ok. rewrite bpow_0, Rmult_1_r, Rabs_right by (apply Rle_ge, IZR_le; lia).
    eapply Rlt_trans; [|apply (bpow_lt 62 900); lia]. rewrite bpow_IZR by lia. apply IZR_lt. lia. }
  split; [exact (proj1 G)|].
  pose proof (fgood_rel _ _ G) as B. rewrite Rabs_right in B by (apply Rle_ge, IZR_le; lia).
  assert (1 <= IZR z)%R by (apply IZR_le; lia). lra.
Qed.

Lemma of_Z_pos (z : Z) : 0 < z < 2 ^ 62 ->
  ffin (F64.of_Z z) /\ (IZR z * 0.99 <= fv (F64.of_Z z) <= IZR z * 1.01)%R.
Proof.
  intros Hz. unfold F64.of_Z. replace (z <? 0) with false by (symmetry; apply Z.ltb_ge; lia).
  apply of_uint63_good; exact Hz.
Qed.

Lemma of_Z_neg (z : Z) : - 2 ^ 62 < z < 0 ->
  ffin (F64.of_Z z) /\ (IZR z * 1.01 <= fv (F64.of_Z z) <= IZR z * 0.99)%R.
Proof.
  intros Hz. unfold F64.of_Z. replace (z <? 0) with true by (symmetry; apply Z.ltb_lt; lia).
  destruct (of_uint63_good (- z) ltac:(lia)) as [F B].
  destruct (fopp_val _ F) as [F' E]. split; [exact F'|]. rewrite E, opp_IZR in *. lra.
Qed.

Lemma of_Z_zero : iv (F64.of_Z 0) 0 0.
Proof.
  assert (E : Prim2SF (F64.of_Z 0) = S754_zero false) by (vm_compute; reflexivity).
  unfold iv, ffin, fv. rewrite E. cbn. lra.
Qed.

Lemma SF_HalfSqrt2 : Prim2SF F64.HalfSqrt2 = S754_finite false 6369051672525773 (-53).
Proof. vm_compute. reflexivity. Qed.

Lemma tail_neg_k (f1 : float) (ki : Z) : iv f1 0.7 1.42 -> -1074 <= ki <= -1 ->
  ffin (Log_tail f1 (F64.of_Z ki)) /\ (-764 <= fv (Log_tail f1 (F64.of_Z ki)) <= - / 72057594037927936)%R.
Proof.
  intros If1 Hki.
  destruct (of_Z_neg ki ltac:(lia)) as [Fk Bk].
  assert (Hk : (IZR ki <= -1 /\ -1074 <= IZR ki)%R) by (split; apply IZR_le; lia).
  destruct (tail_iv f1 (F64.of_Z ki) (IZR ki * 1.01) (IZR ki * 0.99) If1 (conj Fk Bk)
    ltac:(lra) ltac:(lra)) as [F B].
  split; [exact F | lra].
Qed.

Lemma fv_frexp (f1 : float) (m1 : positive) : Prim2SF f1 = S754_finite false m1 (-53) ->
  ffin f1 /\ fv f1 = (IZR (Zpos m1) / 9007199254740992)%R.
Proof.
  intros H. unfold ffin, fv. rewrite H. split; [exact I|].
  cbn [sf_to_R]. rewrite bpow_neg_lit. change (2 ^ Zpos 53) with 9007199254740992. unfold Rdiv. ring.
Qed.

Lemma Log_neg (x : float) : (x <=? 0)%float = false -> (x <? 1)%float = true ->
  ffin (F64.Log x) /\ (-764 <= fv (F64.Log x) <= - / 72057594037927936)%R.
Proof.
  intros H1 H2. destruct (frexp_small x H1 H2) as (E1 & E2 & E3 & Hf).
  rewrite Log_unfold, E1, E2, E3.
  destruct (Z.frexp x) as [f1 ki] eqn:Hfr.
  destruct (Hf f1 ki eq_refl) as (m1 & Hm & Hmb & Hki).
  destruct (fv_frexp f1 m1 Hm) as [Ff Vf].
  assert (Bm : (4503599627370496 <= IZR (Zpos m1) <= 9007199254740991)%R)
    by (split; apply IZR_le; lia).
  rewrite FloatAxioms.ltb_spec, Hm, SF_HalfSqrt2.
  unfold SFltb, SFcompare. cbv beta iota. rewrite Z.compare_refl.
  destruct (PosDef.Pos.compare_cont Eq m1 6369051672525773) eqn:C;
    rewrite Pos.compare_cont_spec in C;
    destruct (Pos.compare_spec m1 6369051672525773) as [L|L|L]; try discriminate C.
  - (* m1 = threshold: f1 kept *)
    assert (If1 : iv f1 0.7 1.42) by (split; [exact Ff|]; rewrite Vf, L; lra).
    destruct (Z.eq_dec ki 0) as [->|Hk].
    + destruct (tail_iv f1 _ 0 0 If1 of_Z_zero ltac:(lra) ltac:(lra)) as [F B].
      split; [exact F|]. split; [lra|]. apply tail_zero; [exact If1 | exact of_Z_zero |].
      rewrite Vf. lra.
    + apply tail_neg_k; [exact If1 | lia].
  - (* m1 below: f1 doubled *)
    apply Pos2Z.pos_lt_pos in L.
    assert (Bm' : (IZR (Zpos m1) <= 6369051672525772)%R) by (apply IZR_le; lia).
    assert (If1 : iv f1 0.5 0.70711) by (split; [exact Ff|]; rewrite Vf; lra).
    destruct (iv_mul f1 2 _ _ _ _ 0.7 1.42 If1 iv_two ltac:(crn)) as [If2 _].
    apply tail_neg_k; [exact If2 | lia].
  - (* m1 above: f1 kept *)
    apply Pos2Z.pos_lt_pos in L.
    assert (Bm' : (6369051672525773 <= IZR (Zpos m1))%R) by (apply IZR_le; lia).
    assert (If1 : iv f1 0.7 1.42) by (split; [exact Ff|]; rewrite Vf; lra).
    destruct (Z.eq_dec ki 0) as [->|Hk].
    + destruct (tail_iv f1 _ 0 0 If1 of_Z_zero ltac:(lra) ltac:(lra)) as [F B].
      split; [exact F|]. split; [lra|]. apply tail_zero; [exact If1 | exact of_Z_zero |].
      rewrite Vf. lra.
    + apply tail_neg_k; [exact If1 | lia].
Qed.

(** ** [math.Ceil] and [uint64] on a positive float *)

Lemma trunc_pos (r : float) : ffin r -> (1 <= fv r < 4611686018427387904)%R ->
  exists t, F64.trunc r = Some t /\ 1 <= t < 2 ^ 62.
Proof.
  intros F B. unfold F64.trunc. unfold ffin, fv in *.
  destruct (Prim2SF r) as [s|s| |s m e]; try contradiction.
  - cbn in B. lra.
  - assert (P : (0 < IZR (Zpos m) * bpow e)%R)
      by (apply Rmult_lt_0_compat; [apply IZR_lt; lia | apply bpow_pos]).
    destruct s; cbn [sf_to_R] in B; [lra|]. rewrite Rmult_1_l in B.
    destruct (Z.leb_spec 0 e) as [He|He].
    + exists (Zpos m * 2 ^ e). split; [reflexivity|].
      rewrite bpow_IZR, <- mult_IZR in B by lia. destruct B as [B1 B2].
      apply le_IZR in B1. apply lt_IZR in B2. change (2 ^ 62) with 4611686018427387904. lia.
    + exists (Zpos m / 2 ^ (- e)). split; [reflexivity|].
      assert (Hd : 0 < 2 ^ (- e)) by (apply Z.pow_pos_nonneg; lia).
      assert (Eb : bpow e = (/ IZR (2 ^ (- e)))%R)
        by (rewrite <- (Z.opp_involutive e) at 1; rewrite bpow_opp, bpow_IZR by lia; reflexivity).
      rewrite Eb in B.
      assert (Dp : (0 < IZR (2 ^ (- e)))%R) by (apply IZR_lt; lia).
      assert (Em : IZR (Zpos m) = (IZR (Zpos m) * / IZR (2 ^ (- e)) * IZR (2 ^ (- e)))%R)
        by (field; lra).
      set (q := (IZR (Zpos m) * / IZR (2 ^ (- e)))%R) in *.
      set (dd := IZR (2 ^ (- e))) in *.
      assert (L1 : (dd <= IZR (Zpos m))%R) by (rewrite Em; nra).
      assert (L2 : (IZR (Zpos m) < 4611686018427387904 * dd)%R) by (rewrite Em; nra).
      unfold dd in L1, L2. apply le_IZR in L1. rewrite <- mult_IZR in L2. apply lt_IZR in L2.
      change (2 ^ 62) with 4611686018427387904. split.
      * apply Z.div_le_lower_bound; lia.
      * apply Z.div_lt_upper_bound; lia.
Qed.

Lemma Ceil_trunc (y : float) (m : positive) (e : Z) : Prim2SF y = S754_finite false m e ->
  (fv y < 17592186044416)%R -> exists t, F64.trunc (F64.Ceil y) = Some t /\ 1 <= t < 2 ^ 62.
Proof.
  intros Hy B.
  assert (Vy : fv y = (IZR (Zpos m) * bpow e)%R) by (unfold fv; rewrite Hy; cbn [sf_to_R]; ring).
  unfold F64.Ceil. rewrite Hy.
  destruct (Z.leb_spec 0 e) as [He|He].
  - apply trunc_pos; [unfold ffin; rewrite Hy; exact I|].
    rewrite Vy, bpow_IZR, <- mult_IZR by lia. rewrite Vy, bpow_IZR, <- mult_IZR in B by lia.
    pose proof (Z.pow_pos_nonneg 2 e ltac:(lia) He). split.
    + apply IZR_le. nia.
    + lra.
  - cbv beta iota zeta.
    assert (Hd : 0 < 2 ^ (- e)) by (apply Z.pow_pos_nonneg; lia).
    assert (Eb : bpow e = (/ IZR (2 ^ (- e)))%R)
      by (rewrite <- (Z.opp_involutive e) at 1; rewrite bpow_opp, bpow_IZR by lia; reflexivity).
    rewrite Vy, Eb in B.
    assert (Dp : (0 < IZR (2 ^ (- e)))%R) by (apply IZR_lt; lia).
    assert (Lm : (IZR (Zpos m) < 17592186044416 * IZR (2 ^ (- e)))%R).
    { apply (Rmult_lt_compat_r (IZR (2 ^ (- e)))) in B; [|exact Dp].
      replace (IZR (Zpos m) * / IZR (2 ^ (- e)) * IZR (2 ^ (- e)))%R with (IZR (Zpos m)) in B
        by (field; lra). exact B. }
    rewrite <- mult_IZR in Lm. apply lt_IZR in Lm.
    set (d := 2 ^ (- e)) in *.
    assert (C1 : 1 <= (Zpos m + d - 1) / d) by (apply Z.div_le_lower_bound; lia).
    assert (C2 : d * ((Zpos m + d - 1) / d) <= Zpos m + d - 1) by (apply Z.mul_div_le; lia).
    set (c := (Zpos m + d - 1) / d) in *.
    assert (C3 : c <= 17592186044416) by nia.
    rewrite (proj2 (Z.eqb_neq c 0)) by lia.
    destruct (Z.eq_dec c 1) as [E1|E1].
    + rewrite E1. exists 1. split; [vm_compute; reflexivity | lia].
    + destruct (of_Z_pos c ltac:(lia)) as [F Bc].
      assert (Rc : (2 <= IZR c <= 17592186044416)%R) by (split; apply IZR_le; lia).
      apply trunc_pos; [exact F | lra].
Qed.

Lemma to_uint64_pos (x : float) : (exists t, F64.trunc x = Some t /\ 1 <= t < 2 ^ 62) ->
  0 < F64.to_uint64 x.
Proof.
  intros (t & Ht & Bt). unfold F64.to_uint64, F64.cvttsd2si. rewrite Ht.
  change (64 - 1) with 63.
  change (2 ^ 62) with 4611686018427387904 in Bt.
  destruct (x <? F64.two63)%float.
  - replace ((- 2 ^ 63 <=? t) && (t <? 2 ^ 63)) with true
      by (symmetry; apply andb_true_iff; split; [apply Z.leb_le | apply Z.ltb_lt];
          change (2 ^ 63) with 9223372036854775808; lia).
    unfold two64. rewrite Z.mod_small; change (2 ^ 64) with 18446744073709551616; lia.
  - set (a := (_ mod two64)).
    assert (Ha : 0 <= a) by (apply Z.mod_pos_bound; unfold two64; lia).
    assert (N : 0 <= Z.lor a (2 ^ 63)) by (apply Z.lor_nonneg; lia).
    assert (Z.lor a (2 ^ 63) <> 0) by (rewrite Z.lor_eq_0_iff; lia).
    lia.
Qed.

(** ** [optimalBitLen] and [New] on [0 < prob < 1] *)

Lemma big900 : (4611686018427387904 <= bpow 900)%R.
Proof.
  apply Rlt_le. replace 4611686018427387904%R with (bpow 62) by (rewrite bpow_IZR by lia; reflexivity).
  apply bpow_lt; lia.
Qed.

Lemma iv_ln2sq : iv (F64.Log 2 * F64.Log 2) 0.48 0.49.
Proof. fconst. Qed.

Lemma optimalBitLen_pos (n : Z) (prob : float) : 0 < n < 2 ^ 32 ->
  (prob <=? 0)%float = false -> (prob <? 1)%float = true -> 0 < optimalBitLen n prob.
Proof.
  intros Hn H1 H2. unfold optimalBitLen. cbv zeta.
  destruct (Log_neg prob H1 H2) as [FL BL].
  destruct iv_ln2sq as [FC BC].
  destruct (of_Z_pos n ltac:(change (2 ^ 62) with 4611686018427387904; lia)) as [Fn Bn].
  destruct (fopp_val _ Fn) as [FA VA].
  assert (Rn : (1 <= IZR n <= 4294967295)%R) by (split; apply IZR_le; lia).
  pose proof big900 as B9.
  set (L := F64.Log prob) in *. set (C := (F64.Log 2 * F64.Log 2)%float) in *.
  set (A := (- F64.of_Z n)%float) in *.
  assert (Ba : (0.99 <= - fv A <= 4338000000)%R) by lra.
  assert (Bl : (/ 72057594037927936 <= - fv L <= 764)%R) by lra.
  assert (X1 : (0.99 * / 72057594037927936 <= fv A * fv L)%R).
  { replace (fv A * fv L)%R with ((- fv A) * (- fv L))%R by ring.
    apply Rmult_le_compat; lra. }
  assert (X2 : (fv A * fv L <= 3315000000000)%R).
  { replace (fv A * fv L)%R with ((- fv A) * (- fv L))%R by ring.
    apply Rle_trans with (4338000000 * 764)%R; [apply Rmult_le_compat; lra | lra]. }
  assert (G1 : fgood (A * L) (fv A * fv L))
    by (apply fmul_good; [exact FA | exact FL | rewrite Rabs_right by lra; lra]).
  pose proof (fgood_rel _ _ G1) as R1. rewrite Rabs_right in R1 by lra.
  destruct (fgood_bounds _ _ G1) as [FAL _].
  set (AL := (A * L)%float) in *.
  assert (Bal : (0.98 * / 72057594037927936 <= fv AL <= 3320000000000)%R) by lra.
  assert (Ic : (/ 0.49 <= / fv C <= / 0.48)%R) by (split; apply Rinv_le_contravar; lra).
  assert (Y1 : (/ 72057594037927936 <= fv AL / fv C)%R).
  { unfold Rdiv. apply Rle_trans with (0.98 * / 72057594037927936 * / 0.49)%R; [lra|].
    apply Rmult_le_compat; lra. }
  assert (Y2 : (fv AL / fv C <= 6920000000000)%R).
  { unfold Rdiv. apply Rle_trans with (3320000000000 * / 0.48)%R; [apply Rmult_le_compat; lra | lra]. }
  assert (G2 : fgood (AL / C) (fv AL / fv C))
    by (apply fdiv_good; [exact FAL | exact FC | lra | rewrite Rabs_right by lra; lra]).
  pose proof (fgood_rel _ _ G2) as R2. rewrite Rabs_right in R2 by lra.
  destruct (fgood_bounds _ _ G2) as [Fy _].
  set (y := (AL / C)%float) in *.
  assert (By : (0 < fv y < 17592186044416)%R) by lra.
  apply to_uint64_pos.
  unfold ffin, fv in Fy, By. destruct (Prim2SF y) as [s|s| |s m e] eqn:Hy; try contradiction.
  - cbn in By. lra.
  - destruct s.
    + cbn [sf_to_R] in By.
      assert (P : (0 < IZR (Zpos m) * bpow e)%R)
        by (apply Rmult_lt_0_compat; [apply IZR_lt; lia | apply bpow_pos]). lra.
    + apply (Ceil_trunc y m e Hy). unfold fv. rewrite Hy. lra.
Qed.

Lemma New_bitlen (n : Z) (prob : float) (f : Filter) : New n prob = Done (Some f, None) ->
  (prob <=? 0)%float = false /\ f.(bitlen) = optimalBitLen n prob.
Proof.
  unfold New. cbv zeta.
  destruct (n =? 0); [discriminate|]. destruct (prob <=? 0)%float; [discriminate|].
  destruct (make_uint64s _) as [store|k]; [|discriminate].
  intros H. injection H as <-. split; reflexivity.
Qed.

(** ** C9 *)

(** C9, as worded: [New(1, 1.0)] succeeds with a filter of bit length 0. *)
Lemma C9_counterexample : ~ C9_claim.
Proof.
  intros H. specialize (H 1 1%float (mkFilter 1 0 0 1 [])).
  assert (E : New 1 1%float = Done (Some (mkFilter 1 0 0 1 []), None)) by (vm_compute; reflexivity).
  specialize (H E). simpl in H. lia.
Qed.

(** C9, corrected. For a capacity [0 < n < 2^32] (the range of the [uint32]
    parameter) and a probability [prob < 1], every filter that [New n prob] returns
    has [bitlen > 0]. ([New] itself rejects [prob <= 0]; the counterexample above
    has [prob = 1].) *)
Theorem C9_bitlen_pos (n : Z) (prob : float) (f : Filter) :
  0 < n < 2 ^ 32 -> (prob <? 1)%float = true -> New n prob = Done (Some f, None) ->
  0 < f.(bitlen).
Proof.
  intros Hn Hp HN. destruct (New_bitlen n prob f HN) as [H0 ->].
  apply optimalBitLen_pos; assumption.
Qed.

Lemma C9_bitlen_pos_witness :
  New 100 prob_001 = Done (Some (mkFilter prob_001 959 7 100 (repeat 0 15)), None) /\
  0 < bitlen (mkFilter prob_001 959 7 100 (repeat 0 15)).
Proof.
  assert (E : New 100 prob_001 = Done (Some (mkFilter prob_001 959 7 100 (repeat 0 15)), None))
    by (vm_compute; reflexivity).
  split; [exact E|].
  apply (C9_bitlen_pos 100 prob_001); [lia | vm_compute; reflexivity | exact E].
Defined.

(** * Further properties of the package *)

(** ** Hex digests and ParseUint *)

Lemma hex_fold_ge (cs : list Z) (acc : Z) :
  Forall hex_digit_char cs -> 0 <= acc ->
  acc <= fold_left (fun a c => a * 16 + spec_hex_digit c) cs acc.
Proof.
  intros Hcs. revert acc. induction Hcs as [|c cs [d [Hd ->]] _ IH]; intros acc Ha; [simpl; lia|].
  simpl. rewrite (proj2 (digit_hex_char d Hd)).
  specialize (IH (acc * 16 + d) ltac:(lia)). lia.
Qed.

Lemma parse_loop_value (cs : list Z) (acc : Z) :
  Forall hex_digit_char cs -> 0 <= acc < two64 ->
  ParseUint.loop cs acc =
    (let v := fold_left (fun a c => a * 16 + spec_hex_digit c) cs acc in
     if v <? two64 then (v, None) else (ParseUint.maxVal, Some ErrRange)).
Proof.
  intros Hcs. revert acc. induction Hcs as [|c cs [d [Hd ->]] Hcs IH]; intros acc Ha.
  - simpl. destruct (Z.ltb_spec acc two64); [reflexivity | lia].
  - cbn [ParseUint.loop fold_left]. destruct (digit_hex_char d Hd) as [Hdig Hspec].
    rewrite Hdig, Hspec.
    destruct (Z.leb_spec 16 d); [lia|].
    assert (Hcut : ParseUint.cutoff = 2 ^ 60) by reflexivity. rewrite Hcut.
    unfold two64 in *.
    destruct (Z.leb_spec (2 ^ 60) acc) as [Hc|Hc].
    + pose proof (hex_fold_ge cs (acc * 16 + d) Hcs ltac:(lia)).
      destruct (Z.ltb_spec (fold_left (fun a c => a * 16 + spec_hex_digit c) cs (acc * 16 + d)) (2 ^ 64));
        [lia | reflexivity].
    + rewrite (Z.mod_small (acc * 16)) by lia.
      rewrite (Z.mod_small (acc * 16 + d)) by lia.
      destruct (Z.ltb_spec (acc * 16 + d) (acc * 16)); [lia|].
      destruct (Z.ltb_spec ParseUint.maxVal (acc * 16 + d)) as [Hm|_];
        [unfold ParseUint.maxVal, two64 in Hm; lia|].
      apply IH. unfold two64. lia.
Qed.

Lemma parse_hex_value (cs : list Z) :
  cs <> [] -> Forall hex_digit_char cs ->
  ParseUint.parse cs =
    (if spec_hex_value cs <? two64 then (spec_hex_value cs, None)
     else (ParseUint.maxVal, Some ErrRange)).
Proof.
  intros Hne Hcs. unfold ParseUint.parse.
  destruct cs as [|c cs]; [congruence|].
  rewrite parse_loop_value by (try exact Hcs; unfold two64; lia). reflexivity.
Qed.

Lemma hex_fold_sprintf (bs : list Z) (acc : Z) :
  Forall (fun b => 0 <= b < 256) bs ->
  fold_left (fun a c => a * 16 + spec_hex_digit c) (sprintf_x bs) acc = SHA256.be_value bs acc.
Proof.
  intros Hbs. revert acc. induction Hbs as [|b bs Hb _ IH]; intros acc; [reflexivity|].
  cbn [sprintf_x flat_map app fold_left SHA256.be_value].
  rewrite (proj2 (digit_hex_char (b / 16) ltac:(split; [apply Z.div_pos|apply Z.div_lt_upper_bound]; lia))).
  rewrite (proj2 (digit_hex_char (b mod 16) ltac:(apply Z.mod_pos_bound; lia))).
  fold (sprintf_x bs). rewrite IH. f_equal.
  pose proof (Z.div_mod b 16 ltac:(lia)). lia.
Qed.

Lemma be_value_app (l : list Z) (b acc : Z) :
  SHA256.be_value (l ++ [b]) acc = SHA256.be_value l acc * 256 + b.
Proof. revert acc; induction l as [|x l IH]; intros acc; simpl; [reflexivity | apply IH]. Qed.

Lemma be_value_bytes (k : nat) (x : Z) :
  SHA256.be_value (SHA256.be_bytes k x) 0 = x mod 2 ^ (8 * Z.of_nat k).
Proof.
  revert x; induction k as [|k IH]; intros x.
  - simpl. rewrite Z.mod_1_r. reflexivity.
  - cbn [SHA256.be_bytes]. rewrite be_value_app, IH.
    change 255 with (Z.ones 8). rewrite Z.land_ones by lia.
    rewrite Z.shiftr_div_pow2 by lia.
    replace (8 * Z.of_nat (S k)) with (8 + 8 * Z.of_nat k) by lia.
    rewrite Z.pow_add_r by lia.
    rewrite (Z.rem_mul_r x (2 ^ 8) (2 ^ (8 * Z.of_nat k))) by (try apply Z.pow_pos_nonneg; lia).
    change (2 ^ 8) with 256. lia.
Qed.

Lemma firstn_sprintf_x (k : nat) (bs : list Z) :
  firstn (2 * k) (sprintf_x bs) = sprintf_x (firstn k bs).
Proof.
  revert bs; induction k as [|k IH]; intros bs; [reflexivity|].
  destruct bs as [|b bs]; [reflexivity|].
  replace (2 * S k)%nat with (S (S (2 * k))) by lia.
  cbn [sprintf_x flat_map app firstn]. fold (sprintf_x bs). fold (sprintf_x (firstn k bs)).
  rewrite IH. reflexivity.
Qed.

Lemma be_value_bound (bs : list Z) (acc : Z) :
  Forall (fun b => 0 <= b < 256) bs -> 0 <= acc ->
  0 <= SHA256.be_value bs acc < (acc + 1) * 256 ^ Z.of_nat (length bs).
Proof.
  intros Hbs. revert acc. induction Hbs as [|b bs Hb _ IH]; intros acc Ha.
  - simpl. lia.
  - cbn [SHA256.be_value length]. rewrite Nat2Z.inj_succ, Z.pow_succ_r by lia.
    specialize (IH (acc * 256 + b) ltac:(lia)). nia.
Qed.

Lemma is_hex_lower_char (c : Z) : is_hex_lower c = true -> hex_digit_char c.
Proof.
  unfold is_hex_lower, hex_digit_char, hex_char. intros H.
  apply orb_prop in H as [H|H]; apply andb_prop in H as [H1 H2];
    apply Z.leb_le in H1; apply Z.leb_le in H2.
  - exists (c - 48). split; [lia|]. destruct (Z.ltb_spec (c - 48) 10); lia.
  - exists (c - 87). split; [lia|]. destruct (Z.ltb_spec (c - 87) 10); lia.
Qed.

Lemma positions_loop_no_error (element : list Z) (m i : Z) (cnt : nat) (pos ps : list Z)
    (err : option error) :
  positions_loop element m i cnt pos = Done (ps, err) -> err = None /\ length ps = length pos.
Proof.
  revert i pos; induction cnt as [|cnt IH]; intros i pos E.
  - injection E as <- <-. auto.
  - cbn [positions_loop] in E. rewrite hash_eq in E.
    destruct (m =? 0); [discriminate|]. cbv beta iota in E.
    destruct (IH _ _ E) as [-> L]. rewrite L, list_set_length. auto.
Qed.

Lemma add_loop_outcome (ps : list Z) (bf : Filter) :
  snd (add_loop ps bf) = Done None \/ exists k, snd (add_loop ps bf) = Panic k.
Proof.
  revert bf; induction ps as [|p ps IH]; intros bf; cbn [add_loop]; [left; reflexivity|].
  destruct (bitlocation p 64) as [index offset].
  destruct (or_word index (shl64 1 offset) bf) as [bf' [u|k]]; [apply IH | right; exists k; reflexivity].
Qed.

Lemma has_loop_outcome (ps : list Z) (bf : Filter) :
  (exists b, snd (has_loop ps bf) = Done (b, None)) \/ exists k, snd (has_loop ps bf) = Panic k.
Proof.
  revert bf; induction ps as [|p ps IH]; intros bf; cbn [has_loop]; [left; exists true; reflexivity|].
  destruct (bitlocation p 64) as [index offset].
  destruct (load_word index bf) as [bf' [w|k]]; [|right; exists k; reflexivity].
  destruct (Z.land w (shl64 1 offset) =? 0); [left; exists false; reflexivity | apply IH].
Qed.

(** X1: [strconv.ParseUint(s, 16, 64)] on a string of lower-case hex digits: an empty
    string is a syntax error; otherwise the result is the string's value when it is
    below [2^64], and [2^64 - 1] with a range error when it is not; the value never
    wraps around. *)
Theorem X1_parseuint_hex (cs : list Z) :
  forallb is_hex_lower cs = true ->
  ParseUint.parse cs =
    match cs with
    | [] => (0, Some ErrSyntax)
    | _ => if spec_hex_value cs <? two64 then (spec_hex_value cs, None)
           else (ParseUint.maxVal, Some ErrRange)
    end.
Proof.
  intros H. destruct cs as [|c cs']; [reflexivity|].
  apply parse_hex_value; [discriminate|].
  apply Forall_forall. intros x Hx. apply is_hex_lower_char.
  rewrite forallb_forall in H. apply H, Hx.
Qed.

Lemma X1_witness :
  ParseUint.parse (repeat 102 17) = (ParseUint.maxVal, Some ErrRange).
Proof.
  rewrite (X1_parseuint_hex (repeat 102 17)) by reflexivity. vm_compute. reflexivity.
Defined.

(** X2: round trip of [fmt.Sprintf("%x")] and [strconv.ParseUint(_, 16, 64)]: the hex
    encoding of the 8 big-endian bytes of any [uint64] parses back to that number. *)
Theorem X2_hex_roundtrip (x : Z) :
  0 <= x < two64 ->
  ParseUint.parse (sprintf_x (SHA256.be_bytes 8 x)) = (x, None).
Proof.
  intros Hx.
  assert (Hb : Forall (fun b => 0 <= b < 256) (SHA256.be_bytes 8 x)) by apply be_bytes_range.
  rewrite parse_hex_value.
  - unfold spec_hex_value. rewrite hex_fold_sprintf by exact Hb.
    rewrite be_value_bytes. change (2 ^ (8 * Z.of_nat 8)) with two64.
    rewrite Z.mod_small by exact Hx. destruct (Z.ltb_spec x two64); [reflexivity | lia].
  - intros E. apply (f_equal (@length Z)) in E.
    rewrite sprintf_x_length, be_bytes_length in E. discriminate.
  - apply sprintf_x_chars, Hb.
Qed.

Lemma X2_witness : ParseUint.parse (sprintf_x (SHA256.be_bytes 8 842533)) = (842533, None).
Proof. apply X2_hex_roundtrip. unfold two64. lia. Defined.

(** X3: [hash(b, bitlen)] reads the first 8 bytes of the SHA-256 digest of [b] as a
    big-endian [uint64] (below [2^64]) and returns it mod [bitlen]; it never returns an
    error, and it panics (integer division by zero) exactly when [bitlen] is 0. *)
Theorem X3_hash_digest_prefix (b : list Z) (bitlen : Z) :
  hash b bitlen =
    (if bitlen =? 0 then Panic DivideByZero
     else Done (SHA256.be_value (firstn 8 (SHA256.sum b)) 0 mod bitlen, None)) /\
  0 <= SHA256.be_value (firstn 8 (SHA256.sum b)) 0 < two64.
Proof.
  assert (Hb : Forall (fun x => 0 <= x < 256) (firstn 8 (SHA256.sum b)))
    by (apply Forall_firstn_Z, sum_range).
  split.
  - rewrite hash_eq. destruct (bitlen =? 0); [reflexivity|].
    change 16%nat with (2 * 8)%nat. rewrite firstn_sprintf_x.
    unfold spec_hex_value. rewrite hex_fold_sprintf by exact Hb. reflexivity.
  - pose proof (be_value_bound _ 0 Hb ltac:(lia)) as H.
    rewrite length_firstn, sum_length in H.
    replace ((0 + 1) * 256 ^ Z.of_nat (Nat.min 8 32)) with two64 in H by reflexivity. exact H.
Qed.

(** ** Edge behaviour of [bitpositions], [Add] and [Has] *)

(** X4: [bitpositions] never returns an error, and what it returns has exactly
    [hashqty] entries, whatever [bitlen] is; with [hashqty = 0] it returns no
    positions without hashing, and with [hashqty > 0] and [bitlen = 0] it panics
    (division by zero in [hash]). *)
Theorem X4_bitpositions_edges (element : list Z) (k m : Z) :
  (forall ps err, bitpositions element k m = Done (ps, err) ->
     err = None /\ length ps = Z.to_nat k) /\
  (k = 0 -> bitpositions element k m = Done ([], None)) /\
  (0 < k -> m = 0 -> bitpositions element k m = Panic DivideByZero).
Proof.
  split; [|split].
  - intros ps err E. unfold bitpositions in E.
    destruct (positions_loop_no_error _ _ _ _ _ _ _ E) as [-> L].
    rewrite L, repeat_length. auto.
  - intros ->. reflexivity.
  - intros Hk ->. unfold bitpositions.
    destruct (Z.to_nat k) as [|k'] eqn:Ek; [lia|].
    cbn [positions_loop]. rewrite hash_eq. reflexivity.
Qed.

Lemma X4_witness : bitpositions s_test 3 0 = Panic DivideByZero.
Proof.
  destruct (X4_bitpositions_edges s_test 3 0) as (_ & _ & H). apply H; lia.
Defined.

(** X5: [Add] and [Has] never return a non-nil error, on any filter. On a filter
    with [hashqty = 0], [Add] changes nothing and [Has] answers [true] for every
    element; on a filter with [hashqty > 0] and [bitlen = 0], both panic before
    touching the filter. *)
Theorem X5_add_has_edges (element : list Z) (bf : Filter) :
  (forall err, snd (Add element bf) <> Done (Some err)) /\
  (forall b err, snd (Has element bf) <> Done (b, Some err)) /\
  (bf.(hashqty) = 0 ->
     Add element bf = (bf, Done None) /\ Has element bf = (bf, Done (true, None))) /\
  (0 < bf.(hashqty) -> bf.(bitlen) = 0 ->
     Add element bf = (bf, Panic DivideByZero) /\ Has element bf = (bf, Panic DivideByZero)).
Proof.
  split; [|split; [|split]].
  - intros err. unfold Add.
    destruct (bitpositions element bf.(hashqty) bf.(bitlen)) as [[ps e]|k] eqn:E; [|discriminate].
    unfold bitpositions in E. destruct (positions_loop_no_error _ _ _ _ _ _ _ E) as [-> _].
    destruct (add_loop_outcome ps bf) as [H|[k H]]; rewrite H; discriminate.
  - intros b err. unfold Has.
    destruct (bitpositions element bf.(hashqty) bf.(bitlen)) as [[ps e]|k] eqn:E; [|discriminate].
    unfold bitpositions in E. destruct (positions_loop_no_error _ _ _ _ _ _ _ E) as [-> _].
    destruct (has_loop_outcome ps bf) as [[b' H]|[k H]]; rewrite H; discriminate.
  - intros Hk. unfold Add, Has. rewrite Hk. split; reflexivity.
  - intros Hk Hm. unfold Add, Has, bitpositions. rewrite Hm.
    destruct (Z.to_nat bf.(hashqty)) as [|k'] eqn:Ek; [lia|].
    cbn [positions_loop]. rewrite hash_eq. split; reflexivity.
Qed.

Lemma X5_witness :
  Has s_bob (mkFilter prob_001 959 0 100 (repeat 0 15))
  = (mkFilter prob_001 959 0 100 (repeat 0 15), Done (true, None)).
Proof.
  destruct (X5_add_has_edges s_bob (mkFilter prob_001 959 0 100 (repeat 0 15))) as (_ & _ & H & _).
  apply H. reflexivity.
Defined.

(** ** The bitstore after [Add] *)

Lemma list_set_same_twice (s : list Z) (i : nat) (a b : Z) :
  list_set (list_set s i a) i b = list_set s i b.
Proof. revert i; induction s as [|x s IH]; intros [|i]; simpl; auto. rewrite IH. reflexivity. Qed.

Lemma list_set_swap (s : list Z) (i j : nat) (a b : Z) :
  i <> j -> list_set (list_set s i a) j b = list_set (list_set s j b) i a.
Proof.
  revert i j; induction s as [|x s IH]; intros [|i] [|j] Hij; simpl; auto; try lia.
  rewrite IH by lia. reflexivity.
Qed.

Lemma set_bit_length (s : list Z) (p : Z) : length (set_bit s p) = length s.
Proof. unfold set_bit. apply list_set_length. Qed.

Lemma set_bits_length (s ps : list Z) : length (set_bits s ps) = length s.
Proof.
  unfold set_bits. revert s; induction ps as [|p ps IH]; intros s; [reflexivity|].
  simpl. rewrite IH. apply set_bit_length.
Qed.

Lemma set_bit_comm (s : list Z) (p q : Z) : set_bit (set_bit s q) p = set_bit (set_bit s p) q.
Proof.
  unfold set_bit.
  set (i := Z.to_nat (p / 64)). set (j := Z.to_nat (q / 64)).
  destruct (Nat.eq_dec i j) as [E|E].
  - rewrite <- E. destruct (Nat.lt_ge_cases i (length s)) as [Hi|Hi].
    + rewrite !nth_list_set_same by exact Hi. rewrite !list_set_same_twice.
      f_equal. rewrite <- !Z.lor_assoc, (Z.lor_comm (2 ^ (q mod 64))). reflexivity.
    + rewrite !(list_set_beyond s) by exact Hi. reflexivity.
  - rewrite !nth_list_set_other by auto. apply list_set_swap. auto.
Qed.

Lemma set_bits_set_bit (s : list Z) (ps : list Z) (q : Z) :
  set_bits (set_bit s q) ps = set_bit (set_bits s ps) q.
Proof.
  unfold set_bits. revert s; induction ps as [|p ps IH]; intros s; [reflexivity|].
  simpl. rewrite set_bit_comm. apply IH.
Qed.

Lemma set_bits_comm (s ps1 ps2 : list Z) :
  set_bits (set_bits s ps1) ps2 = set_bits (set_bits s ps2) ps1.
Proof.
  revert s; induction ps1 as [|p ps1 IH]; intros s; [reflexivity|].
  change (set_bits s (p :: ps1)) with (set_bits (set_bit s p) ps1).
  rewrite IH. change (set_bits (set_bits s ps2) (p :: ps1))
    with (set_bits (set_bit (set_bits s ps2) p) ps1).
  rewrite set_bits_set_bit. reflexivity.
Qed.

Lemma set_bit_bit_at (s : list Z) (p q : Z) :
  0 <= p -> p / 64 < Z.of_nat (length s) ->
  bit_at (set_bit s p) q =
    match bit_at s q with Some b => Some (b || (q =? p)) | None => None end.
Proof.
  intros Hp Hi. unfold bit_at. rewrite set_bit_length.
  destruct ((0 <=? q) && (q / 64 <? Z.of_nat (length s))) eqn:Eq; [|reflexivity].
  apply andb_prop in Eq as [Eq1 Eq2]. apply Z.leb_le in Eq1. apply Z.ltb_lt in Eq2.
  assert (Hp64 : 0 <= p / 64) by (apply Z.div_pos; lia).
  assert (Hq64 : 0 <= q / 64) by (apply Z.div_pos; lia).
  assert (Hpm : 0 <= p mod 64 < 64) by (apply Z.mod_pos_bound; lia).
  assert (Hqm : 0 <= q mod 64 < 64) by (apply Z.mod_pos_bound; lia).
  unfold set_bit. f_equal.
  destruct (Z.eq_dec (q / 64) (p / 64)) as [E|E].
  - rewrite E, nth_list_set_same by (apply Nat2Z.inj_lt; rewrite Z2Nat.id; lia).
    rewrite lor_pow2_bits by lia. f_equal.
    pose proof (Z.div_mod p 64 ltac:(lia)). pose proof (Z.div_mod q 64 ltac:(lia)).
    destruct (Z.eqb_spec (p mod 64) (q mod 64)); destruct (Z.eqb_spec q p); auto; lia.
  - rewrite nth_list_set_other by (intros H; apply Z2Nat.inj in H; lia).
    destruct (Z.eqb_spec q p) as [->|_]; [lia|]. rewrite orb_false_r. reflexivity.
Qed.

Lemma set_bits_bit_at (s ps : list Z) (q : Z) :
  Forall (fun p => 0 <= p /\ p / 64 < Z.of_nat (length s)) ps ->
  bit_at (set_bits s ps) q =
    match bit_at s q with Some b => Some (b || existsb (Z.eqb q) ps) | None => None end.
Proof.
  unfold set_bits. revert s; induction ps as [|p ps IH]; intros s Hps.
  - simpl. destruct (bit_at s q) as [b|]; [rewrite orb_false_r|]; reflexivity.
  - inversion Hps as [|? ? [Hp Hi] Hr]; subst. simpl.
    rewrite IH by (rewrite set_bit_length; exact Hr).
    rewrite set_bit_bit_at by assumption.
    destruct (bit_at s q) as [b|]; [|reflexivity]. rewrite orb_assoc. reflexivity.
Qed.

Lemma add_loop_in_bounds (ps : list Z) (bf : Filter) :
  Forall (fun p => 0 <= p < two64 /\ p / 64 < Z.of_nat (length bf.(bitstore))) ps ->
  add_loop ps bf = (with_bitstore bf (set_bits bf.(bitstore) ps), Done None).
Proof.
  revert bf; induction ps as [|p ps IH]; intros bf Hps.
  - simpl. rewrite with_bitstore_same. reflexivity.
  - inversion Hps as [|? ? [Hp Hi] Hr]; subst.
    rewrite add_loop_cons by exact Hp. rewrite bit_at_in by lia.
    unfold in_bounds. assert (0 <= p / 64) by (apply Z.div_pos; lia).
    destruct (Z.leb_spec 0 (p / 64)); [|lia].
    destruct (Z.ltb_spec (p / 64) (Z.of_nat (length (bitstore bf)))); [|lia].
    rewrite IH; [reflexivity|]. simpl. rewrite set_bit_length. exact Hr.
Qed.

(** The effect of [Add] on a filter of the shape [New] returns. *)
Lemma Add_new_filter (element : list Z) (f : Filter) :
  new_filter_ok f ->
  Add element f =
    if f.(bitlen) =? 0 then
      (f, if Z.to_nat f.(hashqty) =? 0 then Done None else Panic DivideByZero)%nat
    else (with_bitstore f (set_bits f.(bitstore)
                             (spec_positions element f.(hashqty) f.(bitlen))), Done None).
Proof.
  intros Hok. pose proof Hok as (Hb & _ & _).
  destruct (Z.eqb_spec f.(bitlen) 0) as [E|E].
  - unfold Add, bitpositions. rewrite E.
    destruct (Z.to_nat f.(hashqty)); [reflexivity|].
    cbn [positions_loop]. rewrite hash_eq. reflexivity.
  - destruct (bitpositions_cases element f.(hashqty) f.(bitlen) ltac:(lia)) as [H|[_ R]].
    + rewrite bitpositions_pos in H by lia. discriminate.
    + unfold Add. rewrite bitpositions_pos by lia.
      apply add_loop_in_bounds, positions_in_store; assumption.
Qed.

Lemma new_filter_ok_with_bitstore (f : Filter) (s : list Z) :
  new_filter_ok f -> length s = length f.(bitstore) -> new_filter_ok (with_bitstore f s).
Proof. intros (H1 & H2 & H3) L. unfold new_filter_ok; simpl. rewrite L. auto. Qed.

Lemma with_bitstore_twice (f : Filter) (s1 s2 : list Z) :
  with_bitstore (with_bitstore f s1) s2 = with_bitstore f s2.
Proof. destruct f; reflexivity. Qed.

Lemma positions_in_new (element : list Z) (f : Filter) :
  new_filter_ok f -> 0 < f.(bitlen) ->
  Forall (fun p => 0 <= p < two64 /\ p / 64 < Z.of_nat (length f.(bitstore)))
    (spec_positions element f.(hashqty) f.(bitlen)).
Proof. intros Hf Hb. apply positions_in_store; [exact Hf|]. apply spec_positions_range, Hb. Qed.

(** [run_adds] on a filter of the shape [New] returns, with a non-zero bit length. *)
Lemma run_adds_new (es : list (list Z)) (g : Filter) :
  new_filter_ok g -> 0 < g.(bitlen) ->
  run_adds es g =
    (with_bitstore g (fold_left (fun s e => set_bits s (spec_positions e g.(hashqty) g.(bitlen)))
                                es g.(bitstore)), Done tt).
Proof.
  revert g; induction es as [|e es IH]; intros g Hg Hb; cbn [run_adds fold_left].
  - rewrite with_bitstore_same. reflexivity.
  - rewrite Add_new_filter by exact Hg. destruct (Z.eqb_spec g.(bitlen) 0); [lia|].
    rewrite IH.
    + rewrite with_bitstore_twice. reflexivity.
    + apply new_filter_ok_with_bitstore; [exact Hg | apply set_bits_length].
    + exact Hb.
Qed.

Lemma fold_set_bits_bit_at (P : list Z -> list Z) (es : list (list Z)) (s : list Z) (q : Z) :
  (forall e, Forall (fun p => 0 <= p /\ p / 64 < Z.of_nat (length s)) (P e)) ->
  bit_at (fold_left (fun s e => set_bits s (P e)) es s) q =
    match bit_at s q with
    | Some b => Some (b || existsb (fun e => existsb (Z.eqb q) (P e)) es)
    | None => None
    end.
Proof.
  revert s; induction es as [|e es IH]; intros s HP; cbn [fold_left existsb].
  - destruct (bit_at s q); [rewrite orb_false_r|]; reflexivity.
  - rewrite IH by (rewrite set_bits_length; exact HP).
    rewrite set_bits_bit_at by apply HP.
    destruct (bit_at s q); [rewrite orb_assoc|]; reflexivity.
Qed.

Lemma fold_set_bits_length (P : list Z -> list Z) (es : list (list Z)) (s : list Z) :
  length (fold_left (fun s e => set_bits s (P e)) es s) = length s.
Proof.
  revert s; induction es as [|e es IH]; intros s; [reflexivity|].
  cbn [fold_left]. rewrite IH. apply set_bits_length.
Qed.

Lemma fold_set_bits_perm (P : list Z -> list Z) (es es' : list (list Z)) (s : list Z) :
  Permutation es es' ->
  fold_left (fun s e => set_bits s (P e)) es s = fold_left (fun s e => set_bits s (P e)) es' s.
Proof.
  intros Hp. revert s. induction Hp as [|e es es' _ IH|a b es|es es' es'' _ IH1 _ IH2];
    intros s; cbn [fold_left].
  - reflexivity.
  - apply IH.
  - rewrite set_bits_comm. reflexivity.
  - rewrite IH1. apply IH2.
Qed.

Lemma bit_at_zeros (k : nat) (q : Z) : bit_at (repeat 0 k) q <> Some true.
Proof.
  unfold bit_at. destruct (_ && _); [|discriminate].
  rewrite nth_repeat. intros H. injection H as H.
  rewrite Z.testbit_0_l in H. discriminate.
Qed.

Lemma has_loop_exact (ps : list Z) (bf : Filter) :
  Forall (fun p => 0 <= p < two64 /\ p / 64 < Z.of_nat (length bf.(bitstore))) ps ->
  has_loop ps bf =
    (bf, Done (forallb (fun p => match bit_at bf.(bitstore) p with Some b => b | None => false end) ps,
               None)).
Proof.
  induction ps as [|p ps IH]; intros Hps; [reflexivity|].
  inversion Hps as [|? ? [Hp Hi] Hr]; subst.
  rewrite has_loop_cons by exact Hp. cbn [forallb]. rewrite bit_at_in by lia.
  unfold in_bounds. assert (0 <= p / 64) by (apply Z.div_pos; lia).
  destruct (Z.leb_spec 0 (p / 64)); [|lia].
  destruct (Z.ltb_spec (p / 64) (Z.of_nat (length (bitstore bf)))); [|lia]. destruct (Z.testbit _ _); cbn [andb]; [apply IH, Hr | reflexivity].
Qed.

Lemma New_fresh (n0 : Z) (prob0 : float) (f : Filter) :
  New n0 prob0 = Done (Some f, None) -> f.(bitstore) = repeat 0 (length f.(bitstore)).
Proof.
  unfold New. destruct (n0 =? 0); [discriminate|]. destruct (prob0 <=? 0)%float; [discriminate|].
  unfold make_uint64s. destruct (maxAlloc <? 8 * _); [discriminate|].
  intros E; injection E as <-. simpl. rewrite repeat_length. reflexivity.
Qed.

Lemma bit_at_zero_store (k : nat) (p : Z) :
  0 <= p -> p / 64 < Z.of_nat (length (repeat 0 k)) -> bit_at (repeat 0 k) p = Some false.
Proof.
  intros Hp Hi. unfold bit_at.
  destruct (Z.leb_spec 0 p); [|lia]. destruct (Z.ltb_spec (p / 64) (Z.of_nat (length (repeat 0 k)))); [|lia].
  rewrite nth_repeat, Z.testbit_0_l. reflexivity.
Qed.

Lemma forallb_Forall_ext {A : Type} (g1 g2 : A -> bool) (l : list A) :
  Forall (fun x => g1 x = g2 x) l -> forallb g1 l = forallb g2 l.
Proof. induction 1 as [|x l E _ IH]; [reflexivity|]. simpl. rewrite E, IH. reflexivity. Qed.

(** [run_adds] on a filter of the shape [New] returns, with a zero bit length. *)
Lemma run_adds_zero (es : list (list Z)) (g : Filter) :
  new_filter_ok g -> g.(bitlen) = 0 ->
  run_adds es g =
    (g, match es with
        | [] => Done tt
        | _ => if (Z.to_nat g.(hashqty) =? 0)%nat then Done tt else Panic DivideByZero
        end).
Proof.
  intros Hg Hb. induction es as [|e es IH]; [reflexivity|]. cbn [run_adds].
  rewrite Add_new_filter by exact Hg. rewrite Hb. cbn [Z.eqb].
  destruct (Z.to_nat g.(hashqty) =? 0)%nat eqn:Eq; [|reflexivity].
  rewrite IH. destruct es; reflexivity.
Qed.

(** ** X6 *)

(** X6: exact effect of [Add]. On a filter of the shape [New] returns (bit length
    below 2^64, hash count a byte, [buckets] words) with a non-zero bit length,
    [Add] returns no error and changes only the bitstore, to one of the same length
    whose bit q is the old bit q or'ed with whether q is one of the element's
    positions. *)
Theorem X6_add_effect (element : list Z) (f : Filter) :
  new_filter_ok f -> 0 < f.(bitlen) ->
  exists s', Add element f = (with_bitstore f s', Done None) /\
    length s' = length f.(bitstore) /\
    forall q, bit_at s' q =
      match bit_at f.(bitstore) q with
      | Some b => Some (b || existsb (Z.eqb q) (spec_positions element f.(hashqty) f.(bitlen)))
      | None => None
      end.
Proof.
  intros Hf Hb. eexists. split; [|split].
  - rewrite Add_new_filter by exact Hf. destruct (Z.eqb_spec f.(bitlen) 0); [lia|]. reflexivity.
  - apply set_bits_length.
  - intros q. apply set_bits_bit_at.
    eapply Forall_impl; [|apply (positions_in_new element f Hf Hb)]. simpl. lia.
Qed.

Lemma X6_witness :
  exists s', Add s_bob (mkFilter prob_001 959 7 100 (repeat 0 15)) =
    (with_bitstore (mkFilter prob_001 959 7 100 (repeat 0 15)) s', Done None) /\
    length s' = 15%nat /\
    forall q, bit_at s' q =
      match bit_at (repeat 0 15) q with
      | Some b => Some (b || existsb (Z.eqb q) (spec_positions s_bob 7 959))
      | None => None
      end.
Proof.
  apply (X6_add_effect s_bob (mkFilter prob_001 959 7 100 (repeat 0 15))).
  - unfold new_filter_ok, two64; simpl. repeat split; try lia.
  - simpl. lia.
Defined.

(** ** X7 *)

(** X7: the order of the adds does not matter. For a filter returned by [New],
    adding the elements of [es] in turn and adding those of any permutation of [es]
    in turn give the same filter and the same outcome. *)
Theorem X7_add_order (n0 : Z) (prob0 : float) (f : Filter) (es es' : list (list Z)) :
  New n0 prob0 = Done (Some f, None) -> Permutation es es' ->
  run_adds es f = run_adds es' f.
Proof.
  intros Hnew Hp. pose proof (New_ok _ _ _ Hnew) as Hf. pose proof Hf as (Hb & _ & _).
  destruct (Z.eq_dec f.(bitlen) 0) as [E|E].
  - rewrite !run_adds_zero by assumption.
    destruct es, es'; try reflexivity.
    + apply Permutation_nil in Hp. discriminate.
    + symmetry in Hp. apply Permutation_nil in Hp. discriminate.
  - rewrite !run_adds_new by (assumption || lia).
    rewrite (fold_set_bits_perm _ es es' _ Hp). reflexivity.
Qed.

Lemma X7_witness :
  run_adds [s_bob; s_test] (mkFilter prob_001 959 7 100 (repeat 0 15))
  = run_adds [s_test; s_bob] (mkFilter prob_001 959 7 100 (repeat 0 15)).
Proof.
  apply (X7_add_order 100 prob_001).
  - vm_compute. reflexivity.
  - apply perm_swap.
Defined.

(** ** X8 *)

(** X8: what [Has] reports after a sequence of adds. On a filter returned by [New]
    with a non-zero bit length, adding the elements of [es] in turn returns without a
    panic, and [Has e] on the result then returns, without error, whether every
    position of [e] is a position of some element of [es]. *)
Theorem X8_has_after_adds (n0 : Z) (prob0 : float) (f : Filter) (es : list (list Z))
    (e : list Z) :
  New n0 prob0 = Done (Some f, None) -> 0 < f.(bitlen) ->
  let P := fun x => spec_positions x f.(hashqty) f.(bitlen) in
  snd (run_adds es f) = Done tt /\
  Has e (fst (run_adds es f)) =
    (fst (run_adds es f),
     Done (forallb (fun p => existsb (fun e' => existsb (Z.eqb p) (P e')) es) (P e), None)).
Proof.
  intros Hnew Hb P. pose proof (New_ok _ _ _ Hnew) as Hf.
  pose proof (New_fresh _ _ _ Hnew) as Hz.
  rewrite run_adds_new by assumption. split; [reflexivity|]. cbn [fst].
  set (S := fold_left _ es _).
  assert (HS : new_filter_ok (with_bitstore f S)).
  { apply new_filter_ok_with_bitstore; [exact Hf | apply fold_set_bits_length]. }
  unfold Has. cbn [hashqty bitlen with_bitstore].
  rewrite bitpositions_pos by exact Hb.
  rewrite has_loop_exact by exact (positions_in_new e (with_bitstore f S) HS Hb).
  do 3 f_equal. apply forallb_Forall_ext.
  eapply Forall_impl; [|apply (positions_in_new e f Hf Hb)]. intros p [Hp Hi]. cbn [bitstore with_bitstore].
  unfold S. rewrite fold_set_bits_bit_at.
  - rewrite Hz, bit_at_zero_store; [reflexivity | lia | rewrite <- Hz; exact Hi].
  - intros x. eapply Forall_impl; [|apply (positions_in_new x f Hf Hb)]. simpl. lia.
Qed.

Lemma X8_witness :
  let P := fun x => spec_positions x 7 959 in
  snd (run_adds [s_bob] (mkFilter prob_001 959 7 100 (repeat 0 15))) = Done tt /\
  Has s_test (fst (run_adds [s_bob] (mkFilter prob_001 959 7 100 (repeat 0 15)))) =
    (fst (run_adds [s_bob] (mkFilter prob_001 959 7 100 (repeat 0 15))),
     Done (forallb (fun p => existsb (fun e' => existsb (Z.eqb p) (P e')) [s_bob]) (P s_test),
           None)).
Proof.
  apply (X8_has_after_adds 100 prob_001 (mkFilter prob_001 959 7 100 (repeat 0 15))).
  - vm_compute. reflexivity.
  - simpl. lia.
Defined.

Lemma Add_no_error (element : list Z) (bf : Filter) :
  snd (Add element bf) = Done None \/ exists k, snd (Add element bf) = Panic k.
Proof.
  unfold Add.
  destruct (bitpositions element bf.(hashqty) bf.(bitlen)) as [[ps e]|k] eqn:E;
    [|right; exists k; reflexivity].
  unfold bitpositions in E. destruct (positions_loop_no_error _ _ _ _ _ _ _ E) as [-> _].
  apply add_loop_outcome.
Qed.

Lemma Has_no_error (element : list Z) (bf : Filter) :
  (exists b, snd (Has element bf) = Done (b, None)) \/ exists k, snd (Has element bf) = Panic k.
Proof.
  unfold Has.
  destruct (bitpositions element bf.(hashqty) bf.(bitlen)) as [[ps e]|k] eqn:E;
    [|right; exists k; reflexivity].
  unfold bitpositions in E. destruct (positions_loop_no_error _ _ _ _ _ _ _ E) as [-> _].
  apply has_loop_outcome.
Qed.

Lemma positions_set (element : list Z) (f : Filter) :
  new_filter_ok f -> 0 < f.(bitlen) ->
  let ps := spec_positions element f.(hashqty) f.(bitlen) in
  Forall (fun p => bit_at (set_bits f.(bitstore) ps) p = Some true) ps.
Proof.
  intros Hf Hb ps. pose proof (positions_in_new element f Hf Hb) as Hin.
  apply Forall_forall. intros p Hp. pose proof (proj1 (Forall_forall _ _) Hin p Hp) as [Hp1 Hp2].
  rewrite set_bits_bit_at.
  - rewrite bit_at_in by lia. unfold in_bounds.
    assert (0 <= p / 64) by (apply Z.div_pos; lia).
    destruct (Z.leb_spec 0 (p / 64)); [|lia].
    destruct (Z.ltb_spec (p / 64) (Z.of_nat (length (bitstore f)))); [|lia].
    assert (Hex : existsb (Z.eqb p) ps = true).
    { apply existsb_exists. exists p. split; [exact Hp | apply Z.eqb_refl]. }
    rewrite Hex. cbn [andb]. rewrite orb_true_r. reflexivity.
  - eapply Forall_impl; [|exact Hin]. simpl. lia.
Qed.

(** ** X9 *)

(** X9: [MustAdd] and [MustHave] never panic with an error of the package, since
    [Add] and [Has] never return one; they leave the filter as [Add] and [Has] do,
    and panic exactly when [Add] or [Has] does. *)
Theorem X9_must_error_free (element : list Z) (bf : Filter) :
  (forall err, snd (MustAdd element bf) <> ErrorPanic err) /\
  (forall err, snd (MustHave element bf) <> ErrorPanic err) /\
  fst (MustAdd element bf) = fst (Add element bf) /\ fst (MustHave element bf) = bf /\
  (forall k, snd (MustAdd element bf) = RuntimePanic k <-> snd (Add element bf) = Panic k) /\
  (forall k, snd (MustHave element bf) = RuntimePanic k <-> snd (Has element bf) = Panic k).
Proof.
  pose proof (Has_state element bf) as Hs.
  unfold MustAdd, MustHave.
  destruct (Add element bf) as [bf1 r1] eqn:EA. destruct (Has element bf) as [bf2 r2] eqn:EH.
  cbn [fst snd] in Hs |- *.
  pose proof (Add_no_error element bf) as HA. pose proof (Has_no_error element bf) as HH.
  rewrite EA in HA. rewrite EH in HH. cbn [snd] in HA, HH.
  destruct HA as [->|[k1 ->]], HH as [[b ->]|[k2 ->]];
    repeat split; try discriminate; auto; intros H; injection H as ->; reflexivity.
Qed.

(** ** X10 *)

(** X10: on a filter of the shape [New] returns, with a non-zero bit length,
    [MustAdd] returns normally, and [MustHave] of the same element on the filter it
    leaves returns true. *)
Theorem X10_must_roundtrip (element : list Z) (f : Filter) :
  new_filter_ok f -> 0 < f.(bitlen) ->
  MustAdd element f = (fst (Add element f), Returned tt) /\
  MustHave element (fst (MustAdd element f)) = (fst (MustAdd element f), Returned true).
Proof.
  intros Hf Hb. unfold MustAdd. rewrite Add_new_filter by exact Hf.
  destruct (Z.eqb_spec f.(bitlen) 0); [lia|]. split; [reflexivity|]. cbn [fst].
  set (g := with_bitstore f _).
  assert (Hg : new_filter_ok g).
  { apply new_filter_ok_with_bitstore; [exact Hf | apply set_bits_length]. }
  unfold MustHave, Has. cbn [g hashqty bitlen with_bitstore].
  rewrite bitpositions_pos by exact Hb.
  pose proof (positions_set element f Hf Hb) as Hset.
  pose proof (has_loop_true (spec_positions element f.(hashqty) f.(bitlen)) g) as [_ HT].
  - eapply Forall_impl; [|apply (positions_in_new element f Hf Hb)]. simpl. lia.
  - specialize (HT Hset). pose proof (has_loop_state (spec_positions element f.(hashqty) f.(bitlen)) g) as HS.
    destruct (has_loop _ g) as [g' r]. cbn [fst snd] in HT, HS. subst g' r. reflexivity.
Qed.

Lemma X10_witness :
  MustAdd s_bob (mkFilter prob_001 959 7 100 (repeat 0 15))
    = (fst (Add s_bob (mkFilter prob_001 959 7 100 (repeat 0 15))), Returned tt) /\
  MustHave s_bob (fst (MustAdd s_bob (mkFilter prob_001 959 7 100 (repeat 0 15))))
    = (fst (MustAdd s_bob (mkFilter prob_001 959 7 100 (repeat 0 15))), Returned true).
Proof.
  apply (X10_must_roundtrip s_bob (mkFilter prob_001 959 7 100 (repeat 0 15))).
  - unfold new_filter_ok, two64; simpl. repeat split; try lia.
  - simpl. lia.
Defined.

(** [New] when none of its checks fails. *)
Lemma New_success (n0 : Z) (prob0 : float) :
  (n0 =? 0) = false -> (prob0 <=? 0)%float = false ->
  (maxAlloc <? 8 * buckets_of (optimalBitLen n0 prob0)) = false ->
  New n0 prob0 =
    Done (Some (mkFilter prob0 (optimalBitLen n0 prob0) (optimalHashQty prob0) n0
                  (repeat 0 (Z.to_nat (buckets_of (optimalBitLen n0 prob0))))), None).
Proof.
  intros H1 H2 H3. unfold New. rewrite H1, H2. cbv zeta. unfold make_uint64s. rewrite H3.
  reflexivity.
Qed.

(** ** X11 *)

(** X11: the fuzz target of [fuzz.go] returns 1 on every input: the filter
    [New(4294967295, 0.0001)] is allocated (with 82335024503 bits) and its [Add]
    returns no error and does not panic, whatever the data. *)
Theorem X11_fuzz_returns_one (data : list Z) : Fuzz data = FuzzReturn 1.
Proof.
  assert (Eb : optimalBitLen 4294967295 prob_00001 = 82335024503) by (vm_compute; reflexivity).
  assert (Hnew := New_success 4294967295 prob_00001 eq_refl ltac:(vm_compute; reflexivity)
                    ltac:(rewrite Eb; vm_compute; reflexivity)).
  pose proof (New_ok _ _ _ Hnew) as Hok.
  unfold Fuzz. rewrite Hnew. rewrite (Add_new_filter data _ Hok).
  cbn [bitlen]. rewrite Eb. reflexivity.
Qed.

(** ** X12 *)

(** X12: for probabilities of at least 1 [New] can return a filter with
    [bitlen = 0]: [New(1, 1.0)] and [New(1, 1.5)] return filters with [bitlen = 0],
    [hashqty = 0] and an empty bitstore. On such a filter [Add] of any element
    changes nothing and returns no error, and [Has] of any element returns [true]. *)
Theorem X12_zero_bitlen (element : list Z) :
  New 1 1%float = Done (Some (mkFilter 1 0 0 1 []), None) /\
  New 1 1.5%float = Done (Some (mkFilter 1.5 0 0 1 []), None) /\
  Add element (mkFilter 1 0 0 1 []) = (mkFilter 1 0 0 1 [], Done None) /\
  Has element (mkFilter 1 0 0 1 []) = (mkFilter 1 0 0 1 [], Done (true, None)) /\
  Add element (mkFilter 1.5 0 0 1 []) = (mkFilter 1.5 0 0 1 [], Done None) /\
  Has element (mkFilter 1.5 0 0 1 []) = (mkFilter 1.5 0 0 1 [], Done (true, None)).
Proof.
  split; [vm_compute; reflexivity|]. split; [vm_compute; reflexivity|].
  repeat split; reflexivity.
Qed.
